(** * AtlasRide backend: movement engine and route acquisition

    A shallow embedding of [app/services/simulation.py] (the tick-based
    movement engine), [app/services/osrm_service.py] (route acquisition and
    bearing), of the distance and nearby-cars handlers of [app/routes.py],
    and of the parts of [app/database.py] and [app/models.py] they touch,
    followed by the properties of the specification that concern them and
    by further properties of the same code.

    Modelling conventions.
    - A Python [float] is a real number ([R]): arithmetic is exact, there is
      no NaN, no infinity and no rounding.  Equalities between floats proved
      below are equalities of the mathematical values the program computes.
    - [math.sin], [math.cos], [math.sqrt] are the functions of the Standard
      Library's real analysis; [math.atan2] is defined from [atan] by the
      usual quadrant cases; a Python exception is a [Raise] result.
    - A coordinate is the pair [[lng, lat]] of the docstrings.
    - The dictionary [car_states] is a finite map from identifiers to
      states; a state's [coordinates] list is updated by index.  Every car
      has a list of its own: [spawn_car] registers a fresh route per car.
    - The record store behind [app/database.py] is a pair of tables: the
      car rows and the append-only log of position rows.  It answers every
      call, and the log is in the order of its timestamps.
    - Rounding can make the program raise where the exact computation
      cannot: at nearly antipodal points the rounded haversine term can
      exceed 1 and [math.sqrt(1 - a)] raise in [_calculate_distance].
      Where it matters, the properties below take the distance of a
      segment as given or keep away from such points.
    - The two HTTP requests of [get_route] are given by their replies.
    The module [Binary64] evaluates the distance of one update on binary64
    floats, for the one constant the specification calls exact. *)

From Stdlib Require Import Floats Reals Lra Lia ZArith Sorted.
From stdpp Require Import gmap strings list.

#[local] Open Scope R_scope.

(** ** Python results *)

Inductive exn : Type :=
  | ValueError
  | TypeError
  | ZeroDivisionError
  | IndexError
  | KeyError
  | AttributeError
  | HTTPError
  | Exception.

Inductive result (A : Type) : Type :=
  | Ok (a : A)
  | Raise (e : exn).
Arguments Ok {A} a.
Arguments Raise {A} e.

#[global] Instance result_ret : MRet result := fun A a => Ok a.
#[global] Instance result_bind : MBind result := fun A B f m =>
  match m with
  | Ok a => f a
  | Raise e => Raise e
  end.

Definition is_Ok {A} (r : result A) : Prop := exists a, r = Ok a.

(** ** The [math] module on real numbers *)

Module PyMath.

(** [math.radians(x)] and [math.degrees(x)]. *)
Definition radians (x : R) : R := x * (PI / 180).
Definition degrees (x : R) : R := x * (180 / PI).

(** [math.sqrt(x)]: a [ValueError] (math domain error) below zero. *)
Definition py_sqrt (x : R) : result R :=
  if Rlt_dec x 0 then Raise ValueError else Ok (sqrt x).

(** [math.atan2(y, x)], the angle of the point [(x, y)] in [(-PI, PI]];
    the value at the origin is [0], as in C. *)
Definition atan2 (y x : R) : R :=
  if Rlt_dec 0 x then atan (y / x)
  else if Rlt_dec x 0 then
    (if Rle_dec 0 y then atan (y / x) + PI else atan (y / x) - PI)
  else if Rlt_dec 0 y then PI / 2
  else if Rlt_dec y 0 then - (PI / 2)
  else 0.

(** [x / y] on floats: a [ZeroDivisionError] when the divisor is zero. *)
Definition py_div (x y : R) : result R :=
  if Req_dec_T y 0 then Raise ZeroDivisionError else Ok (x / y).

(** [x % m] on floats: the remainder takes the sign of the divisor,
    [x - m * floor (x / m)]. *)
Definition py_mod (x m : R) : R := x - m * IZR (Int_part (x / m)).

End PyMath.

(** ** [app/services/osrm_service.py]: bearing *)

Module OSRMService.
Import PyMath.

(** [OSRMService.calculate_bearing(lng1, lat1, lng2, lat2)]. *)
Definition calculate_bearing (lng1 lat1 lng2 lat2 : R) : R :=
  let lat1_rad := radians lat1 in
  let lat2_rad := radians lat2 in
  let lng_diff := radians (lng2 - lng1) in
  let x := sin lng_diff * cos lat2_rad in
  let y := cos lat1_rad * sin lat2_rad
           - (sin lat1_rad * cos lat2_rad * cos lng_diff) in
  let bearing := atan2 x y in
  let bearing_deg := degrees bearing in
  py_mod (bearing_deg + 360) 360.

End OSRMService.

(** ** Decoded JSON payloads and [app/models.py] *)

(** A value as [response.json()] returns it. *)
#[warnings="-register-all"]
Inductive pyval : Type :=
  | PNone
  | PBool (b : bool)
  | PNum (r : R)
  | PStr (s : string)
  | PList (l : list pyval)
  | PDict (items : list (string * pyval)).

Module Models.

(** [class OSRMRoute(BaseModel)]. *)
Record OSRMRoute : Type := {
  geometry : pyval;
  distance : R;
  duration : R;
  coordinates : list (list R)
}.

(** The default of [SpawnCarRequest.speed]: [Field(30.0, ...)]. *)
Definition SpawnCarRequest_speed_default : R := 30.

(** [SpawnCarRequest.speed] for a request that gives the field or omits it. *)
Definition SpawnCarRequest_speed (given : option R) : R :=
  match given with
  | Some v => v
  | None => SpawnCarRequest_speed_default
  end.

Fixpoint as_list {A} (f : pyval -> result A) (l : list pyval) : result (list A) :=
  match l with
  | [] => Ok []
  | v :: l' => a ← f v; rest ← as_list f l'; Ok (a :: rest)
  end.

Section Validation.

(** What the validation of a [float] field makes of a string or a
    boolean: in its lax mode pydantic converts a numeric string (and, in
    the versions that accept them, [True] and [False]); [None] stands for
    a value it refuses. *)
Variable lax_float : pyval -> option R.

(** Validation of a [float] field (a [pydantic.ValidationError] is a
    [ValueError]). *)
Definition as_float (v : pyval) : result R :=
  match v with
  | PNum r => Ok r
  | PStr _ | PBool _ =>
      match lax_float v with
      | Some r => Ok r
      | None => Raise ValueError
      end
  | _ => Raise ValueError
  end.

(** Validation of a [List[float]] and of a [List[List[float]]] field. *)
Definition as_float_list (v : pyval) : result (list R) :=
  match v with
  | PList l => as_list as_float l
  | _ => Raise ValueError
  end.

Definition as_coordinates (v : pyval) : result (list (list R)) :=
  match v with
  | PList l => as_list as_float_list l
  | _ => Raise ValueError
  end.

(** [OSRMRoute(geometry=..., distance=..., duration=..., coordinates=...)]
    on decoded values: [geometry] must be a dictionary. *)
Definition make_OSRMRoute (g d t c : pyval) : result OSRMRoute :=
  match g with
  | PDict _ =>
      d' ← as_float d;
      t' ← as_float t;
      c' ← as_coordinates c;
      Ok {| geometry := g; distance := d'; duration := t'; coordinates := c' |}
  | _ => Raise ValueError
  end.

End Validation.

End Models.

(** ** [app/services/osrm_service.py]: route acquisition *)

Module Routing.
Import PyMath Models.

(** What [client.get(url)] gives: the request raises [httpx.HTTPError], or
    a response arrives with a status code and a body that
    [response.json()] decodes or not. *)
Inductive http_reply : Type :=
  | RequestFailed
  | Response (status_code : nat) (json : option pyval).

(** [response.raise_for_status()]: only a 2xx status passes. *)
Definition raise_for_status (status_code : nat) : result unit :=
  if (200 <=? status_code)%nat && (status_code <? 300)%nat
  then Ok tt else Raise HTTPError.

(** [d[k]] and [d.get(k)] on a decoded value. *)
Fixpoint lookup_key (k : string) (items : list (string * pyval)) : option pyval :=
  match items with
  | [] => None
  | (k', v) :: rest => if String.eqb k k' then Some v else lookup_key k rest
  end.

Definition subscript (v : pyval) (k : string) : result pyval :=
  match v with
  | PDict items =>
      match lookup_key k items with
      | Some x => Ok x
      | None => Raise KeyError
      end
  | _ => Raise TypeError
  end.

Definition dict_get (v : pyval) (k : string) : result pyval :=
  match v with
  | PDict items =>
      match lookup_key k items with
      | Some x => Ok x
      | None => Ok PNone
      end
  | _ => Raise AttributeError
  end.

(** [v[0]] on a decoded value. *)
Definition first_item (v : pyval) : result pyval :=
  match v with
  | PList (x :: _) => Ok x
  | PList [] => Raise IndexError
  | PStr (String c _) => Ok (PStr (String c EmptyString))
  | PStr EmptyString => Raise IndexError
  | PDict _ => Raise KeyError
  | _ => Raise TypeError
  end.

Definition is_code_Ok (v : pyval) : bool :=
  match v with
  | PStr s => String.eqb s "Ok"
  | _ => false
  end.

(** The body of one [try] block of [get_route]: request, status check,
    decoding, and extraction of the first route. *)
Definition fetch_route (lax_float : pyval -> option R) (reply : http_reply)
  : result OSRMRoute :=
  match reply with
  | RequestFailed => Raise HTTPError
  | Response status_code json =>
      _ ← raise_for_status status_code;
      data ← (match json with Some d => Ok d | None => Raise ValueError end);
      code ← dict_get data "code";
      if negb (is_code_Ok code) then Raise Exception else
      routes ← subscript data "routes";
      route ← first_item routes;
      geometry ← subscript route "geometry";
      distance ← subscript route "distance";
      duration ← subscript route "duration";
      coordinates ← subscript geometry "coordinates";
      make_OSRMRoute lax_float geometry distance duration coordinates
  end.

Definition steps : nat := 10.

(** The straight-line fallback at the end of [get_route]. *)
Definition straight_line (start_lng start_lat end_lng end_lat : R)
  : result OSRMRoute :=
  let coordinates :=
    map (fun i : nat =>
           let t := INR i / INR steps in
           let lng := start_lng + (end_lng - start_lng) * t in
           let lat := start_lat + (end_lat - start_lat) * t in
           [lng; lat])
        (seq 0 (steps + 1)) in
  let dx := (end_lng - start_lng) * 111.32 * cos (radians start_lat) in
  let dy := (end_lat - start_lat) * 110.57 in
  root ← py_sqrt (dx * dx + dy * dy);
  let distance := root * 1000 in
  let duration := distance / 10 in
  Ok {| geometry :=
          PDict [("type"%string, PStr "LineString");
                 ("coordinates"%string,
                  PList (map (fun c => PList (map PNum c)) coordinates))];
        distance := distance;
        duration := duration;
        coordinates := coordinates |}.

(** [OSRMService.get_route]: the reply of the configured provider and the
    reply of the public provider stand for the two requests; [lax_float]
    is the conversion the validation of [OSRMRoute] applies. *)
Definition get_route (lax_float : pyval -> option R)
    (local_reply public_reply : http_reply)
    (start_lng start_lat end_lng end_lat : R) : result OSRMRoute :=
  match fetch_route lax_float local_reply with
  | Ok route => Ok route
  | Raise _ =>
      match fetch_route lax_float public_reply with
      | Ok route => Ok route
      | Raise _ => straight_line start_lng start_lat end_lng end_lat
      end
  end.


End Routing.

(** ** [app/database.py]: the record store *)

Module Database.

(** A column of a row that [select("*")] returned: the key may be missing
    from the dictionary, hold [None], or hold a number. *)
Inductive column : Type :=
  | Absent
  | Null
  | Num (r : R).

(** A row of the table [cars]. *)
Record CarRow : Type := {
  id : string;
  speed : column;
  status : string
}.

(** A row of the table [car_positions], as [insert_car_position] is given
    it; the store stamps it, so the table is ordered by insertion. *)
Record PositionRow : Type := {
  car_id : string;
  lng : R;
  lat : R;
  heading : R;
  progress : R
}.

Record Tables : Type := {
  cars : list CarRow;
  car_positions : list PositionRow
}.

(** [Database.insert_car_position]. *)
Definition insert_car_position (position_data : PositionRow) (t : Tables) : Tables :=
  {| cars := cars t; car_positions := car_positions t ++ [position_data] |}.

(** [Database.update_car_status]. *)
Definition update_car_status (cid : string) (s : string) (t : Tables) : Tables :=
  {| cars := map (fun c => if String.eqb (id c) cid
                           then {| id := id c; speed := speed c; status := s |}
                           else c) (cars t);
     car_positions := car_positions t |}.

(** [Database.get_all_cars]. *)
Definition get_all_cars (t : Tables) : list CarRow := cars t.

(** [Database.get_car_latest_position]: the newest row of the car. *)
Definition get_car_latest_position (cid : string) (t : Tables) : option PositionRow :=
  last (filter (fun p => car_id p = cid) (car_positions t)).

(** [Database.get_latest_car_positions]: the newest 1000 rows, newest
    first, then one row per car, the first met; [latest_positions] is the
    dictionary of the loop, as the list of its items in insertion order. *)
Definition get_latest_car_positions (t : Tables) : list PositionRow :=
  let data := take 1000 (reverse (car_positions t)) in
  let latest_positions :=
    foldl (fun (d : list (string * PositionRow)) pos =>
             if decide (car_id pos ∈ d.*1) then d else d ++ [(car_id pos, pos)])
          [] data in
  latest_positions.*2.

End Database.

(** ** [app/services/simulation.py]: the movement engine *)

Module Simulation.
Import PyMath.

Inductive Status : Type :=
  | moving
  | finished.

#[global] Instance Status_eq_dec : EqDecision Status.
Proof. solve_decision. Defined.

(** One entry of [car_states]: the dictionary with the keys
    ["coordinates"], ["current_index"], ["progress"] and ["status"]. *)
Record CarState : Type := {
  coordinates : list (R * R);
  current_index : nat;
  progress : R;
  status : Status
}.

(** The engine and the store it talks to. *)
Record World : Type := {
  update_interval : R;
  car_states : gmap string CarState;
  db : Database.Tables
}.

(** Statements of the engine: they read and write the world and may raise;
    what was written before an exception stays written. *)
Definition M (A : Type) : Type := World -> result A * World.

#[global] Instance M_ret : MRet M := fun A a w => (Ok a, w).
#[global] Instance M_bind : MBind M := fun A B f m w =>
  match m w with
  | (Ok a, w') => f a w'
  | (Raise e, w') => (Raise e, w')
  end.

Definition raise {A} (e : exn) : M A := fun w => (Raise e, w).
Definition lift {A} (r : result A) : M A := fun w => (r, w).

(** [self.car_states.get(car_id)]. *)
Definition get_state (car_id : string) : M (option CarState) :=
  fun w => (Ok (car_states w !! car_id), w).

Definition with_car_states (f : gmap string CarState -> gmap string CarState) : M unit :=
  fun w => (Ok tt, {| update_interval := update_interval w;
                      car_states := f (car_states w);
                      db := db w |}).

(** [self.car_states[car_id] = state]. *)
Definition set_state (car_id : string) (state : CarState) : M unit :=
  with_car_states (insert car_id state).

(** [del self.car_states[car_id]]. *)
Definition del_state (car_id : string) : M unit :=
  fun w => match car_states w !! car_id with
           | Some _ => with_car_states (delete car_id) w
           | None => (Raise KeyError, w)
           end.

(** Assignments to the keys of the dictionary [car_states[car_id]]. *)
Definition set_current_index (car_id : string) (i : nat) : M unit :=
  with_car_states (alter (fun s => {| coordinates := coordinates s;
                                      current_index := i;
                                      progress := progress s;
                                      status := status s |}) car_id).

Definition set_progress (car_id : string) (p : R) : M unit :=
  with_car_states (alter (fun s => {| coordinates := coordinates s;
                                      current_index := current_index s;
                                      progress := p;
                                      status := status s |}) car_id).

Definition set_status (car_id : string) (st : Status) : M unit :=
  with_car_states (alter (fun s => {| coordinates := coordinates s;
                                      current_index := current_index s;
                                      progress := progress s;
                                      status := st |}) car_id).

(** [coordinates[i] = p], on the list the state holds. *)
Definition set_coordinate (car_id : string) (i : nat) (p : R * R) : M unit :=
  with_car_states (alter (fun s => {| coordinates := <[i := p]> (coordinates s);
                                      current_index := current_index s;
                                      progress := progress s;
                                      status := status s |}) car_id).

(** [coordinates[i]]. *)
Definition item (coordinates : list (R * R)) (i : nat) : M (R * R) :=
  match coordinates !! i with
  | Some p => mret p
  | None => raise IndexError
  end.

(** The calls on [db]. *)
Definition with_db (f : Database.Tables -> Database.Tables) : M unit :=
  fun w => (Ok tt, {| update_interval := update_interval w;
                      car_states := car_states w;
                      db := f (db w) |}).

Definition db_insert_car_position (row : Database.PositionRow) : M unit :=
  with_db (Database.insert_car_position row).

Definition db_update_car_status (car_id : string) (s : string) : M unit :=
  with_db (Database.update_car_status car_id s).

Definition db_get_all_cars : M (list Database.CarRow) :=
  fun w => (Ok (Database.get_all_cars (db w)), w).

Definition db_get_car_latest_position (car_id : string)
  : M (option Database.PositionRow) :=
  fun w => (Ok (Database.get_car_latest_position car_id (db w)), w).

Definition get_update_interval : M R :=
  fun w => (Ok (update_interval w), w).

(** [SimulationEngine._calculate_initial_heading]. *)
Definition _calculate_initial_heading (coordinates : list (R * R)) : R :=
  match coordinates with
  | (lng1, lat1) :: (lng2, lat2) :: _ =>
      OSRMService.calculate_bearing lng1 lat1 lng2 lat2
  | _ => 0
  end.

(** [SimulationEngine.add_car]. *)
Definition add_car (car_id : string) (route_coordinates : list (R * R)) : M unit :=
  if (length route_coordinates <? 2)%nat then raise ValueError else
  _ ← set_state car_id {| coordinates := route_coordinates;
                          current_index := 0;
                          progress := 0;
                          status := moving |};
  start_coord ← item route_coordinates 0;
  db_insert_car_position
    {| Database.car_id := car_id;
       Database.lng := start_coord.1;
       Database.lat := start_coord.2;
       Database.heading := _calculate_initial_heading route_coordinates;
       Database.progress := 0 |}.

(** Earth's radius in meters. *)
Definition R_earth : R := 6371000.

(** [SimulationEngine._calculate_distance]: the haversine formula. *)
Definition _calculate_distance (lat1 lng1 lat2 lng2 : R) : result R :=
  let phi1 := radians lat1 in
  let phi2 := radians lat2 in
  let delta_phi := radians (lat2 - lat1) in
  let delta_lambda := radians (lng2 - lng1) in
  let a := sin (delta_phi / 2) ^ 2
           + cos phi1 * cos phi2 * sin (delta_lambda / 2) ^ 2 in
  s1 ← py_sqrt a;
  s2 ← py_sqrt (1 - a);
  let c := 2 * atan2 s1 s2 in
  Ok (R_earth * c).

(** [SimulationEngine._finish_car]. *)
Definition _finish_car (car_id : string) : M unit :=
  state ← get_state car_id;
  match state with
  | Some _ =>
      _ ← set_status car_id finished;
      _ ← set_progress car_id 100;
      db_update_car_status car_id "finished"
  | None => mret tt
  end.

(** [next((c for c in car_data if str(c["id"]) == car_id), None)]. *)
Definition find_car (car_id : string) (car_data : list Database.CarRow)
  : option Database.CarRow :=
  head (filter (fun c => Database.id c = car_id) car_data).

(** [car.get("speed", 30.0)] followed by its first use, [speed_kmh / 3.6]:
    a missing key gives the default, [None] cannot be divided. *)
Definition speed_default : R := 30.

Definition car_get_speed (car : Database.CarRow) : option R :=
  match Database.speed car with
  | Database.Absent => Some speed_default
  | Database.Null => None
  | Database.Num r => Some r
  end.

Definition speed_in_ms (speed_kmh : option R) : result R :=
  match speed_kmh with
  | Some v => Ok (v / 3.6)
  | None => Raise TypeError
  end.

(** [SimulationEngine.update_car_position]. *)
Definition update_car_position (car_id : string) : M unit :=
  state ← get_state car_id;
  match state with
  | None => mret tt
  | Some state =>
    if decide (status state = finished) then mret tt else
    let coordinates := coordinates state in
    let current_index := current_index state in
    if (Z.of_nat (length coordinates) - 1 <=? Z.of_nat current_index)%Z
    then _finish_car car_id
    else
      current_point ← item coordinates current_index;
      next_point ← item coordinates (current_index + 1);
      car_data ← db_get_all_cars;
      match find_car car_id car_data with
      | None => del_state car_id
      | Some car =>
        let speed_kmh := car_get_speed car in
        speed_ms ← lift (speed_in_ms speed_kmh);
        interval ← get_update_interval;
        let distance_per_update := speed_ms * interval in
        segment_distance ← lift (_calculate_distance
                                   current_point.2 current_point.1
                                   next_point.2 next_point.1);
        '(new_position, heading) ←
          (if Rge_dec distance_per_update segment_distance then
             _ ← set_current_index car_id (current_index + 1);
             new_position ← item coordinates (current_index + 1);
             heading ←
               (if (Z.of_nat (current_index + 1) <? Z.of_nat (length coordinates) - 1)%Z
                then
                  next_coord ← item coordinates (current_index + 1 + 1);
                  mret (OSRMService.calculate_bearing
                          new_position.1 new_position.2
                          next_coord.1 next_coord.2)
                else
                  latest_pos ← db_get_car_latest_position car_id;
                  mret (match latest_pos with
                        | Some p => Database.heading p
                        | None => 0
                        end));
             mret (new_position, heading)
           else
             progress_ratio ←
               (if Rgt_dec segment_distance 0
                then lift (py_div distance_per_update segment_distance)
                else mret 0);
             let new_lng := current_point.1
                            + (next_point.1 - current_point.1) * progress_ratio in
             let new_lat := current_point.2
                            + (next_point.2 - current_point.2) * progress_ratio in
             let new_position := (new_lng, new_lat) in
             let heading := OSRMService.calculate_bearing
                              current_point.1 current_point.2
                              next_point.1 next_point.2 in
             _ ← set_coordinate car_id current_index new_position;
             mret (new_position, heading));
        (* [state["current_index"]] and [len(coordinates)], read after the
           branch above has written them *)
        state' ← get_state car_id;
        match state' with
        | None => raise KeyError
        | Some state' =>
          ratio ← lift (py_div (INR (Simulation.current_index state'))
                          (IZR (Z.of_nat (length (Simulation.coordinates state')) - 1)));
          let progress := ratio * 100 in
          _ ← set_progress car_id progress;
          db_insert_car_position
            {| Database.car_id := car_id;
               Database.lng := new_position.1;
               Database.lat := new_position.2;
               Database.heading := heading;
               Database.progress := progress |}
        end
      end
  end.

(** [SimulationEngine.update_all_cars].  [car_ids] is the snapshot
    [list(self.car_states.keys())]: the keys in the order of their insertion,
    which the finite map does not record.  An exception of one call is caught
    and the loop goes on. *)
Fixpoint update_all_cars (car_ids : list string) : M unit :=
  match car_ids with
  | [] => mret tt
  | car_id :: rest =>
      _ ← (fun w => match update_car_position car_id w with
                    | (Ok _, w') => (Ok tt, w')
                    | (Raise _, w') => (Ok tt, w')
                    end);
      update_all_cars rest
  end.

End Simulation.

(** ** [app/routes.py]: nearby cars *)

Module Routes.
Import PyMath.

(** [math.asin(x)]: a [ValueError] outside [[-1, 1]]. *)
Definition py_asin (x : R) : result R :=
  if Rlt_dec x (-1) then Raise ValueError
  else if Rlt_dec 1 x then Raise ValueError
  else Ok (asin x).

(** [round(x)] to the nearest integer, a tie going to the even one. *)
Definition round_half_even (y : R) : Z :=
  let f := Int_part y in
  let r := y - IZR f in
  if Rlt_dec r (1 / 2) then f
  else if Rlt_dec (1 / 2) r then (f + 1)%Z
  else if Z.even f then f else (f + 1)%Z.

(** [round(x, 2)]. *)
Definition round2 (x : R) : R := IZR (round_half_even (x * 100)) / 100.

(** [haversine_distance(lat1, lng1, lat2, lng2)], in kilometers. *)
Definition haversine_distance (lat1 lng1 lat2 lng2 : R) : result R :=
  let lat1 := radians lat1 in
  let lng1 := radians lng1 in
  let lat2 := radians lat2 in
  let lng2 := radians lng2 in
  let dlon := lng2 - lng1 in
  let dlat := lat2 - lat1 in
  let a := sin (dlat / 2) ^ 2 + cos lat1 * cos lat2 * sin (dlon / 2) ^ 2 in
  s ← py_sqrt a;
  h ← py_asin s;
  let c := 2 * h in
  let r := 6371 in
  Ok (c * r).

(** [class NearbyCar(BaseModel)]. *)
Record NearbyCar : Type := {
  car_id : string;
  lat : R;
  lng : R;
  heading : R;
  distance_km : R
}.

(** [list.sort(key=lambda x: x.distance_km)]: a stable sort, here by
    insertion; an element goes before the first one with a greater key. *)
Fixpoint insert_by_distance (c : NearbyCar) (l : list NearbyCar) : list NearbyCar :=
  match l with
  | [] => [c]
  | x :: rest =>
      if Rlt_dec (distance_km c) (distance_km x) then c :: x :: rest
      else x :: insert_by_distance c rest
  end.

Definition sort_by_distance (l : list NearbyCar) : list NearbyCar :=
  foldl (fun sorted c => insert_by_distance c sorted) [] l.

Section Handler.

(** [uuid.UUID(s)], as the validation of [NearbyCar.car_id] applies it to
    the identifier of a stored row: the identifier, or an exception for a
    string that is not one. *)
Variable parse_uuid : string -> result string.

(** The loop of [get_nearby_cars] over the positions. *)
Fixpoint within_radius (user_lat user_lng radius_km : R)
    (positions : list Database.PositionRow) : result (list NearbyCar) :=
  match positions with
  | [] => Ok []
  | pos :: rest =>
      dist ← haversine_distance user_lat user_lng
                (Database.lat pos) (Database.lng pos);
      entry ← (if Rle_dec dist radius_km
               then car_uuid ← parse_uuid (Database.car_id pos);
                    Ok [{| car_id := car_uuid;
                           lat := Database.lat pos;
                           lng := Database.lng pos;
                           heading := Database.heading pos;
                           distance_km := round2 dist |}]
               else Ok []);
      nearby_cars ← within_radius user_lat user_lng radius_km rest;
      Ok (entry ++ nearby_cars)
  end.

(** [get_nearby_cars(user_lat, user_lng, radius_km)]; an exception would
    become the response 500. *)
Definition get_nearby_cars (user_lat user_lng radius_km : R) (t : Database.Tables)
  : result (list NearbyCar) :=
  let positions := Database.get_latest_car_positions t in
  nearby_cars ← within_radius user_lat user_lng radius_km positions;
  Ok (sort_by_distance nearby_cars).

End Handler.

End Routes.

(** ** Vocabulary of the engine's properties *)

Module Engine.
Import Simulation.

(** The progress the engine assigns at index [i] of a path of [n] points. *)
Definition progress_at (i n : nat) : R :=
  INR i / IZR (Z.of_nat n - 1) * 100.

(** The states the engine produces: a path of at least two points, a
    cursor on it, and the progress that goes with the status. *)
Definition wf_state (s : CarState) : Prop :=
  (2 <= length (coordinates s))%nat
  /\ (current_index s <= length (coordinates s) - 1)%nat
  /\ match status s with
     | moving => progress s = progress_at (current_index s) (length (coordinates s))
     | finished => progress s = 100
     end.

Definition wf_world (w : World) : Prop :=
  forall car_id s, car_states w !! car_id = Some s -> wf_state s.

(** The store is shared with the request handlers: its tables may change
    between two calls of the engine. *)
Definition store_changed (t : Database.Tables) (w : World) : World :=
  {| update_interval := update_interval w;
     car_states := car_states w;
     db := t |}.

(** [simulation_engine.car_states.clear()], as the reset handler calls it. *)
Definition clear_all (w : World) : World :=
  {| update_interval := update_interval w;
     car_states := ∅;
     db := db w |}.

(** The worlds the program reaches from an empty registry. *)
Inductive reachable : World -> Prop :=
  | reachable_start interval t :
      reachable {| update_interval := interval; car_states := ∅; db := t |}
  | reachable_add_car w car_id path r w' :
      reachable w -> add_car car_id path w = (r, w') -> reachable w'
  | reachable_update w car_id r w' :
      reachable w -> update_car_position car_id w = (r, w') -> reachable w'
  | reachable_store w t :
      reachable w -> reachable (store_changed t w)
  | reachable_clear w :
      reachable w -> reachable (clear_all w).

(** A sequence of [update_car_position] calls, on any cars, with the store
    free to change in between. *)
Inductive ticks : World -> World -> Prop :=
  | ticks_done w : ticks w w
  | ticks_update w car_id r w1 w' :
      update_car_position car_id w = (r, w1) -> ticks w1 w' -> ticks w w'
  | ticks_store w t w' :
      ticks (store_changed t w) w' -> ticks w w'.

(** The heading of a sample emitted on arrival at the waypoint of index
    [i]: toward the next waypoint when there is one, else the heading of
    the newest stored sample of the car, else [0]. *)
Definition arrival_heading (car_id : string) (coordinates : list (R * R))
    (i : nat) (t : Database.Tables) : R :=
  match coordinates !! i, coordinates !! (i + 1)%nat with
  | Some p, Some q => OSRMService.calculate_bearing p.1 p.2 q.1 q.2
  | _, _ => match Database.get_car_latest_position car_id t with
            | Some p => Database.heading p
            | None => 0
            end
  end.

(** The distance a car covers in one update at [speed_kmh]. *)
Definition distance_per_update (speed_kmh : R) (w : World) : R :=
  speed_kmh / 3.6 * update_interval w.

(** The world after an update that changed the state of [car_id] to [s]
    and emitted [sample]. *)
Definition moved (car_id : string) (s : CarState) (sample : Database.PositionRow)
    (w : World) : World :=
  {| update_interval := update_interval w;
     car_states := <[car_id := s]> (car_states w);
     db := Database.insert_car_position sample (db w) |}.

(** The share of the segment covered in one update, and the point at
    that share of the way from [p] to [q]. *)
Definition progress_ratio (budget segment_distance : R) : R :=
  if Rgt_dec segment_distance 0 then budget / segment_distance else 0.

Definition interpolate (p q : R * R) (ratio : R) : R * R :=
  (p.1 + (q.1 - p.1) * ratio, p.2 + (q.2 - p.2) * ratio).

(** The world after [_finish_car] found the state [s] of [car_id]. *)
Definition finished_world (car_id : string) (s : CarState) (w : World) : World :=
  {| update_interval := update_interval w;
     car_states := <[car_id := {| coordinates := coordinates s;
                                  current_index := current_index s;
                                  progress := 100;
                                  status := finished |}]> (car_states w);
     db := Database.update_car_status car_id "finished" (db w) |}.

(** The world after the engine dropped [car_id]. *)
Definition dropped (car_id : string) (w : World) : World :=
  {| update_interval := update_interval w;
     car_states := delete car_id (car_states w);
     db := db w |}.

(** [n] successive calls of [update_car_position] on one car; as in
    [update_all_cars], an exception of a call is dropped. *)
Fixpoint tick_n (n : nat) (car_id : string) (w : World) : World :=
  match n with
  | O => w
  | S n' => tick_n n' car_id (update_car_position car_id w).2
  end.

Definition state_after (n : nat) (car_id : string) (w : World) : option CarState :=
  car_states (tick_n n car_id w) !! car_id.

(** The segment is cleared on the third call and not before, and the
    progress is then 100. *)
Definition clears_on_third_tick (car_id : string) (w : World) : Prop :=
  current_index <$> state_after 1 car_id w = Some 0%nat
  /\ current_index <$> state_after 2 car_id w = Some 0%nat
  /\ current_index <$> state_after 3 car_id w = Some 1%nat
  /\ progress <$> state_after 3 car_id w = Some 100.

(** One call, seen from any car: a state that is still registered is
    well formed, has lost no progress, and is unchanged once finished;
    no state appears. *)
Definition step_ok (before after : option CarState) : Prop :=
  match before, after with
  | Some st, Some st' =>
      wf_state st' /\ progress st <= progress st'
      /\ (status st = finished -> st' = st)
  | None, Some _ => False
  | _, None => True
  end.

(** The term of the haversine formula whose square root is taken. *)
Definition haversine_term (lat1 lng1 lat2 lng2 : R) : R :=
  sin (PyMath.radians (lat2 - lat1) / 2) ^ 2
  + cos (PyMath.radians lat1) * cos (PyMath.radians lat2)
    * sin (PyMath.radians (lng2 - lng1) / 2) ^ 2.

(** A segment whose two points lie between 89 degrees south and 89 degrees
    north and whose longitudes differ by at most 180 degrees. *)
Definition away_from_poles_and_antimeridian (p q : R * R) : Prop :=
  -89 <= p.2 <= 89 /\ -89 <= q.2 <= 89 /\ -180 <= q.1 - p.1 <= 180.

End Engine.

(** ** The distance of one update in binary64 *)

Module Binary64.

(** [(speed_kmh / 3.6) * self.update_interval] on the floats of the
    interpreter. *)
#[warnings="-inexact-float"]
Definition distance_per_update (speed_kmh update_interval : float) : float :=
  (speed_kmh / 3.6 * update_interval)%float.

End Binary64.

(** ** Scenarios *)

Module Scenario.
Import Simulation.

(** A car on a two-point path along the meridian of Greenwich, about
    eleven meters long. *)
Definition short_path : list (R * R) := [(0, 0); (0, 0.0001)].

Definition at_start (path : list (R * R)) : CarState :=
  {| coordinates := path; current_index := 0; progress := 0; status := moving |}.

Definition car_row (speed_kmh : Database.column) : Database.CarRow :=
  {| Database.id := "car-1"; Database.speed := speed_kmh;
     Database.status := "moving" |}.

(** One registered car, its row in the store, a tick of one second. *)
Definition one_car (path : list (R * R)) (speed_kmh : Database.column) : World :=
  {| update_interval := 1;
     car_states := {[ "car-1"%string := at_start path ]};
     db := {| Database.cars := [car_row speed_kmh];
              Database.car_positions := [] |} |}.

(** The same car after its route ended. *)
Definition arrived : World :=
  {| update_interval := 1;
     car_states := {[ "car-1"%string :=
                        {| coordinates := short_path; current_index := 1;
                           progress := 100; status := finished |} ]};
     db := {| Database.cars := [car_row (Database.Num 36)];
              Database.car_positions := [] |} |}.

(** Two points of the equator 25 meters apart, on either side of the
    antimeridian: [half_gap] is the longitude, in degrees, of an arc of
    12.5 meters. *)
Definition half_gap : R := PyMath.degrees (12.5 / R_earth).

Definition antimeridian_path : list (R * R) :=
  [(180 - half_gap, 0); (-180 + half_gap, 0)].

(** Two points of one meridian 25 meters apart. *)
Definition meridian_path : list (R * R) :=
  [(0, 0); (0, PyMath.degrees (25 / R_earth))].

End Scenario.

(** ** Vocabulary of the properties of runs, listings and the store *)

Module Runs.
Import Simulation Engine.

(** The state of a car after it arrived at its next waypoint, and after it
    moved its current waypoint to [p]. *)
Definition advanced (st : CarState) : CarState :=
  {| coordinates := coordinates st;
     current_index := current_index st + 1;
     progress := progress_at (current_index st + 1) (length (coordinates st));
     status := status st |}.

Definition shifted (st : CarState) (p : R * R) : CarState :=
  {| coordinates := <[current_index st := p]> (coordinates st);
     current_index := current_index st;
     progress := progress_at (current_index st) (length (coordinates st));
     status := status st |}.

(** The sample emitted with a position, a heading and a progress. *)
Definition sample_at (car_id : string) (p : R * R) (heading progress : R)
  : Database.PositionRow :=
  {| Database.car_id := car_id;
     Database.lng := p.1;
     Database.lat := p.2;
     Database.heading := heading;
     Database.progress := progress |}.

(** The newest stored sample of a registered car mirrors its state: it is
    at the waypoint under the cursor and carries the progress of the
    state. *)
Definition in_sync (car_id : string) (w : World) : Prop :=
  forall st, car_states w !! car_id = Some st ->
    exists p, Database.get_car_latest_position car_id (db w) = Some p
              /\ coordinates st !! current_index st
                 = Some (Database.lng p, Database.lat p)
              /\ Database.progress p = progress st.

(** A sample a client can draw: a compass heading and a percentage. *)
Definition valid_sample (p : Database.PositionRow) : Prop :=
  0 <= Database.heading p < 360 /\ 0 <= Database.progress p <= 100.

(** Every segment of the path is at most [budget] meters long. *)
Definition segments_within (budget : R) (path : list (R * R)) : Prop :=
  forall i p q d,
    path !! i = Some p -> path !! (i + 1)%nat = Some q ->
    _calculate_distance p.2 p.1 q.2 q.1 = Ok d -> d <= budget.

(** What one car reads of the world in [update_car_position] to compute
    its next state. *)
Definition same_view (car_id : string) (w1 w2 : World) : Prop :=
  car_states w1 !! car_id = car_states w2 !! car_id
  /\ update_interval w1 = update_interval w2
  /\ car_get_speed <$> find_car car_id (Database.cars (db w1))
     = car_get_speed <$> find_car car_id (Database.cars (db w2)).

(** The entry of the registry for a car after one call of
    [update_car_position] on it, from what the call reads: the interval,
    the speed of the car's row (no row, a row without a usable speed, or a
    speed) and the entry before the call. *)
Definition next_state (interval : R) (speed : option (option R))
    (state : option CarState) : option CarState :=
  match state with
  | None => None
  | Some st =>
      if decide (status st = finished) then Some st
      else if decide (length (coordinates st) <= current_index st + 1)%nat
      then Some {| coordinates := coordinates st;
                   current_index := current_index st;
                   progress := 100;
                   status := finished |}
      else match speed with
           | None => None
           | Some None => Some st
           | Some (Some v) =>
               match coordinates st !! current_index st,
                     coordinates st !! (current_index st + 1)%nat with
               | Some cur, Some nxt =>
                   match _calculate_distance cur.2 cur.1 nxt.2 nxt.1 with
                   | Ok d =>
                       if Rge_dec (v / 3.6 * interval) d then Some (advanced st)
                       else Some (shifted st
                                    (interpolate cur nxt
                                       (progress_ratio (v / 3.6 * interval) d)))
                   | Raise _ => Some st
                   end
               | _, _ => Some st
               end
           end
  end.

End Runs.

Module Store.
Import Database.

(** The first row of a car in a list of rows. *)
Definition first_of (c : string) (l : list PositionRow) : option PositionRow :=
  head (filter (fun p => car_id p = c) l).

(** One turn of the loop of [get_latest_car_positions]. *)
Definition dedupe_step (d : list (string * PositionRow)) (pos : PositionRow)
  : list (string * PositionRow) :=
  if decide (car_id pos ∈ d.*1) then d else d ++ [(car_id pos, pos)].

End Store.

Module Nearby.
Import Routes.

(** The entry of the answer of [get_nearby_cars] for a stored position
    whose identifier validates to [car_uuid], at the distance [d]. *)
Definition listing (car_uuid : string) (pos : Database.PositionRow) (d : R)
  : NearbyCar :=
  {| car_id := car_uuid;
     lat := Database.lat pos;
     lng := Database.lng pos;
     heading := Database.heading pos;
     distance_km := round2 d |}.

(** A stored position at the distance [d] from the user, within the
    radius. *)
Definition near (user_lat user_lng radius_km : R) (pos : Database.PositionRow)
    (d : R) : Prop :=
  haversine_distance user_lat user_lng (Database.lat pos) (Database.lng pos) = Ok d
  /\ d <= radius_km.

(** What an entry of the answer is to the row it comes from: it carries
    the validated identifier, the coordinates and the heading of the row,
    and the distance rounded to two decimals. *)
Definition entry_of (parse_uuid : string -> result string)
    (user_lat user_lng radius_km : R) (c : NearbyCar) (pos : Database.PositionRow)
  : Prop :=
  exists car_uuid d,
    parse_uuid (Database.car_id pos) = Ok car_uuid
    /\ near user_lat user_lng radius_km pos d
    /\ c = listing car_uuid pos d
    /\ Rabs (distance_km c - d) <= 1 / 200.

(** The order of the answer. *)
Definition by_distance (a b : NearbyCar) : Prop := distance_km a <= distance_km b.

End Nearby.

Module Cases.
Import Simulation.

(** An engine with no car, a tick of one second, and the row of ["car-1"]
    in the store. *)
Definition empty_world (speed_kmh : Database.column) : World :=
  {| update_interval := 1;
     car_states := ∅;
     db := {| Database.cars := [Scenario.car_row speed_kmh];
              Database.car_positions := [] |} |}.

(** The sample [add_car] emits for ["car-1"] on the short path. *)
Definition start_sample : Database.PositionRow :=
  {| Database.car_id := "car-1";
     Database.lng := 0;
     Database.lat := 0;
     Database.heading := OSRMService.calculate_bearing 0 0 0 0.0001;
     Database.progress := 0 |}.

(** The world after [add_car("car-1", short_path)]. *)
Definition spawned (speed_kmh : Database.column) : World :=
  {| update_interval := 1;
     car_states := {[ "car-1"%string := Scenario.at_start Scenario.short_path ]};
     db := {| Database.cars := [Scenario.car_row speed_kmh];
              Database.car_positions := [start_sample] |} |}.

(** The body of a reply of a route provider, and the route it decodes to. *)
Definition osrm_geometry : pyval :=
  PDict [("type"%string, PStr "LineString");
         ("coordinates"%string,
          PList [PList [PNum 0; PNum 0]; PList [PNum 0; PNum 0.0001]])].

Definition osrm_body : pyval :=
  PDict [("code"%string, PStr "Ok");
         ("routes"%string,
          PList [PDict [("geometry"%string, osrm_geometry);
                        ("distance"%string, PNum 11);
                        ("duration"%string, PNum 2)]])].




Definition osrm_route : Models.OSRMRoute :=
  {| Models.geometry := osrm_geometry;
     Models.distance := 11;
     Models.duration := 2;
     Models.coordinates := [[0; 0]; [0; 0.0001]] |}.

End Cases.

(** ** [app/routes.py]: the route from a car to the user *)

Module CarToUser.
Import Routing.

(** What a handler gives back: a body, or an [HTTPException] with its
    status code. *)
Inductive response (A : Type) : Type :=
  | Reply (a : A)
  | HTTPException (status_code : nat).
Arguments Reply {A} a.
Arguments HTTPException {A} status_code.

(** [class CarToUserRoute(BaseModel)]. *)
Record CarToUserRoute : Type := {
  car_id : string;
  user_lat : R;
  user_lng : R;
  coordinates : list (list R);
  distance : R;
  duration : R
}.

Section Handler.

(** [uuid.UUID(s)]: the identifier, or a [ValueError] for a string that
    is not one. *)
Variable parse_uuid : string -> result string.

(** The conversion the validation of [OSRMRoute] applies. *)
Variable lax_float : pyval -> option R.

(** [get_car_to_user_route(car_id, user_lat, user_lng)]: the 404 passes
    through, any other exception becomes the response 500. *)
Definition get_car_to_user_route (local_reply public_reply : http_reply)
    (car_id : string) (user_lat user_lng : R) (t : Database.Tables)
  : response CarToUserRoute :=
  match Database.get_car_latest_position car_id t with
  | None => HTTPException 404
  | Some position =>
      let car_lat := Database.lat position in
      let car_lng := Database.lng position in
      match
        route ← get_route lax_float local_reply public_reply
                  car_lng car_lat user_lng user_lat;
        car_uuid ← parse_uuid car_id;
        Ok {| car_id := car_uuid;
              user_lat := user_lat;
              user_lng := user_lng;
              coordinates := Models.coordinates route;
              distance := Models.distance route;
              duration := Models.duration route |}
      with
      | Ok body => Reply body
      | Raise _ => HTTPException 500
      end
  end.

End Handler.

End CarToUser.

(** * Properties *)

(** ** Facts about the [math] functions *)

Module PyMathFacts.
Import PyMath.

Lemma py_mod_range (x m : R) : 0 < m -> 0 <= py_mod x m < m.
Proof.
  intros Hm. unfold py_mod.
  destruct (base_Int_part (x / m)) as [Hlo Hhi].
  assert (Hx : x = m * (x / m)) by (field; lra).
  set (k := IZR (Int_part (x / m))) in *.
  split.
  - assert (m * k <= m * (x / m)) by (apply Rmult_le_compat_l; lra). lra.
  - assert (m * (x / m - 1) < m * k) by (apply Rmult_lt_compat_l; lra). lra.
Qed.

Lemma py_mod_shift (x m : R) (k : Z) :
  0 < m -> IZR k * m <= x < (IZR k + 1) * m -> py_mod x m = x - IZR k * m.
Proof.
  intros Hm [Hlo Hhi]. unfold py_mod.
  assert (Hk : k = Int_part (x / m)).
  { apply Int_part_spec. split.
    - apply Rmult_lt_reg_r with m; [lra|].
      replace ((x / m - 1) * m) with (x - m) by (field; lra). lra.
    - apply Rmult_le_reg_r with m; [lra|].
      replace (x / m * m) with x by (field; lra). lra. }
  rewrite <- Hk. ring.
Qed.

Lemma sin_half_sqr (x : R) : sin (x / 2) ^ 2 = (1 - cos x) / 2.
Proof.
  replace x with (2 * (x / 2)) at 2 by field.
  rewrite cos_2a_sin. field.
Qed.

(** The haversine term lies in [[0, 1]] for all latitudes and longitudes. *)
Lemma haversine_term_bounds (phi1 phi2 dl : R) :
  let a := sin ((phi2 - phi1) / 2) ^ 2
           + cos phi1 * cos phi2 * sin (dl / 2) ^ 2 in
  0 <= a <= 1.
Proof.
  intros a. subst a. rewrite !sin_half_sqr.
  pose proof (COS_bound dl) as Hdl.
  pose proof (COS_bound (phi2 - phi1)) as Hm.
  pose proof (COS_bound (phi2 + phi1)) as Hp.
  rewrite cos_minus in Hm. rewrite cos_plus in Hp.
  rewrite cos_minus.
  set (P := cos phi1 * cos phi2).
  set (Q := sin phi1 * sin phi2).
  replace (cos phi2 * cos phi1) with P in * by (unfold P; ring).
  replace (sin phi2 * sin phi1) with Q in * by (unfold Q; ring).
  set (u := (1 - cos dl) / 2).
  assert (Hu : 0 <= u <= 1) by (unfold u; lra).
  replace ((1 - (P + Q)) / 2 + P * u)
    with ((1 - u) * ((1 - (P + Q)) / 2) + u * ((1 + (P - Q)) / 2)) by field.
  split.
  - apply Rplus_le_le_0_compat; apply Rmult_le_pos; lra.
  - assert ((1 - u) * ((1 - (P + Q)) / 2) <= (1 - u) * 1)
      by (apply Rmult_le_compat_l; lra).
    assert (u * ((1 + (P - Q)) / 2) <= u * 1)
      by (apply Rmult_le_compat_l; lra).
    lra.
Qed.

Lemma atan_nonneg (z : R) : 0 <= z -> 0 <= atan z.
Proof.
  intros [Hz | <-]; [|rewrite atan_0; lra].
  left. rewrite <- atan_0. now apply atan_increasing.
Qed.

Lemma atan2_nonneg (y x : R) : 0 <= y -> 0 <= x -> 0 <= atan2 y x.
Proof.
  intros Hy Hx. unfold atan2. pose proof PI_RGT_0.
  destruct (Rlt_dec 0 x).
  - apply atan_nonneg. apply Rmult_le_pos; [lra|].
    left. now apply Rinv_0_lt_compat.
  - destruct (Rlt_dec x 0); [lra|].
    destruct (Rlt_dec 0 y); [lra|].
    destruct (Rlt_dec y 0); lra.
Qed.

End PyMathFacts.

(** ** Bearing *)

Module BearingFacts.
Import PyMath PyMathFacts OSRMService.

Lemma radians_0 : radians 0 = 0.
Proof. unfold radians. ring. Qed.

Lemma radians_1_bounds : 0 < radians 1 < PI.
Proof. unfold radians. pose proof PI_RGT_0. lra. Qed.

Lemma atan2_origin : atan2 0 0 = 0.
Proof.
  unfold atan2. repeat (destruct (Rlt_dec _ _); try lra).
Qed.

Lemma atan2_pos_axis (x : R) : 0 < x -> atan2 0 x = 0.
Proof.
  intros Hx. unfold atan2. destruct (Rlt_dec 0 x); [|lra].
  replace (0 / x) with 0 by (field; lra). apply atan_0.
Qed.

Lemma atan2_up_axis (y : R) : 0 < y -> atan2 y 0 = PI / 2.
Proof.
  intros Hy. unfold atan2.
  destruct (Rlt_dec 0 0); [lra|]. destruct (Rlt_dec 0 y); lra.
Qed.

Lemma degrees_0 : degrees 0 = 0.
Proof. unfold degrees. ring. Qed.

Lemma degrees_half_PI : degrees (PI / 2) = 90.
Proof. unfold degrees. pose proof PI_RGT_0. field. lra. Qed.

Lemma py_mod_360_360 : py_mod (0 + 360) 360 = 0.
Proof.
  rewrite (py_mod_shift _ _ 1); [ring | lra | split; lra].
Qed.

Lemma py_mod_450_360 : py_mod (90 + 360) 360 = 90.
Proof.
  rewrite (py_mod_shift _ _ 1); [ring | lra | split; lra].
Qed.

Lemma calculate_bearing_range (lng1 lat1 lng2 lat2 : R) :
  0 <= calculate_bearing lng1 lat1 lng2 lat2 < 360.
Proof. unfold calculate_bearing. apply py_mod_range. lra. Qed.

Lemma calculate_bearing_same_point (lng lat : R) :
  calculate_bearing lng lat lng lat = 0.
Proof.
  unfold calculate_bearing.
  replace (lng - lng) with 0 by ring.
  rewrite radians_0, sin_0, cos_0.
  replace (0 * cos (radians lat)) with 0 by ring.
  replace (cos (radians lat) * sin (radians lat)
           - sin (radians lat) * cos (radians lat) * 1) with 0 by ring.
  rewrite atan2_origin, degrees_0. apply py_mod_360_360.
Qed.

Lemma calculate_bearing_north : calculate_bearing 0 0 0 1 = 0.
Proof.
  unfold calculate_bearing.
  replace (0 - 0) with 0 by ring.
  rewrite radians_0, sin_0, cos_0.
  replace (1 * sin (radians 1) - 0 * cos (radians 1) * 1)
    with (sin (radians 1)) by ring.
  replace (0 * cos (radians 1)) with 0 by ring.
  rewrite atan2_pos_axis.
  - rewrite degrees_0. apply py_mod_360_360.
  - apply sin_gt_0; apply radians_1_bounds.
Qed.

Lemma calculate_bearing_east : calculate_bearing 0 0 1 0 = 90.
Proof.
  unfold calculate_bearing.
  replace (1 - 0) with 1 by ring.
  rewrite radians_0, sin_0, cos_0.
  replace (1 * 0 - 0 * 1 * cos (radians 1)) with 0 by ring.
  rewrite atan2_up_axis.
  - rewrite degrees_half_PI. apply py_mod_450_360.
  - rewrite Rmult_1_r. apply sin_gt_0; apply radians_1_bounds.
Qed.

(** C8. [calculate_bearing] returns a value in [[0, 360)] for every pair
    of coordinates; for two equal coordinates it returns [0]; the bearing
    from (0,0) to (0,1), in (lng, lat) order, is 0 degrees and the bearing
    from (0,0) to (1,0) is 90 degrees. *)
Theorem calculate_bearing_spec :
  (forall lng1 lat1 lng2 lat2 : R,
      0 <= calculate_bearing lng1 lat1 lng2 lat2 < 360)
  /\ (forall lng lat : R, calculate_bearing lng lat lng lat = 0)
  /\ calculate_bearing 0 0 0 1 = 0
  /\ calculate_bearing 0 0 1 0 = 90.
Proof.
  split; [exact calculate_bearing_range|].
  split; [exact calculate_bearing_same_point|].
  split; [exact calculate_bearing_north | exact calculate_bearing_east].
Qed.

End BearingFacts.

(** ** Route acquisition *)

Module RoutingFacts.
Import PyMath Models Routing.

Lemma py_sqrt_Ok (x : R) : 0 <= x -> py_sqrt x = Ok (sqrt x).
Proof. intros Hx. unfold py_sqrt. destruct (Rlt_dec x 0); [lra | reflexivity]. Qed.

Lemma sum_squares_nonneg (dx dy : R) : 0 <= dx * dx + dy * dy.
Proof. nra. Qed.

(** The fallback, computed: the square root is taken of a sum of squares. *)
Lemma straight_line_eq (start_lng start_lat end_lng end_lat : R) :
  exists r,
    straight_line start_lng start_lat end_lng end_lat = Ok r
    /\ coordinates r =
         map (fun i : nat =>
                [start_lng + (end_lng - start_lng) * (INR i / INR steps);
                 start_lat + (end_lat - start_lat) * (INR i / INR steps)])
             (seq 0 (steps + 1))
    /\ distance r =
         sqrt ((end_lng - start_lng) * 111.32 * cos (radians start_lat)
               * ((end_lng - start_lng) * 111.32 * cos (radians start_lat))
               + (end_lat - start_lat) * 110.57
                 * ((end_lat - start_lat) * 110.57)) * 1000
    /\ duration r = distance r / 10.
Proof.
  unfold straight_line. rewrite py_sqrt_Ok by apply sum_squares_nonneg.
  eexists. split; [reflexivity|]. cbn [coordinates distance duration].
  repeat split.
Qed.

Lemma get_route_third_tier (lax_float : pyval -> option R)
    (local_reply public_reply : http_reply)
    (start_lng start_lat end_lng end_lat : R) (e1 e2 : exn) :
  fetch_route lax_float local_reply = Raise e1 ->
  fetch_route lax_float public_reply = Raise e2 ->
  get_route lax_float local_reply public_reply start_lng start_lat end_lng end_lat
  = straight_line start_lng start_lat end_lng end_lat.
Proof. intros H1 H2. unfold get_route. now rewrite H1, H2. Qed.



Lemma is_code_Ok_inv (v : pyval) : is_code_Ok v = true -> v = PStr "Ok".
Proof.
  destruct v; try discriminate. cbn. intros H. apply String.eqb_eq in H. now subst.
Qed.




(** The failures the providers can show, each ending in the third tier. *)
Example network_failure (lax_float : pyval -> option R) :
  fetch_route lax_float RequestFailed = Raise HTTPError.
Proof. reflexivity. Qed.

Example server_error (lax_float : pyval -> option R) :
  fetch_route lax_float (Response 503 None) = Raise HTTPError.
Proof. reflexivity. Qed.

Example undecodable_body (lax_float : pyval -> option R) :
  fetch_route lax_float (Response 200 None) = Raise ValueError.
Proof. reflexivity. Qed.

Example no_route_found (lax_float : pyval -> option R) :
  fetch_route lax_float
    (Response 200 (Some (PDict [("code"%string, PStr "NoRoute")])))
  = Raise Exception.
Proof. reflexivity. Qed.

Example empty_route_list (lax_float : pyval -> option R) :
  fetch_route lax_float
    (Response 200 (Some (PDict [("code"%string, PStr "Ok");
                                ("routes"%string, PList [])])))
  = Raise IndexError.
Proof. reflexivity. Qed.

Example missing_route_list (lax_float : pyval -> option R) :
  fetch_route lax_float
    (Response 200 (Some (PDict [("code"%string, PStr "Ok")])))
  = Raise KeyError.
Proof. reflexivity. Qed.

(** C6. When both providers fail, the route has exactly 11 coordinates,
    the i-th being [start + (i/10) * (end - start)] componentwise, so the
    first is [start] and the last is [end]; its distance is the
    equirectangular estimate in meters and its duration is that distance
    divided by 10. *)
Theorem get_route_straight_line (lax_float : pyval -> option R)
    (local_reply public_reply : http_reply)
    (start_lng start_lat end_lng end_lat : R) (e1 e2 : exn) :
  fetch_route lax_float local_reply = Raise e1 ->
  fetch_route lax_float public_reply = Raise e2 ->
  exists r,
    get_route lax_float local_reply public_reply
      start_lng start_lat end_lng end_lat = Ok r
    /\ length (coordinates r) = 11%nat
    /\ (forall i : nat, (i <= 10)%nat ->
          coordinates r !! i
          = Some [start_lng + (INR i / 10) * (end_lng - start_lng);
                  start_lat + (INR i / 10) * (end_lat - start_lat)])
    /\ coordinates r !! 0%nat = Some [start_lng; start_lat]
    /\ coordinates r !! 10%nat = Some [end_lng; end_lat]
    /\ distance r =
         sqrt (((end_lng - start_lng) * 111.32 * cos (radians start_lat)) ^ 2
               + ((end_lat - start_lat) * 110.57) ^ 2) * 1000
    /\ duration r = distance r / 10.
Proof.
  intros H1 H2.
  rewrite (get_route_third_tier _ _ _ _ _ _ _ _ _ H1 H2).
  destruct (straight_line_eq start_lng start_lat end_lng end_lat)
    as (r & Hr & Hc & Hd & Ht).
  exists r. split; [exact Hr|].
  assert (Hi : forall i : nat, (i <= 10)%nat ->
            coordinates r !! i
            = Some [start_lng + (INR i / 10) * (end_lng - start_lng);
                    start_lat + (INR i / 10) * (end_lat - start_lat)]).
  { intros i Hi. rewrite Hc, list_lookup_fmap.
    rewrite lookup_seq_lt by (unfold steps; lia). cbn.
    do 2 f_equal; [|f_equal]; field. }
  split; [now rewrite Hc|]. split; [exact Hi|].
  split; [|split; [|split]].
  - rewrite (Hi 0%nat) by lia. cbn. do 2 f_equal; [|f_equal]; field.
  - rewrite (Hi 10%nat) by lia. cbn. do 2 f_equal; [|f_equal]; field.
  - rewrite Hd. do 2 f_equal. ring.
  - exact Ht.
Qed.

(** The theorem at a route across Casablanca with both providers down. *)
Lemma get_route_straight_line_witness :
  exists r,
    get_route (fun _ => None) RequestFailed (Response 503 None)
      (-7.94762) 33.39123 (-7.62379) 33.55292 = Ok r
    /\ length (coordinates r) = 11%nat
    /\ coordinates r !! 0%nat = Some [-7.94762; 33.39123]
    /\ coordinates r !! 10%nat = Some [-7.62379; 33.55292].
Proof.
  destruct (get_route_straight_line (fun _ => None) RequestFailed (Response 503 None)
              (-7.94762) 33.39123 (-7.62379) 33.55292 HTTPError HTTPError
              eq_refl eq_refl)
    as (r & Hr & Hlen & _ & H0 & H10 & _).
  exists r. repeat split; assumption.
Defined.

End RoutingFacts.

(** ** Great-circle distance *)

Module GeodesyFacts.
Import PyMath PyMathFacts Simulation Engine.

(** The haversine formula never leaves the domain of the square root. *)
Lemma _calculate_distance_Ok (lat1 lng1 lat2 lng2 : R) :
  exists d, _calculate_distance lat1 lng1 lat2 lng2 = Ok d /\ 0 <= d.
Proof.
  unfold _calculate_distance.
  pose proof (haversine_term_bounds (radians lat1) (radians lat2)
                (radians (lng2 - lng1))) as Ha.
  cbv zeta in Ha.
  replace (radians (lat2 - lat1)) with (radians lat2 - radians lat1)
    by (unfold radians; ring).
  set (a := _ + _) in *.
  unfold py_sqrt.
  destruct (Rlt_dec a 0); [lra|].
  destruct (Rlt_dec (1 - a) 0); [lra|].
  cbn. eexists. split; [reflexivity|].
  unfold R_earth.
  pose proof (atan2_nonneg (sqrt a) (sqrt (1 - a)) (sqrt_pos _) (sqrt_pos _)).
  nra.
Qed.

(** *** Meridians *)

Lemma atan2_sin_cos (x : R) :
  0 <= x < PI / 2 -> atan2 (sin x) (cos x) = x.
Proof.
  intros [Hx0 Hx1]. unfold atan2.
  assert (Hc : 0 < cos x) by (apply cos_gt_0; lra).
  destruct (Rlt_dec 0 (cos x)); [|lra].
  change (sin x / cos x) with (tan x). apply atan_tan. lra.
Qed.

Lemma haversine_angle (x : R) :
  - (PI / 2) < x < PI / 2 ->
  atan2 (sqrt (sin x ^ 2)) (sqrt (1 - sin x ^ 2)) = Rabs x.
Proof.
  intros Hx.
  assert (Hc : 0 < cos x) by (apply cos_gt_0; lra).
  replace (1 - sin x ^ 2) with (Rsqr (cos x)).
  2:{ pose proof (sin2_cos2 x) as H. unfold Rsqr in *. lra. }
  replace (sin x ^ 2) with (Rsqr (sin x)) by (unfold Rsqr; ring).
  rewrite !sqrt_Rsqr_abs. rewrite (Rabs_pos_eq (cos x)) by lra.
  destruct (Rle_dec 0 x) as [Hpos|Hneg].
  - rewrite (Rabs_pos_eq x) by lra.
    rewrite Rabs_pos_eq by (apply sin_ge_0; pose proof PI_RGT_0; lra).
    apply atan2_sin_cos. lra.
  - rewrite (Rabs_left x) by lra.
    rewrite Rabs_left.
    2:{ apply sin_lt_0_var; pose proof PI_RGT_0; lra. }
    rewrite <- sin_neg, <- (cos_neg x). apply atan2_sin_cos. lra.
Qed.

(** Along a meridian the haversine distance is the arc of the latitude
    difference. *)
Lemma distance_meridian (lat1 lat2 lng : R) :
  -180 < lat2 - lat1 < 180 ->
  _calculate_distance lat1 lng lat2 lng
  = Ok (R_earth * Rabs (radians (lat2 - lat1))).
Proof.
  intros Hlat. unfold _calculate_distance.
  replace (lng - lng) with 0 by ring.
  replace (radians 0 / 2) with 0 by (unfold radians; field).
  rewrite sin_0.
  set (D := radians (lat2 - lat1)).
  replace (sin (D / 2) ^ 2 + cos (radians lat1) * cos (radians lat2) * 0 ^ 2)
    with (sin (D / 2) ^ 2) by ring.
  assert (HD : - (PI / 2) < D / 2 < PI / 2).
  { unfold D, radians. pose proof PI_RGT_0. split; nra. }
  pose proof (COS_bound D) as Hcos.
  assert (Ha : 0 <= sin (D / 2) ^ 2 <= 1).
  { rewrite sin_half_sqr. lra. }
  unfold py_sqrt.
  destruct (Rlt_dec (sin (D / 2) ^ 2) 0); [lra|].
  destruct (Rlt_dec (1 - sin (D / 2) ^ 2) 0); [lra|].
  cbn [mbind result_bind]. rewrite haversine_angle by exact HD.
  f_equal. f_equal.
  replace D with (2 * (D / 2)) at 2 by field.
  rewrite Rabs_mult, (Rabs_pos_eq 2) by lra. reflexivity.
Qed.

Lemma radians_degrees (x : R) : radians (degrees x) = x.
Proof. unfold radians, degrees. pose proof PI_RGT_0. field. lra. Qed.

Lemma meridian_path_distance :
  _calculate_distance 0 0 (degrees (25 / R_earth)) 0 = Ok 25.
Proof.
  assert (Hb : 0 < degrees (25 / R_earth) < 180).
  { unfold degrees, R_earth. pose proof PI2_3_2. pose proof PI_RGT_0.
    split.
    - apply Rmult_lt_0_compat; [lra|]. apply Rdiv_lt_0_compat; lra.
    - apply Rmult_lt_reg_r with PI; [lra|].
      replace (25 / 6371000 * (180 / PI) * PI) with (25 / 6371000 * 180) by (field; lra).
      lra. }
  rewrite distance_meridian by lra.
  f_equal. rewrite Rminus_0_r, radians_degrees.
  unfold R_earth. rewrite Rabs_pos_eq by lra. field.
Qed.

(** *** The antimeridian *)

Lemma atan_ge_quarter (z : R) : 1 <= z -> PI / 4 <= atan z.
Proof.
  intros [Hz | <-]; [|rewrite atan_1; lra].
  left. rewrite <- atan_1. now apply atan_increasing.
Qed.

Lemma atan2_ge_quarter (u v : R) : 0 < u -> 0 <= v <= u -> PI / 4 <= atan2 u v.
Proof.
  intros Hu [Hv0 Hvu]. unfold atan2. pose proof PI_RGT_0.
  destruct (Rlt_dec 0 v) as [Hv|Hv].
  - apply atan_ge_quarter.
    apply Rmult_le_reg_r with v; [lra|].
    replace (u / v * v) with u by (field; lra). lra.
  - destruct (Rlt_dec v 0); [lra|].
    destruct (Rlt_dec 0 u); lra.
Qed.

(** Two points of the equator whose longitudes differ by 90 to 270
    degrees are at least a quarter of a great circle apart. *)
Lemma equator_far (lat1 lng1 lat2 lng2 : R) :
  lat1 = 0 -> lat2 = 0 ->
  90 <= Rabs (lng2 - lng1) <= 270 ->
  exists d, _calculate_distance lat1 lng1 lat2 lng2 = Ok d
            /\ R_earth * (PI / 2) <= d.
Proof.
  intros -> -> HL. unfold _calculate_distance.
  replace (0 - 0) with 0 by ring.
  replace (radians 0 / 2) with 0 by (unfold radians; field).
  replace (radians 0) with 0 by (unfold radians; ring).
  rewrite sin_0, cos_0, sin_half_sqr.
  set (L := radians (lng2 - lng1)).
  assert (Hcos : cos L <= 0).
  { assert (HR : PI / 2 <= Rabs L <= 3 * (PI / 2)).
    { unfold L, radians. pose proof PI_RGT_0.
      rewrite Rabs_mult, (Rabs_pos_eq (PI / 180)) by lra. split; nra. }
    unfold Rabs in HR. destruct (Rcase_abs L).
    - rewrite <- cos_neg. apply cos_le_0; lra.
    - apply cos_le_0; lra. }
  pose proof (COS_bound L) as Hb.
  set (a := 0 ^ 2 + 1 * 1 * ((1 - cos L) / 2)).
  assert (Ha : 1 / 2 <= a <= 1) by (unfold a; lra).
  unfold py_sqrt.
  destruct (Rlt_dec a 0); [lra|].
  destruct (Rlt_dec (1 - a) 0); [lra|].
  cbn [mbind result_bind]. eexists. split; [reflexivity|].
  assert (Hq : PI / 4 <= atan2 (sqrt a) (sqrt (1 - a))).
  { apply atan2_ge_quarter.
    - apply sqrt_lt_R0. lra.
    - split; [apply sqrt_pos|]. apply sqrt_le_1_alt. lra. }
  unfold R_earth. nra.
Qed.

Lemma half_gap_radians : radians Scenario.half_gap = 12.5 / R_earth.
Proof. apply radians_degrees. Qed.

Lemma half_gap_bounds : 0 < Scenario.half_gap < 1.
Proof.
  unfold Scenario.half_gap, degrees, R_earth.
  pose proof PI2_3_2. pose proof PI_RGT_0. split.
  - apply Rmult_lt_0_compat; [lra|]. apply Rdiv_lt_0_compat; lra.
  - apply Rmult_lt_reg_r with PI; [lra|].
    replace (12.5 / 6371000 * (180 / PI) * PI) with (12.5 / 6371000 * 180)
      by (field; lra).
    lra.
Qed.

Lemma antimeridian_path_distance :
  _calculate_distance 0 (180 - Scenario.half_gap) 0 (-180 + Scenario.half_gap)
  = Ok 25.
Proof.
  unfold _calculate_distance.
  replace (0 - 0) with 0 by ring.
  replace (radians 0 / 2) with 0 by (unfold radians; field).
  replace (radians 0) with 0 by (unfold radians; ring).
  rewrite sin_0, cos_0.
  set (e := 12.5 / R_earth).
  replace (radians (-180 + Scenario.half_gap - (180 - Scenario.half_gap)) / 2)
    with (- (PI - e)).
  2:{ unfold e. rewrite <- half_gap_radians. unfold radians. pose proof PI_RGT_0. field. }
  rewrite sin_neg, sin_PI_x.
  replace (0 ^ 2 + 1 * 1 * (- sin e) ^ 2) with (sin e ^ 2) by ring.
  assert (He : 0 < e < PI / 2).
  { unfold e, R_earth. pose proof PI2_3_2. lra. }
  pose proof (haversine_term_bounds 0 0 (2 * e)) as Ha. cbv zeta in Ha.
  replace ((0 - 0) / 2) with 0 in Ha by field.
  replace (2 * e / 2) with e in Ha by field.
  rewrite sin_0, cos_0 in Ha.
  replace (0 ^ 2 + 1 * 1 * sin e ^ 2) with (sin e ^ 2) in Ha by ring.
  unfold py_sqrt.
  destruct (Rlt_dec (sin e ^ 2) 0); [lra|].
  destruct (Rlt_dec (1 - sin e ^ 2) 0); [lra|].
  cbn [mbind result_bind]. rewrite haversine_angle by lra.
  rewrite Rabs_pos_eq by lra. apply f_equal. unfold e, R_earth. lra.
Qed.

(** *** Short segments away from the poles *)

Lemma sin_cubic_lb (x : R) : 0 <= x <= PI -> x - x ^ 3 / 6 <= sin x.
Proof.
  intros [H0 H1]. destruct (sin_bound x 0 H0 H1) as [H _].
  unfold sin_approx, sin_term in H. cbn in H. lra.
Qed.

Lemma sin_le_x (x : R) : 0 <= x -> sin x <= x.
Proof.
  intros [H | <-]; [left; now apply sin_lt_x | rewrite sin_0; lra].
Qed.

(** For a small angle the sine is the angle up to one part in a thousand. *)
Lemma sin_small (x : R) : 0 <= x <= 0.05 -> 0.999 * x <= sin x <= x.
Proof.
  intros [H0 H1]. split; [|now apply sin_le_x].
  pose proof PI2_3_2.
  pose proof (sin_cubic_lb x ltac:(lra)).
  assert (x ^ 3 <= 0.0025 * x).
  { replace (x ^ 3) with (x * x * x) by ring. nra. }
  lra.
Qed.

Lemma sin_sqr_small (x : R) :
  Rabs x <= 0.05 -> 0.998 * x ^ 2 <= sin x ^ 2 <= x ^ 2.
Proof.
  intros Hx. unfold Rabs in Hx. destruct (Rcase_abs x) as [Hneg|Hpos].
  - pose proof (sin_small (- x) ltac:(lra)) as [Hl Hu].
    rewrite sin_neg in Hl, Hu. split; nra.
  - pose proof (sin_small x ltac:(lra)) as [Hl Hu]. split; nra.
Qed.

(** An angle of at most a right angle whose sine is small is small. *)
Lemma small_of_sin_small (x t : R) :
  Rabs x <= PI / 2 -> sin x ^ 2 <= t ^ 2 -> 0 <= t <= 0.04 ->
  Rabs x <= 1.002 * t.
Proof.
  intros Hx Hs Ht.
  assert (Hkey : forall y, 0 <= y <= PI / 2 -> sin y ^ 2 <= t ^ 2 -> y <= 1.002 * t).
  { intros y [Hy0 Hy1] Hsy.
    assert (Hsy0 : 0 <= sin y) by (apply sin_ge_0; pose proof PI_RGT_0; lra).
    assert (Hst : sin y <= t) by nra.
    destruct (Rle_dec y 0.05) as [Hsmall|Hbig].
    - pose proof (sin_small y ltac:(lra)). lra.
    - exfalso. apply Rnot_le_lt in Hbig.
      assert (sin 0.05 < sin y).
      { apply sin_increasing_1; pose proof PI2_3_2; lra. }
      pose proof (sin_small 0.05 ltac:(lra)). lra. }
  unfold Rabs in *. destruct (Rcase_abs x).
  - apply Hkey; [lra|]. rewrite sin_neg. 
    replace ((- sin x) ^ 2) with (sin x ^ 2) by ring. exact Hs.
  - apply Hkey; [lra | exact Hs].
Qed.

Lemma Rabs_sin_le (x : R) : Rabs (sin x) <= Rabs x.
Proof.
  assert (Hpos : forall y, 0 <= y -> Rabs (sin y) <= y).
  { intros y Hy. destruct (Rle_dec y 1) as [H1|H1].
    - rewrite Rabs_pos_eq; [now apply sin_le_x|].
      apply sin_ge_0; pose proof PI2_3_2; lra.
    - pose proof (SIN_bound y). unfold Rabs. destruct (Rcase_abs (sin y)); lra. }
  unfold Rabs at 2. destruct (Rcase_abs x).
  - rewrite <- Rabs_Ropp, <- sin_neg. apply Hpos. lra.
  - apply Hpos. lra.
Qed.

Lemma cos_lipschitz (x y : R) : Rabs (cos x - cos y) <= Rabs (x - y).
Proof.
  rewrite form2.
  replace (-2 * sin ((x - y) / 2) * sin ((x + y) / 2))
    with (- (2 * sin ((x - y) / 2) * sin ((x + y) / 2))) by ring.
  rewrite Rabs_Ropp, !Rabs_mult, (Rabs_pos_eq 2) by lra.
  pose proof (Rabs_sin_le ((x - y) / 2)) as H1.
  pose proof (SIN_bound ((x + y) / 2)) as H2.
  assert (H3 : Rabs (sin ((x + y) / 2)) <= 1).
  { unfold Rabs. destruct (Rcase_abs _); lra. }
  assert (H4 : Rabs ((x - y) / 2) = Rabs (x - y) / 2).
  { unfold Rdiv. rewrite Rabs_mult, (Rabs_pos_eq (/ 2)) by lra. reflexivity. }
  pose proof (Rabs_pos (sin ((x - y) / 2))).
  pose proof (Rabs_pos (sin ((x + y) / 2))).
  rewrite H4 in H1. nra.
Qed.

(** Away from the poles the cosine of the latitude is at least 0.016. *)
Lemma cos_away_from_pole (lat : R) :
  -89 <= lat <= 89 -> 0.016 <= cos (radians lat).
Proof.
  intros Hlat. pose proof PI_RGT_0. pose proof PI2_3_2.
  assert (Hb : cos (radians 89) <= cos (radians lat)).
  { destruct (Rle_dec 0 lat).
    - destruct (Req_dec_T lat 89) as [->|]; [lra|].
      left. apply cos_decreasing_1; unfold radians; try nra.
    - rewrite <- (cos_neg (radians lat)).
      destruct (Req_dec_T (- lat) 89) as [E|].
      + replace (- radians lat) with (radians 89) by (unfold radians; nra). lra.
      + left. apply cos_decreasing_1; unfold radians; try nra. }
  assert (Hs : cos (radians 89) = sin (radians 1)).
  { rewrite <- cos_shift. f_equal. unfold radians. field. }
  pose proof (sin_small (radians 1)) as Hsm.
  assert (0 <= radians 1 <= 0.05).
  { unfold radians. pose proof PI_4. lra. }
  assert (0.0166 < radians 1) by (unfold radians; lra).
  lra.
Qed.

Lemma haversine_term_range (lat1 lng1 lat2 lng2 : R) :
  0 <= haversine_term lat1 lng1 lat2 lng2 <= 1.
Proof.
  unfold haversine_term.
  pose proof (haversine_term_bounds (radians lat1) (radians lat2)
                (radians (lng2 - lng1))) as Ha.
  cbv zeta in Ha.
  replace (radians (lat2 - lat1)) with (radians lat2 - radians lat1)
    by (unfold radians; ring).
  exact Ha.
Qed.

Lemma atan2_sqrt_asin (a : R) :
  0 <= a <= 1 -> atan2 (sqrt a) (sqrt (1 - a)) = asin (sqrt a).
Proof.
  intros [H0 H1]. destruct (Req_dec_T a 1) as [->|Hne].
  - replace (1 - 1) with 0 by ring. rewrite sqrt_0, sqrt_1, asin_1.
    unfold atan2. destruct (Rlt_dec 0 0); [lra|]. destruct (Rlt_dec 0 1); lra.
  - assert (Hlt : a < 1) by lra.
    assert (Hs : 0 < sqrt (1 - a)) by (apply sqrt_lt_R0; lra).
    assert (Hs1 : sqrt a < 1).
    { rewrite <- sqrt_1. apply sqrt_lt_1_alt. lra. }
    pose proof (sqrt_pos a).
    unfold atan2. destruct (Rlt_dec 0 (sqrt (1 - a))); [|lra].
    rewrite asin_atan by lra. rewrite Rsqr_sqrt by lra. reflexivity.
Qed.

(** The haversine distance in closed form. *)
Lemma distance_asin (lat1 lng1 lat2 lng2 : R) :
  _calculate_distance lat1 lng1 lat2 lng2
  = Ok (R_earth * (2 * asin (sqrt (haversine_term lat1 lng1 lat2 lng2)))).
Proof.
  pose proof (haversine_term_range lat1 lng1 lat2 lng2) as Ha.
  unfold _calculate_distance. fold (haversine_term lat1 lng1 lat2 lng2).
  set (a := haversine_term lat1 lng1 lat2 lng2) in *.
  unfold py_sqrt.
  destruct (Rlt_dec a 0); [lra|].
  destruct (Rlt_dec (1 - a) 0); [lra|].
  cbn [mbind result_bind]. now rewrite atan2_sqrt_asin.
Qed.

Lemma asin_nonneg (y : R) : 0 <= y <= 1 -> 0 <= asin y.
Proof.
  intros Hy. pose proof (asin_bound y) as [Hlo Hhi].
  destruct (Rle_dec 0 (asin y)) as [|Hneg]; [assumption|].
  exfalso. apply Rnot_le_lt in Hneg.
  assert (sin (asin y) < 0).
  { apply sin_lt_0_var; pose proof PI_RGT_0; lra. }
  rewrite sin_asin in * by lra. lra.
Qed.

Lemma asin_ge_arg (y : R) : 0 <= y <= 1 -> y <= asin y.
Proof.
  intros Hy. pose proof (asin_nonneg y Hy).
  rewrite <- (sin_asin y) at 1 by lra. now apply sin_le_x.
Qed.

Lemma asin_le_of_sin (y z : R) :
  0 <= y -> 0 <= z <= PI / 2 -> y <= sin z -> asin y <= z.
Proof.
  intros Hy Hz Hyz.
  pose proof (SIN_bound z).
  pose proof (asin_bound y) as [Hlo Hhi].
  destruct (Rle_dec (asin y) z) as [|Hgt]; [assumption|].
  exfalso. apply Rnot_le_lt in Hgt.
  assert (sin z < sin (asin y)).
  { apply sin_increasing_1; lra. }
  rewrite sin_asin in * by lra. lra.
Qed.

(** Two squares compare as their nonnegative roots. *)
Lemma le_of_sqr_le (x y : R) : 0 <= x -> 0 <= y -> x * x <= y * y -> x <= y.
Proof. intros. nra. Qed.

(** On a short path away from the poles and the antimeridian, the point at
    the share [1 - s] of the way is at the share [s] of the distance from
    the end, within ten percent. *)
Lemma interpolation_band (p q : R * R) (d s : R) :
  away_from_poles_and_antimeridian p q ->
  _calculate_distance p.2 p.1 q.2 q.1 = Ok d ->
  d <= 30 ->
  0 <= s <= 1 ->
  exists d',
    _calculate_distance (interpolate p q (1 - s)).2 (interpolate p q (1 - s)).1 q.2 q.1
    = Ok d'
    /\ 0.9 * s * d <= d' <= 1.1 * s * d.
Proof.
  intros (Hp & Hq & Hlng) Hd Hd30 Hs.
  rewrite distance_asin in Hd. injection Hd as Hd.
  rewrite distance_asin. eexists. split; [reflexivity|].
  unfold interpolate. cbn [fst snd].
  pose proof PI_RGT_0 as Hpi0. pose proof PI2_3_2 as Hpi3. pose proof PI_4 as Hpi4.
  (* the angles *)
  set (u := radians (q.2 - p.2) / 2).
  set (v := radians (q.1 - p.1) / 2).
  set (c1 := cos (radians p.2)).
  set (c2 := cos (radians q.2)).
  set (c' := cos (radians (p.2 + (q.2 - p.2) * (1 - s)))).
  assert (HA0 : haversine_term p.2 p.1 q.2 q.1 = sin u ^ 2 + c1 * c2 * sin v ^ 2)
    by reflexivity.
  assert (HAs : haversine_term (p.2 + (q.2 - p.2) * (1 - s))
                  (p.1 + (q.1 - p.1) * (1 - s)) q.2 q.1
                = sin (u * s) ^ 2 + c' * c2 * sin (v * s) ^ 2).
  { unfold haversine_term, u, v, c', c2, radians. repeat f_equal; field. }
  pose proof (haversine_term_range p.2 p.1 q.2 q.1) as HA0r.
  pose proof (haversine_term_range (p.2 + (q.2 - p.2) * (1 - s))
                (p.1 + (q.1 - p.1) * (1 - s)) q.2 q.1) as HAsr.
  rewrite HAs in *. rewrite HA0 in *.
  set (A0 := sin u ^ 2 + c1 * c2 * sin v ^ 2) in *.
  set (As := sin (u * s) ^ 2 + c' * c2 * sin (v * s) ^ 2) in *.
  (* the angle of the whole path *)
  set (tau := sqrt A0) in *.
  set (theta := asin tau) in *.
  assert (Htau : 0 <= tau <= 1).
  { split; [apply sqrt_pos|]. rewrite <- sqrt_1. apply sqrt_le_1_alt. lra. }
  assert (Htau2 : tau * tau = A0) by (apply sqrt_sqrt; lra).
  assert (Hth0 : 0 <= theta) by now apply asin_nonneg.
  assert (Hth : theta <= 0.0000024).
  { unfold R_earth in Hd. lra. }
  assert (Hsin : sin theta = tau) by (apply sin_asin; lra).
  pose proof (sin_small theta ltac:(lra)) as Hsm. rewrite Hsin in Hsm.
  (* the cosines of the latitudes *)
  pose proof (cos_away_from_pole p.2 Hp) as Hc1. fold c1 in Hc1.
  pose proof (cos_away_from_pole q.2 Hq) as Hc2. fold c2 in Hc2.
  (* the two half differences are small *)
  assert (Hsu : sin u ^ 2 <= tau ^ 2).
  { assert (0 <= c1 * c2 * sin v ^ 2).
    { apply Rmult_le_pos; [nra|]. apply pow2_ge_0. }
    unfold A0 in Htau2. nra. }
  assert (Hu : Rabs u <= 1.002 * tau).
  { apply small_of_sin_small; [|exact Hsu|lra].
    unfold u, radians. unfold Rabs. destruct (Rcase_abs _); nra. }
  assert (Hsv : sin v ^ 2 <= (62.5 * tau) ^ 2).
  { assert (0 <= sin u ^ 2) by apply pow2_ge_0.
    assert (0 <= sin v ^ 2) by apply pow2_ge_0.
    assert (Hcc : 0.000256 <= c1 * c2) by nra.
    assert (c1 * c2 * sin v ^ 2 <= tau * tau) by (unfold A0 in Htau2; nra).
    nra. }
  assert (Hv : Rabs v <= 1.002 * (62.5 * tau)).
  { apply small_of_sin_small; [|exact Hsv|lra].
    unfold v, radians. unfold Rabs. destruct (Rcase_abs _); nra. }
  (* the cosine at the interpolated latitude *)
  assert (Hc' : 0.999 * c1 <= c' <= 1.001 * c1).
  { pose proof (cos_lipschitz (radians (p.2 + (q.2 - p.2) * (1 - s))) (radians p.2)) as HL.
    fold c' c1 in HL.
    replace (radians (p.2 + (q.2 - p.2) * (1 - s)) - radians p.2)
      with (2 * u * (1 - s)) in HL by (unfold u, radians; field).
    rewrite !Rabs_mult, (Rabs_pos_eq 2), (Rabs_pos_eq (1 - s)) in HL by lra.
    assert (Rabs (c' - c1) <= 0.000005).
    { pose proof (Rabs_pos u). nra. }
    unfold Rabs in H. destruct (Rcase_abs (c' - c1)); lra. }
  (* sines of the scaled angles *)
  assert (Hus : Rabs (u * s) <= 0.05).
  { rewrite Rabs_mult, (Rabs_pos_eq s) by lra. pose proof (Rabs_pos u). nra. }
  assert (Hvs : Rabs (v * s) <= 0.05).
  { rewrite Rabs_mult, (Rabs_pos_eq s) by lra. pose proof (Rabs_pos v). nra. }
  pose proof (sin_sqr_small u ltac:(lra)) as Su.
  pose proof (sin_sqr_small v ltac:(lra)) as Sv.
  pose proof (sin_sqr_small (u * s) Hus) as Sus.
  pose proof (sin_sqr_small (v * s) Hvs) as Svs.
  set (X := sin u ^ 2) in *. set (Y := sin v ^ 2) in *.
  set (Xs := sin (u * s) ^ 2) in *. set (Ys := sin (v * s) ^ 2) in *.
  assert (HX : 0 <= X) by apply pow2_ge_0.
  assert (HY : 0 <= Y) by apply pow2_ge_0.
  assert (HXs : 0.998 * (s * s) * X <= Xs <= 1.003 * (s * s) * X).
  { replace ((u * s) ^ 2) with (s * s * u ^ 2) in Sus by ring.
    assert (0 <= s * s) by nra. split; nra. }
  assert (HYs : 0.998 * (s * s) * Y <= Ys <= 1.003 * (s * s) * Y).
  { replace ((v * s) ^ 2) with (s * s * v ^ 2) in Svs by ring.
    assert (0 <= s * s) by nra. split; nra. }
  assert (Hband : 0.99 * (s * s) * A0 <= As <= 1.01 * (s * s) * A0).
  { unfold As, A0. fold X Y Xs Ys.
    assert (Hss : 0 <= s * s) by nra.
    assert (Hcc : 0 <= c1 * c2) by nra.
    assert (Hc'c : 0.999 * (c1 * c2) <= c' * c2 <= 1.001 * (c1 * c2)) by nra.
    assert (HYs0 : 0 <= Ys) by apply pow2_ge_0.
    assert (HssY : 0 <= s * s * Y) by nra.
    assert (H1 : c' * c2 * Ys <= 1.001 * (c1 * c2) * (1.003 * (s * s) * Y)).
    { apply Rmult_le_compat; nra. }
    assert (H2 : 0.999 * (c1 * c2) * (0.998 * (s * s) * Y) <= c' * c2 * Ys).
    { apply Rmult_le_compat; nra. }
    assert (H3 : 0 <= c1 * c2 * (s * s * Y)) by nra.
    split; nra. }
  (* from the haversine term to the distance *)
  set (y := sqrt As).
  assert (Hy : 0 <= y <= 1).
  { split; [apply sqrt_pos|]. rewrite <- sqrt_1. apply sqrt_le_1_alt. lra. }
  assert (Hy2 : y * y = As) by (apply sqrt_sqrt; lra).
  assert (Hylo : 0.99 * s * tau <= y).
  { apply le_of_sqr_le; [nra | lra | nra]. }
  assert (Hyhi : y <= 1.006 * s * tau).
  { apply le_of_sqr_le; [lra | nra | nra]. }
  rewrite <- Hd. unfold R_earth.
  assert (Hlo : 0.9 * s * theta <= asin y).
  { pose proof (asin_ge_arg y Hy). nra. }
  assert (Hhi : asin y <= 1.1 * s * theta).
  { apply asin_le_of_sin; [lra | nra |].
    pose proof (sin_small (1.1 * s * theta) ltac:(nra)). nra. }
  split; nra.
Qed.

Lemma interpolate_twice (p q : R * R) (a b : R) :
  interpolate (interpolate p q a) q b = interpolate p q (a + (1 - a) * b).
Proof. unfold interpolate. cbn [fst snd]. f_equal; ring. Qed.

End GeodesyFacts.

(** ** The movement engine, case by case *)

Module SimulationFacts.
Import PyMath PyMathFacts Simulation Engine GeodesyFacts.

Lemma alter_lookup_Some (f : CarState -> CarState) (m : gmap string CarState)
    (k : string) (s : CarState) :
  m !! k = Some s -> alter f k m = <[k := f s]> m.
Proof.
  intros H. apply map_eq. intros j.
  destruct (decide (k = j)) as [<-|Hne].
  - rewrite lookup_alter_eq, lookup_insert_eq, H. reflexivity.
  - rewrite lookup_alter_ne, lookup_insert_ne by done. reflexivity.
Qed.

Lemma path_divisor_nonzero (n i : nat) :
  (i + 1 < n)%nat -> IZR (Z.of_nat n - 1) <> 0.
Proof. intros Hi E. apply eq_IZR in E. lia. Qed.

(** Entering [update_car_position] with a moving car that has a segment
    ahead: the guards are passed and both waypoints are read. *)
Ltac enter_update Hst Hmov :=
  unfold update_car_position;
  unfold mbind at 1; unfold M_bind at 1; unfold get_state at 1;
  rewrite Hst, Hmov;
  destruct (decide (moving = finished)) as [?|_]; [discriminate|];
  match goal with
  | |- context [Z.leb ?a ?b] => destruct (Z.leb_spec a b); [lia|]
  end.

Ltac read_waypoints Hcur Hnxt :=
  unfold item; rewrite Hcur, Hnxt;
  unfold mbind, M_bind, mret, M_ret, db_get_all_cars, Database.get_all_cars.

(** The end of [update_car_position]: progress is computed from the
    state, stored, and the sample is inserted. *)
Ltac commit_update Hst Hmov :=
  unfold get_state; cbn [car_states];
  rewrite lookup_alter_eq, Hst; cbn [fmap option_fmap option_map];
  cbn [current_index coordinates]; rewrite ?length_insert;
  unfold py_div;
  destruct (Req_dec_T _ 0) as [E|_]; [contradiction|];
  unfold set_progress, with_car_states, db_insert_car_position, with_db;
  cbn [fst snd car_states db update_interval];
  unfold moved; f_equal; f_equal;
  rewrite (alter_lookup_Some _ _ _ _ Hst);
  erewrite alter_lookup_Some by apply lookup_insert_eq;
  rewrite insert_insert_eq; cbn [coordinates current_index progress status];
  rewrite ?Hmov; reflexivity.

Lemma update_unknown (cid : string) (w : World) :
  car_states w !! cid = None -> update_car_position cid w = (Ok tt, w).
Proof.
  intros H. unfold update_car_position, get_state.
  unfold mbind, M_bind. rewrite H. reflexivity.
Qed.

Lemma update_finished (cid : string) (w : World) (st : CarState) :
  car_states w !! cid = Some st -> status st = finished ->
  update_car_position cid w = (Ok tt, w).
Proof.
  intros Hst Hfin. unfold update_car_position.
  unfold mbind, M_bind, get_state. rewrite Hst, Hfin.
  destruct (decide (finished = finished)); [reflexivity | congruence].
Qed.

Lemma update_at_end (cid : string) (w : World) (st : CarState) :
  car_states w !! cid = Some st -> status st = moving ->
  (length (coordinates st) <= current_index st + 1)%nat ->
  update_car_position cid w = (Ok tt, finished_world cid st w).
Proof.
  intros Hst Hmov Hend. unfold update_car_position.
  unfold mbind at 1. unfold M_bind at 1. unfold get_state at 1.
  rewrite Hst, Hmov.
  destruct (decide (moving = finished)) as [?|_]; [discriminate|].
  destruct (Z.leb_spec (Z.of_nat (length (coordinates st)) - 1)
                       (Z.of_nat (current_index st))); [|lia].
  unfold _finish_car, mbind, M_bind, get_state. rewrite Hst.
  unfold set_status, set_progress, with_car_states, db_update_car_status, with_db.
  cbn [car_states db update_interval].
  unfold finished_world. f_equal. f_equal.
  rewrite (alter_lookup_Some _ _ _ _ Hst).
  erewrite alter_lookup_Some by apply lookup_insert_eq.
  rewrite insert_insert_eq. reflexivity.
Qed.

Lemma update_car_deleted (cid : string) (w : World) (st : CarState) :
  car_states w !! cid = Some st -> status st = moving ->
  (current_index st + 1 < length (coordinates st))%nat ->
  find_car cid (Database.cars (db w)) = None ->
  update_car_position cid w = (Ok tt, dropped cid w).
Proof.
  intros Hst Hmov Hidx Hcar. enter_update Hst Hmov.
  destruct (lookup_lt_is_Some_2 (coordinates st) (current_index st))
    as [cur Hcur]; [lia|].
  destruct (lookup_lt_is_Some_2 (coordinates st) (current_index st + 1))
    as [nxt Hnxt]; [lia|].
  read_waypoints Hcur Hnxt.
  rewrite Hcar. unfold del_state. rewrite Hst. reflexivity.
Qed.

Lemma update_speed_null (cid : string) (w : World) (st : CarState)
    (car : Database.CarRow) :
  car_states w !! cid = Some st -> status st = moving ->
  (current_index st + 1 < length (coordinates st))%nat ->
  find_car cid (Database.cars (db w)) = Some car ->
  car_get_speed car = None ->
  update_car_position cid w = (Raise TypeError, w).
Proof.
  intros Hst Hmov Hidx Hcar Hv. enter_update Hst Hmov.
  destruct (lookup_lt_is_Some_2 (coordinates st) (current_index st))
    as [cur Hcur]; [lia|].
  destruct (lookup_lt_is_Some_2 (coordinates st) (current_index st + 1))
    as [nxt Hnxt]; [lia|].
  read_waypoints Hcur Hnxt.
  rewrite Hcar. unfold lift. rewrite Hv. reflexivity.
Qed.

Lemma update_reach (cid : string) (w : World) (st : CarState)
    (cur nxt : R * R) (car : Database.CarRow) (v d : R) :
  car_states w !! cid = Some st ->
  status st = moving ->
  (current_index st + 1 < length (coordinates st))%nat ->
  coordinates st !! current_index st = Some cur ->
  coordinates st !! (current_index st + 1)%nat = Some nxt ->
  find_car cid (Database.cars (db w)) = Some car ->
  car_get_speed car = Some v ->
  _calculate_distance cur.2 cur.1 nxt.2 nxt.1 = Ok d ->
  distance_per_update v w >= d ->
  update_car_position cid w =
  (Ok tt,
   moved cid
     {| coordinates := coordinates st;
        current_index := current_index st + 1;
        progress := progress_at (current_index st + 1) (length (coordinates st));
        status := status st |}
     {| Database.car_id := cid;
        Database.lng := nxt.1;
        Database.lat := nxt.2;
        Database.heading :=
          arrival_heading cid (coordinates st) (current_index st + 1) (db w);
        Database.progress :=
          progress_at (current_index st + 1) (length (coordinates st)) |}
     w).
Proof.
  intros Hst Hmov Hidx Hcur Hnxt Hcar Hv Hd Hge.
  enter_update Hst Hmov. read_waypoints Hcur Hnxt.
  rewrite Hcar. unfold lift. rewrite Hv. cbn [speed_in_ms].
  unfold get_update_interval. rewrite Hd.
  unfold distance_per_update in Hge.
  destruct (Rge_dec (v / 3.6 * update_interval w) d) as [_|Hn]; [|contradiction].
  unfold set_current_index, with_car_states. cbn [car_states update_interval db].
  pose proof (path_divisor_nonzero _ _ Hidx) as Hdiv.
  unfold arrival_heading. rewrite Hnxt.
  destruct (Z.ltb_spec (Z.of_nat (current_index st + 1))
                       (Z.of_nat (length (coordinates st)) - 1)).
  - destruct (lookup_lt_is_Some_2 (coordinates st) (current_index st + 1 + 1))
      as [nc Hnc]; [lia|].
    rewrite Hnc. commit_update Hst Hmov.
  - rewrite (lookup_ge_None_2 (coordinates st) (current_index st + 1 + 1)) by lia.
    unfold db_get_car_latest_position. cbn [db].
    commit_update Hst Hmov.
Qed.

Lemma update_interpolate (cid : string) (w : World) (st : CarState)
    (cur nxt : R * R) (car : Database.CarRow) (v d : R) :
  car_states w !! cid = Some st ->
  status st = moving ->
  (current_index st + 1 < length (coordinates st))%nat ->
  coordinates st !! current_index st = Some cur ->
  coordinates st !! (current_index st + 1)%nat = Some nxt ->
  find_car cid (Database.cars (db w)) = Some car ->
  car_get_speed car = Some v ->
  _calculate_distance cur.2 cur.1 nxt.2 nxt.1 = Ok d ->
  distance_per_update v w < d ->
  let new_position :=
    interpolate cur nxt (progress_ratio (distance_per_update v w) d) in
  update_car_position cid w =
  (Ok tt,
   moved cid
     {| coordinates := <[current_index st := new_position]> (coordinates st);
        current_index := current_index st;
        progress := progress_at (current_index st) (length (coordinates st));
        status := status st |}
     {| Database.car_id := cid;
        Database.lng := new_position.1;
        Database.lat := new_position.2;
        Database.heading := OSRMService.calculate_bearing cur.1 cur.2 nxt.1 nxt.2;
        Database.progress :=
          progress_at (current_index st) (length (coordinates st)) |}
     w).
Proof.
  intros Hst Hmov Hidx Hcur Hnxt Hcar Hv Hd Hlt new_position.
  enter_update Hst Hmov. read_waypoints Hcur Hnxt.
  rewrite Hcar. unfold lift. rewrite Hv. cbn [speed_in_ms].
  unfold get_update_interval. rewrite Hd.
  unfold distance_per_update in *.
  destruct (Rge_dec (v / 3.6 * update_interval w) d) as [Hn|_]; [lra|].
  pose proof (path_divisor_nonzero _ _ Hidx) as Hdiv.
  subst new_position. unfold progress_ratio, interpolate.
  destruct (Rgt_dec d 0) as [Hpos|Hnpos].
  - unfold py_div at 1. destruct (Req_dec_T d 0) as [E|_]; [lra|].
    unfold set_coordinate, with_car_states.
    cbn [car_states update_interval db fst snd].
    commit_update Hst Hmov.
  - unfold set_coordinate, with_car_states.
    cbn [car_states update_interval db fst snd].
    commit_update Hst Hmov.
Qed.

(** *** Progress and the invariant of the registry *)

Lemma path_divisor_pos (n : nat) : (2 <= n)%nat -> 0 < IZR (Z.of_nat n - 1).
Proof. intros Hn. apply IZR_lt. lia. Qed.

Lemma progress_at_mono (i j n : nat) :
  (2 <= n)%nat -> (i <= j)%nat -> progress_at i n <= progress_at j n.
Proof.
  intros Hn Hij. unfold progress_at.
  pose proof (path_divisor_pos n Hn) as Hpos.
  apply le_INR in Hij.
  apply Rmult_le_compat_r; [lra|].
  apply Rmult_le_compat_r; [|exact Hij].
  left. now apply Rinv_0_lt_compat.
Qed.

Lemma progress_at_last (n : nat) : (2 <= n)%nat -> progress_at (n - 1) n = 100.
Proof.
  intros Hn. unfold progress_at.
  pose proof (path_divisor_pos n Hn) as Hpos.
  rewrite INR_IZR_INZ. replace (Z.of_nat (n - 1)) with (Z.of_nat n - 1)%Z by lia.
  field. lra.
Qed.

Lemma progress_at_first (n : nat) : progress_at 0 n = 0.
Proof. unfold progress_at. cbn. lra. Qed.

Lemma progress_at_bounds (i n : nat) :
  (2 <= n)%nat -> (i <= n - 1)%nat -> 0 <= progress_at i n <= 100.
Proof.
  intros Hn Hi. split.
  - rewrite <- (progress_at_first n). apply progress_at_mono; lia.
  - rewrite <- (progress_at_last n Hn). apply progress_at_mono; lia.
Qed.

Lemma wf_state_progress_bounds (s : CarState) :
  wf_state s -> 0 <= progress s <= 100.
Proof.
  intros (Hn & Hi & Hp). destruct (status s).
  - rewrite Hp. now apply progress_at_bounds.
  - rewrite Hp. lra.
Qed.

(** What one call of [update_car_position] does to the world. *)
Lemma update_outcome (cid : string) (w : World) (r : result unit) (w' : World) :
  wf_world w ->
  update_car_position cid w = (r, w') ->
  w' = w
  \/ exists st,
       car_states w !! cid = Some st /\ status st = moving
       /\ (w' = dropped cid w
           \/ w' = finished_world cid st w
           \/ exists st' sample,
                w' = moved cid st' sample w
                /\ wf_state st' /\ status st' = moving
                /\ progress st <= progress st').
Proof.
  intros Hwf Hrun.
  destruct (car_states w !! cid) as [st|] eqn:Hst.
  2:{ rewrite update_unknown in Hrun by assumption. left. congruence. }
  destruct (status st) eqn:Hstatus.
  2:{ rewrite (update_finished _ _ _ Hst Hstatus) in Hrun. left. congruence. }
  destruct (Hwf _ _ Hst) as (Hn & Hi & Hp). rewrite Hstatus in Hp.
  destruct (Nat.le_gt_cases (length (coordinates st)) (current_index st + 1))
    as [Hend|Hidx].
  { rewrite (update_at_end _ _ _ Hst Hstatus Hend) in Hrun.
    right. exists st. split; [reflexivity|]. split; [assumption|]. right. left. congruence. }
  destruct (find_car cid (Database.cars (db w))) as [car|] eqn:Hcar.
  2:{ rewrite (update_car_deleted _ _ _ Hst Hstatus Hidx Hcar) in Hrun.
      right. exists st. split; [reflexivity|]. split; [assumption|]. left. congruence. }
  destruct (car_get_speed car) as [v|] eqn:Hv.
  2:{ rewrite (update_speed_null _ _ _ _ Hst Hstatus Hidx Hcar Hv) in Hrun.
      left. congruence. }
  destruct (lookup_lt_is_Some_2 (coordinates st) (current_index st))
    as [cur Hcur]; [lia|].
  destruct (lookup_lt_is_Some_2 (coordinates st) (current_index st + 1))
    as [nxt Hnxt]; [lia|].
  destruct (_calculate_distance_Ok cur.2 cur.1 nxt.2 nxt.1) as (d & Hd & _).
  right. exists st. split; [reflexivity|]. split; [assumption|]. right. right.
  destruct (Rge_dec (distance_per_update v w) d) as [Hge|Hlt].
  - rewrite (update_reach _ _ _ _ _ _ _ _ Hst Hstatus Hidx Hcur Hnxt Hcar Hv Hd Hge)
      in Hrun.
    injection Hrun as _ <-.
    eexists _, _. split; [reflexivity|].
    rewrite Hstatus. cbn [progress status].
    split; [|split; [reflexivity|]].
    + repeat split; cbn [coordinates current_index status progress];
        first [lia | reflexivity].
    + rewrite Hp. apply progress_at_mono; lia.
  - apply Rnot_ge_lt in Hlt.
    pose proof (update_interpolate _ _ _ _ _ _ _ _ Hst Hstatus Hidx Hcur Hnxt Hcar Hv Hd Hlt) as E.
    cbv zeta in E. rewrite E in Hrun.
    injection Hrun as _ <-.
    eexists _, _. split; [reflexivity|].
    rewrite Hstatus. cbn [progress status].
    split; [|split; [reflexivity|]].
    + repeat split; cbn [coordinates current_index status progress];
        rewrite ?length_insert; first [lia | reflexivity].
    + rewrite Hp. lra.
Qed.

Lemma step_ok_refl (w : World) (k : string) :
  wf_world w -> step_ok (car_states w !! k) (car_states w !! k).
Proof.
  intros Hwf. unfold step_ok. destruct (car_states w !! k) as [st|] eqn:E; [|exact I].
  split; [now apply (Hwf k)|]. split; [lra | reflexivity].
Qed.

Lemma update_step (cid : string) (w : World) (r : result unit) (w' : World) :
  wf_world w ->
  update_car_position cid w = (r, w') ->
  forall k, step_ok (car_states w !! k) (car_states w' !! k).
Proof.
  intros Hwf Hrun k.
  destruct (update_outcome cid w r w' Hwf Hrun)
    as [-> | (st & Hst & Hmov & [-> | [-> | (st' & sample & -> & Hwf' & Hmov' & Hle)]])].
  - now apply step_ok_refl.
  - cbn [dropped car_states]. destruct (decide (cid = k)) as [<-|Hne].
    + rewrite lookup_delete_eq. unfold step_ok. now destruct (car_states w !! cid).
    + rewrite lookup_delete_ne by done. now apply step_ok_refl.
  - cbn [finished_world car_states]. destruct (decide (cid = k)) as [<-|Hne].
    + rewrite lookup_insert_eq, Hst. unfold step_ok.
      destruct (Hwf _ _ Hst) as (Hn & Hi & Hp).
      split; [|split].
      * repeat split; cbn [coordinates current_index status progress]; assumption || reflexivity.
      * cbn [progress]. apply (wf_state_progress_bounds st). now apply (Hwf cid).
      * rewrite Hmov. discriminate.
    + rewrite lookup_insert_ne by done. now apply step_ok_refl.
  - cbn [moved car_states]. destruct (decide (cid = k)) as [<-|Hne].
    + rewrite lookup_insert_eq, Hst. unfold step_ok.
      split; [assumption|]. split; [assumption|].
      rewrite Hmov. discriminate.
    + rewrite lookup_insert_ne by done. now apply step_ok_refl.
Qed.

Lemma step_ok_wf (w w' : World) :
  (forall k, step_ok (car_states w !! k) (car_states w' !! k)) -> wf_world w'.
Proof.
  intros H k st' Hst'. specialize (H k). rewrite Hst' in H.
  unfold step_ok in H. destruct (car_states w !! k); [apply H | contradiction].
Qed.

Lemma update_preserves_wf (cid : string) (w : World) (r : result unit) (w' : World) :
  wf_world w -> update_car_position cid w = (r, w') -> wf_world w'.
Proof. intros Hwf Hrun. eapply step_ok_wf, update_step; eassumption. Qed.

Lemma add_car_preserves_wf (cid : string) (path : list (R * R)) (w : World)
    (r : result unit) (w' : World) :
  wf_world w -> add_car cid path w = (r, w') -> wf_world w'.
Proof.
  intros Hwf Hrun. unfold add_car in Hrun.
  destruct (Nat.ltb_spec (length path) 2) as [Hlt|Hge].
  { injection Hrun as _ <-. exact Hwf. }
  destruct path as [|p0 rest]; [cbn in Hge; lia|].
  cbn in Hrun. injection Hrun as _ <-.
  intros k s Hs. cbn [car_states] in Hs.
  destruct (decide (cid = k)) as [<-|Hne].
  - rewrite lookup_insert_eq in Hs. injection Hs as <-.
    repeat split; cbn [coordinates current_index status progress]; try lia.
    symmetry. apply progress_at_first.
  - rewrite lookup_insert_ne in Hs by done. now apply (Hwf k).
Qed.

Lemma reachable_wf (w : World) : reachable w -> wf_world w.
Proof.
  induction 1 as [interval t | w cid path r w' _ IH Hrun | w cid r w' _ IH Hrun
                  | w t _ IH | w _ IH].
  - intros k s Hs. cbn in Hs. now rewrite lookup_empty in Hs.
  - eapply add_car_preserves_wf; eassumption.
  - eapply update_preserves_wf; eassumption.
  - exact IH.
  - intros k s Hs. cbn in Hs. now rewrite lookup_empty in Hs.
Qed.

Lemma step_ok_trans (a b c : option CarState) :
  step_ok a b -> step_ok b c -> step_ok a c.
Proof.
  unfold step_ok. destruct a as [sa|], b as [sb|], c as [sc|]; try tauto.
  intros (Hwb & Hab & Hfb) (Hwc & Hbc & Hfc).
  split; [assumption|]. split; [lra|].
  intros Hfin. specialize (Hfb Hfin). subst sb. now apply Hfc.
Qed.

Lemma ticks_step (w w' : World) :
  ticks w w' -> wf_world w ->
  forall k, step_ok (car_states w !! k) (car_states w' !! k).
Proof.
  induction 1 as [w | w cid r w1 w' Hrun _ IH | w t w' _ IH]; intros Hwf k.
  - now apply step_ok_refl.
  - eapply step_ok_trans.
    + eapply update_step; eassumption.
    + apply IH. eapply update_preserves_wf; eassumption.
  - apply (IH Hwf k).
Qed.

(** *** Two-point paths *)

(** A car at the start of a two-point path: one call either moves the
    first point toward the second or arrives at the second. *)
Lemma two_point_tick (cid : string) (w : World) (p q : R * R) (pr : R)
    (car : Database.CarRow) (v d : R) :
  car_states w !! cid
  = Some {| coordinates := [p; q]; current_index := 0;
            progress := pr; status := moving |} ->
  find_car cid (Database.cars (db w)) = Some car ->
  car_get_speed car = Some v ->
  _calculate_distance p.2 p.1 q.2 q.1 = Ok d ->
  let budget := distance_per_update v w in
  (budget < d ->
   exists sample,
     update_car_position cid w
     = (Ok tt,
        moved cid {| coordinates := [interpolate p q (progress_ratio budget d); q];
                     current_index := 0;
                     progress := 0; status := moving |} sample w))
  /\ (budget >= d ->
      exists sample,
        update_car_position cid w
        = (Ok tt,
           moved cid {| coordinates := [p; q]; current_index := 1;
                        progress := 100; status := moving |} sample w)).
Proof.
  intros Hst Hcar Hv Hd budget. split; intros Hb.
  - pose proof (update_interpolate cid w _ p q car v d Hst eq_refl
                  ltac:(cbn; lia) eq_refl eq_refl Hcar Hv Hd Hb) as E.
    cbv zeta in E. cbn [coordinates current_index status length] in E.
    rewrite progress_at_first in E.
    eexists. exact E.
  - pose proof (update_reach cid w _ p q car v d Hst eq_refl
                  ltac:(cbn; lia) eq_refl eq_refl Hcar Hv Hd Hb) as E.
    cbn [coordinates current_index status length] in E.
    change (0 + 1)%nat with (2 - 1)%nat in E.
    rewrite progress_at_last in E by lia.
    eexists. exact E.
Qed.

Lemma progress_ratio_pos (b d : R) : 0 < d -> progress_ratio b d = b / d.
Proof. intros Hd. unfold progress_ratio. destruct (Rgt_dec d 0); [reflexivity | lra]. Qed.

Lemma moved_lookup (cid : string) (s : CarState) (sample : Database.PositionRow)
    (w : World) :
  car_states (moved cid s sample w) !! cid = Some s.
Proof. apply lookup_insert_eq. Qed.

(** On the equator, at speed 36 km/h and one call per second, a car that
    is 100 to 270 degrees of longitude from its waypoint stays so. *)
Lemma equator_tick_far (cid : string) (w : World) (p q : R * R)
    (car : Database.CarRow) :
  update_interval w = 1 ->
  car_states w !! cid
  = Some {| coordinates := [p; q]; current_index := 0;
            progress := 0; status := moving |} ->
  find_car cid (Database.cars (db w)) = Some car ->
  car_get_speed car = Some 36 ->
  p.2 = 0 -> q.2 = 0 ->
  100 <= Rabs (q.1 - p.1) <= 270 ->
  exists p' sample,
    update_car_position cid w
    = (Ok tt, moved cid {| coordinates := [p'; q]; current_index := 0;
                           progress := 0; status := moving |} sample w)
    /\ p'.2 = 0
    /\ 0.9 * Rabs (q.1 - p.1) <= Rabs (q.1 - p'.1) <= Rabs (q.1 - p.1).
Proof.
  intros Hint Hst Hcar Hv Hp Hq HL.
  destruct (equator_far p.2 p.1 q.2 q.1 Hp Hq ltac:(lra)) as (d & Hd & Hfar).
  assert (Hd100 : 100 < d).
  { unfold R_earth in Hfar. pose proof PI2_3_2. lra. }
  destruct (two_point_tick cid w p q 0 car 36 d Hst Hcar Hv Hd) as [H1 _].
  assert (Hb : distance_per_update 36 w = 10).
  { unfold distance_per_update. rewrite Hint. lra. }
  rewrite Hb in H1. destruct H1 as (sample & E); [lra|].
  rewrite progress_ratio_pos in E by lra.
  exists (interpolate p q (10 / d)), sample. split; [exact E|].
  unfold interpolate. cbn [fst snd].
  assert (Hr : 0 < 10 / d < 0.1).
  { split.
    - apply Rdiv_lt_0_compat; lra.
    - apply Rmult_lt_reg_r with d; [lra|].
      replace (10 / d * d) with 10 by (field; lra). lra. }
  split; [rewrite Hp, Hq; ring|].
  replace (q.1 - (p.1 + (q.1 - p.1) * (10 / d)))
    with ((q.1 - p.1) * (1 - 10 / d)) by ring.
  rewrite Rabs_mult, (Rabs_pos_eq (1 - 10 / d)) by lra.
  pose proof (Rabs_pos (q.1 - p.1)). split; nra.
Qed.

(** The scenario with one car is a world the program reaches. *)
Lemma one_car_reachable (path : list (R * R)) (speed_kmh : Database.column) :
  (2 <= length path)%nat -> reachable (Scenario.one_car path speed_kmh).
Proof.
  intros Hlen.
  set (w0 := {| update_interval := 1; car_states := ∅;
                db := {| Database.cars := []; Database.car_positions := [] |} |}).
  destruct (add_car "car-1" path w0) as [r w1] eqn:Hadd.
  assert (Hw1 : car_states w1 = {[ "car-1"%string := Scenario.at_start path ]}
                /\ update_interval w1 = 1).
  { unfold add_car in Hadd.
    destruct (Nat.ltb_spec (length path) 2); [lia|].
    destruct path as [|p0 rest]; [cbn in Hlen; lia|].
    cbn in Hadd. injection Hadd as _ <-. split; reflexivity. }
  destruct Hw1 as [Hcs Hint].
  replace (Scenario.one_car path speed_kmh)
    with (store_changed {| Database.cars := [Scenario.car_row speed_kmh];
                           Database.car_positions := [] |} w1).
  - apply reachable_store. eapply reachable_add_car; [|exact Hadd].
    apply reachable_start.
  - unfold store_changed, Scenario.one_car. now rewrite Hcs, Hint.
Qed.

End SimulationFacts.


(** ** The specified behaviour of the movement engine *)

Module EngineProperties.
Import PyMath PyMathFacts Simulation Engine SimulationFacts GeodesyFacts.

(** The short path of the scenarios is between 10 and 20 meters long. *)
Lemma short_path_distance :
  _calculate_distance 0 0 0.0001 0 = Ok (R_earth * Rabs (radians (0.0001 - 0))).
Proof. apply distance_meridian. lra. Qed.

Lemma short_path_length_bounds :
  10 < R_earth * Rabs (radians (0.0001 - 0)) < 20.
Proof.
  unfold R_earth, radians. pose proof PI_4. pose proof PI2_3_2.
  rewrite Rabs_pos_eq by (pose proof PI_RGT_0; nra). lra.
Qed.

(** C4. [update_car_position] on an identifier that is not in the registry,
    or on a car whose status is [finished], is a no-op: the world after the
    call is the world before it, so no sample is emitted, no entry of the
    registry is added or removed, and the state of the car (path, index,
    progress, status) is unchanged. *)
Theorem update_car_position_noop (cid : string) (w : World) :
  car_states w !! cid = None
  \/ (exists st, car_states w !! cid = Some st /\ status st = finished) ->
  update_car_position cid w = (Ok tt, w).
Proof.
  intros [Hnone | (st & Hst & Hfin)].
  - now apply update_unknown.
  - now apply update_finished with st.
Qed.

Lemma update_car_position_noop_witness :
  update_car_position "car-1" Scenario.arrived = (Ok tt, Scenario.arrived)
  /\ update_car_position "car-2" Scenario.arrived = (Ok tt, Scenario.arrived).
Proof.
  split.
  - apply update_car_position_noop. right. eexists. split.
    + apply lookup_singleton_eq.
    + reflexivity.
  - apply update_car_position_noop. left.
    apply lookup_singleton_ne. discriminate.
Defined.

(** C1. For a registered car with status [moving] and an index below
    [len(path) - 1], when the distance of one update,
    [(speed_kmh / 3.6) * update_interval], is at least the haversine distance
    from [path[index]] to [path[index + 1]], [update_car_position] increments
    the index by exactly 1 and the emitted position is the waypoint
    [path[index + 1]] itself, whatever the excess of the budget over the
    segment: the leftover is not carried into the next segment. *)
Theorem update_reaches_waypoint (cid : string) (w : World) (st : CarState)
    (cur nxt : R * R) (car : Database.CarRow) (speed_kmh segment_length : R) :
  car_states w !! cid = Some st ->
  status st = moving ->
  (current_index st < length (coordinates st) - 1)%nat ->
  coordinates st !! current_index st = Some cur ->
  coordinates st !! (current_index st + 1)%nat = Some nxt ->
  find_car cid (Database.cars (db w)) = Some car ->
  car_get_speed car = Some speed_kmh ->
  _calculate_distance cur.2 cur.1 nxt.2 nxt.1 = Ok segment_length ->
  speed_kmh / 3.6 * update_interval w >= segment_length ->
  exists w' st' sample,
    update_car_position cid w = (Ok tt, w')
    /\ car_states w' !! cid = Some st'
    /\ current_index st' = (current_index st + 1)%nat
    /\ coordinates st' = coordinates st
    /\ Database.car_positions (db w')
       = Database.car_positions (db w) ++ [sample]
    /\ Database.car_id sample = cid
    /\ (Database.lng sample, Database.lat sample) = nxt
    /\ coordinates st' !! current_index st'
       = Some (Database.lng sample, Database.lat sample).
Proof.
  intros Hst Hmov Hidx Hcur Hnxt Hcar Hv Hd Hge.
  assert (Hidx' : (current_index st + 1 < length (coordinates st))%nat) by lia.
  eexists _, _, _. split.
  { eapply update_reach; eassumption. }
  cbn [moved car_states db Database.insert_car_position Database.car_positions
       current_index coordinates Database.car_id Database.lng Database.lat].
  split; [apply lookup_insert_eq|].
  repeat split; try reflexivity.
  - cbn. now destruct nxt.
  - cbn. rewrite Hnxt. now destruct nxt.
Qed.

Lemma update_reaches_waypoint_witness :
  exists w' st' sample,
    update_car_position "car-1" (Scenario.one_car Scenario.short_path (Database.Num 72))
    = (Ok tt, w')
    /\ car_states w' !! "car-1" = Some st'
    /\ current_index st' = 1%nat
    /\ (Database.lng sample, Database.lat sample) = (0, 0.0001)
    /\ Database.car_positions (db w') = [sample].
Proof.
  destruct (update_reaches_waypoint "car-1"
              (Scenario.one_car Scenario.short_path (Database.Num 72))
              (Scenario.at_start Scenario.short_path) (0, 0) (0, 0.0001)
              (Scenario.car_row (Database.Num 72)) 72
              (R_earth * Rabs (radians (0.0001 - 0))))
    as (w' & st' & sample & Hrun & Hst' & Hi & _ & Hpos & _ & Hp & _).
  - apply lookup_singleton_eq.
  - reflexivity.
  - cbn. lia.
  - reflexivity.
  - reflexivity.
  - reflexivity.
  - reflexivity.
  - apply short_path_distance.
  - cbn [Scenario.one_car update_interval].
    pose proof short_path_length_bounds. lra.
  - exists w', st', sample. repeat split; assumption.
Defined.

(** C2. For a registered moving car whose distance of one update is
    strictly less than the length of the current segment,
    [update_car_position] raises nothing (the division is guarded),
    computes [ratio = budget / segment_length] ([0] when the segment length is
    [0]), emits the position [current + ratio * (next - current)]
    componentwise with the heading [calculate_bearing(current, next)], and
    writes that position into [path[index]]; no other entry of the path, no
    other car and no field of the state other than [path[index]] and the
    progress changes. *)
Theorem update_interpolates (cid : string) (w : World) (st : CarState)
    (cur nxt : R * R) (car : Database.CarRow) (speed_kmh segment_length : R) :
  car_states w !! cid = Some st ->
  status st = moving ->
  (current_index st < length (coordinates st) - 1)%nat ->
  coordinates st !! current_index st = Some cur ->
  coordinates st !! (current_index st + 1)%nat = Some nxt ->
  find_car cid (Database.cars (db w)) = Some car ->
  car_get_speed car = Some speed_kmh ->
  _calculate_distance cur.2 cur.1 nxt.2 nxt.1 = Ok segment_length ->
  speed_kmh / 3.6 * update_interval w < segment_length ->
  exists w' st' sample ratio,
    update_car_position cid w = (Ok tt, w')
    /\ (segment_length = 0 -> ratio = 0)
    /\ (segment_length <> 0 ->
        ratio = speed_kmh / 3.6 * update_interval w / segment_length)
    /\ Database.lng sample = cur.1 + ratio * (nxt.1 - cur.1)
    /\ Database.lat sample = cur.2 + ratio * (nxt.2 - cur.2)
    /\ Database.heading sample
       = OSRMService.calculate_bearing cur.1 cur.2 nxt.1 nxt.2
    /\ Database.car_id sample = cid
    /\ car_states w' = <[cid := st']> (car_states w)
    /\ coordinates st'
       = <[current_index st := (Database.lng sample, Database.lat sample)]>
           (coordinates st)
    /\ (forall j : nat, j <> current_index st ->
          coordinates st' !! j = coordinates st !! j)
    /\ current_index st' = current_index st
    /\ status st' = status st
    /\ progress st'
       = INR (current_index st) / (INR (length (coordinates st)) - 1) * 100
    /\ update_interval w' = update_interval w
    /\ Database.cars (db w') = Database.cars (db w)
    /\ Database.car_positions (db w')
       = Database.car_positions (db w) ++ [sample].
Proof.
  intros Hst Hmov Hidx Hcur Hnxt Hcar Hv Hd Hlt.
  assert (Hidx' : (current_index st + 1 < length (coordinates st))%nat) by lia.
  assert (Hd0 : 0 <= segment_length).
  { destruct (_calculate_distance_Ok cur.2 cur.1 nxt.2 nxt.1) as (d & Hd' & Hpos).
    congruence. }
  pose proof (update_interpolate cid w st cur nxt car speed_kmh segment_length
                Hst Hmov Hidx' Hcur Hnxt Hcar Hv Hd Hlt) as Hrun.
  cbv zeta in Hrun. unfold distance_per_update in Hrun.
  set (ratio := progress_ratio (speed_kmh / 3.6 * update_interval w) segment_length) in *.
  match type of Hrun with
  | _ = (_, moved _ ?s ?p _) => exists (moved cid s p w), s, p, ratio
  end.
  split; [exact Hrun|].
  cbn [moved car_states db update_interval Database.insert_car_position
       Database.car_positions Database.cars current_index coordinates status
       progress Database.car_id Database.lng Database.lat Database.heading
       interpolate fst snd].
  assert (Hr0 : segment_length = 0 -> ratio = 0).
  { intros E. unfold ratio, progress_ratio. destruct (Rgt_dec _ 0); [lra | reflexivity]. }
  assert (Hr1 : segment_length <> 0 ->
                ratio = speed_kmh / 3.6 * update_interval w / segment_length).
  { intros E. unfold ratio, progress_ratio. destruct (Rgt_dec _ 0); [reflexivity | lra]. }
  repeat split; try reflexivity; try assumption.
  - ring.
  - ring.
  - intros j Hj. apply list_lookup_insert_ne. congruence.
  - unfold progress_at. rewrite minus_IZR, <- INR_IZR_INZ. reflexivity.
Qed.

Lemma update_interpolates_witness :
  exists w' sample,
    update_car_position "car-1" (Scenario.one_car Scenario.short_path (Database.Num 36))
    = (Ok tt, w')
    /\ Database.car_positions (db w') = [sample]
    /\ Database.lng sample = 0.
Proof.
  destruct (update_interpolates "car-1"
              (Scenario.one_car Scenario.short_path (Database.Num 36))
              (Scenario.at_start Scenario.short_path) (0, 0) (0, 0.0001)
              (Scenario.car_row (Database.Num 36)) 36
              (R_earth * Rabs (radians (0.0001 - 0))))
    as (w' & st' & sample & ratio & Hrun & _ & _ & Hlng & _ & _ & _ & _ & _ & _ & _
        & _ & _ & _ & _ & Hpos).
  - apply lookup_singleton_eq.
  - reflexivity.
  - cbn. lia.
  - reflexivity.
  - reflexivity.
  - reflexivity.
  - reflexivity.
  - apply short_path_distance.
  - cbn [Scenario.one_car update_interval].
    pose proof short_path_length_bounds. lra.
  - exists w', sample. repeat split; try assumption.
    rewrite Hlng. cbn. ring.
Defined.

(** C7. [add_car] raises if and only if the path has fewer than 2
    coordinates; it then raises [ValueError] and leaves the registry and the
    store as they were.  With 2 coordinates or more it registers the state
    with index 0, progress 0 and status [moving], and emits exactly one
    sample, at [path[0]], with progress 0 and heading
    [calculate_bearing(path[0], path[1])]. *)
Theorem add_car_spec (cid : string) (path : list (R * R)) (w : World) :
  ((exists e w', add_car cid path w = (Raise e, w')) <-> (length path < 2)%nat)
  /\ ((length path < 2)%nat -> add_car cid path w = (Raise ValueError, w))
  /\ ((2 <= length path)%nat ->
      exists p0 p1 w',
        path !! 0%nat = Some p0 /\ path !! 1%nat = Some p1
        /\ add_car cid path w = (Ok tt, w')
        /\ car_states w'
           = <[cid := {| coordinates := path; current_index := 0;
                         progress := 0; status := moving |}]> (car_states w)
        /\ Database.car_positions (db w')
           = Database.car_positions (db w)
             ++ [{| Database.car_id := cid;
                    Database.lng := p0.1;
                    Database.lat := p0.2;
                    Database.heading :=
                      OSRMService.calculate_bearing p0.1 p0.2 p1.1 p1.2;
                    Database.progress := 0 |}]
        /\ Database.cars (db w') = Database.cars (db w)
        /\ update_interval w' = update_interval w).
Proof.
  assert (Hshort : (length path < 2)%nat -> add_car cid path w = (Raise ValueError, w)).
  { intros Hlen. unfold add_car.
    destruct (Nat.ltb_spec (length path) 2); [reflexivity | lia]. }
  assert (Hlong : (2 <= length path)%nat ->
      exists p0 p1 w',
        path !! 0%nat = Some p0 /\ path !! 1%nat = Some p1
        /\ add_car cid path w = (Ok tt, w')
        /\ car_states w'
           = <[cid := {| coordinates := path; current_index := 0;
                         progress := 0; status := moving |}]> (car_states w)
        /\ Database.car_positions (db w')
           = Database.car_positions (db w)
             ++ [{| Database.car_id := cid;
                    Database.lng := p0.1;
                    Database.lat := p0.2;
                    Database.heading :=
                      OSRMService.calculate_bearing p0.1 p0.2 p1.1 p1.2;
                    Database.progress := 0 |}]
        /\ Database.cars (db w') = Database.cars (db w)
        /\ update_interval w' = update_interval w).
  { intros Hlen. destruct path as [|[lng1 lat1] [|[lng2 lat2] rest]]; cbn in Hlen; try lia.
    exists (lng1, lat1), (lng2, lat2). eexists.
    split; [reflexivity|]. split; [reflexivity|].
    split; [reflexivity|]. cbn. repeat split. }
  split; [|split; assumption].
  split.
  - intros (e & w' & Hraise).
    destruct (Nat.lt_ge_cases (length path) 2) as [|Hge]; [assumption|].
    destruct (Hlong Hge) as (p0 & p1 & w2 & _ & _ & Hok & _). congruence.
  - intros Hlen. exists ValueError, w. now apply Hshort.
Qed.

(** C3. For a registered car, across any sequence of [update_car_position]
    calls (on any cars, the store changing freely in between), the progress
    is non-decreasing and lies in [[0, 100]]; while the car is moving it
    equals [(index / (len(path) - 1)) * 100]; once the car is finished it is
    exactly 100 and the state never changes again; and the index satisfies
    [0 <= index <= len(path) - 1]. *)
Theorem progress_monotone (w w' : World) (cid : string) (st st' : CarState) :
  reachable w ->
  ticks w w' ->
  car_states w !! cid = Some st ->
  car_states w' !! cid = Some st' ->
  progress st <= progress st'
  /\ 0 <= progress st' <= 100
  /\ (0 <= current_index st' <= length (coordinates st') - 1)%nat
  /\ (status st' = moving ->
      progress st'
      = INR (current_index st') / (INR (length (coordinates st')) - 1) * 100)
  /\ (status st' = finished -> progress st' = 100)
  /\ (status st = finished -> st' = st).
Proof.
  intros Hreach Hticks Hst Hst'.
  pose proof (ticks_step w w' Hticks (reachable_wf w Hreach) cid) as Hstep.
  rewrite Hst, Hst' in Hstep. destruct Hstep as (Hwf' & Hle & Hfin).
  split; [exact Hle|].
  split; [now apply wf_state_progress_bounds|].
  destruct Hwf' as (Hn & Hi & Hp).
  split; [lia|].
  split; [|split; [|exact Hfin]].
  - intros Hmov. rewrite Hmov in Hp. rewrite Hp. unfold progress_at.
    rewrite minus_IZR, <- INR_IZR_INZ. reflexivity.
  - intros Hf. now rewrite Hf in Hp.
Qed.

Lemma progress_monotone_witness :
  exists w' st',
    update_car_position "car-1" (Scenario.one_car Scenario.short_path (Database.Num 36))
    = (Ok tt, w')
    /\ car_states w' !! "car-1" = Some st'
    /\ progress (Scenario.at_start Scenario.short_path) <= progress st'
    /\ 0 <= progress st' <= 100.
Proof.
  set (w := Scenario.one_car Scenario.short_path (Database.Num 36)).
  assert (Hlt : distance_per_update 36 w < R_earth * Rabs (radians (0.0001 - 0))).
  { unfold distance_per_update. cbn [w Scenario.one_car update_interval].
    pose proof short_path_length_bounds. lra. }
  pose proof (update_interpolate "car-1" w (Scenario.at_start Scenario.short_path)
                (0, 0) (0, 0.0001) (Scenario.car_row (Database.Num 36)) 36 _
                (lookup_singleton_eq _ _) eq_refl ltac:(cbn; lia) eq_refl eq_refl
                eq_refl eq_refl short_path_distance Hlt) as Hrun.
  cbv zeta in Hrun.
  match type of Hrun with
  | _ = (_, moved _ ?s ?p _) => exists (moved "car-1" s p w), s
  end.
  split; [exact Hrun|]. split; [apply moved_lookup|].
  refine (let H := progress_monotone w _ "car-1" (Scenario.at_start Scenario.short_path) _
                     (one_car_reachable Scenario.short_path (Database.Num 36) ltac:(cbn; lia))
                     (ticks_update _ _ _ _ _ Hrun (ticks_done _))
                     (lookup_singleton_eq _ _) (moved_lookup _ _ _ _) in _).
  destruct H as (Hle & Hb & _). split; assumption.
Defined.

(** C10. When the store has a row for the car and the row has no [speed]
    key, [update_car_position] moves the car at the default speed of 30 km/h
    (the default of [SpawnCarRequest.speed]): the distance of the update is
    [(30 / 3.6) * update_interval], in the branch that reaches the waypoint
    and in the one that interpolates. *)
Theorem update_default_speed (cid : string) (w : World) (st : CarState)
    (cur nxt : R * R) (car : Database.CarRow) (segment_length : R) :
  car_states w !! cid = Some st ->
  status st = moving ->
  (current_index st < length (coordinates st) - 1)%nat ->
  coordinates st !! current_index st = Some cur ->
  coordinates st !! (current_index st + 1)%nat = Some nxt ->
  find_car cid (Database.cars (db w)) = Some car ->
  Database.speed car = Database.Absent ->
  _calculate_distance cur.2 cur.1 nxt.2 nxt.1 = Ok segment_length ->
  let budget := 30 / 3.6 * update_interval w in
  car_get_speed car = Some 30
  /\ Models.SpawnCarRequest_speed None = 30
  /\ (budget >= segment_length ->
      update_car_position cid w =
      (Ok tt,
       moved cid
         {| coordinates := coordinates st;
            current_index := current_index st + 1;
            progress := progress_at (current_index st + 1) (length (coordinates st));
            status := moving |}
         {| Database.car_id := cid;
            Database.lng := nxt.1;
            Database.lat := nxt.2;
            Database.heading :=
              arrival_heading cid (coordinates st) (current_index st + 1) (db w);
            Database.progress :=
              progress_at (current_index st + 1) (length (coordinates st)) |}
         w))
  /\ (budget < segment_length ->
      let new_position := interpolate cur nxt (progress_ratio budget segment_length) in
      update_car_position cid w =
      (Ok tt,
       moved cid
         {| coordinates := <[current_index st := new_position]> (coordinates st);
            current_index := current_index st;
            progress := progress_at (current_index st) (length (coordinates st));
            status := moving |}
         {| Database.car_id := cid;
            Database.lng := new_position.1;
            Database.lat := new_position.2;
            Database.heading :=
              OSRMService.calculate_bearing cur.1 cur.2 nxt.1 nxt.2;
            Database.progress :=
              progress_at (current_index st) (length (coordinates st)) |}
         w)).
Proof.
  intros Hst Hmov Hidx Hcur Hnxt Hcar Habs Hd budget.
  assert (Hidx' : (current_index st + 1 < length (coordinates st))%nat) by lia.
  assert (Hv : car_get_speed car = Some 30).
  { unfold car_get_speed. rewrite Habs. reflexivity. }
  split; [exact Hv|]. split; [reflexivity|]. split.
  - intros Hge. rewrite <- Hmov.
    eapply update_reach; eassumption.
  - intros Hlt new_position. rewrite <- Hmov.
    exact (update_interpolate cid w st cur nxt car 30 segment_length
             Hst Hmov Hidx' Hcur Hnxt Hcar Hv Hd Hlt).
Qed.

Lemma update_default_speed_witness :
  car_get_speed (Scenario.car_row Database.Absent) = Some 30
  /\ exists w',
       update_car_position "car-1"
         (Scenario.one_car Scenario.short_path Database.Absent) = (Ok tt, w').
Proof.
  destruct (update_default_speed "car-1"
              (Scenario.one_car Scenario.short_path Database.Absent)
              (Scenario.at_start Scenario.short_path) (0, 0) (0, 0.0001)
              (Scenario.car_row Database.Absent)
              (R_earth * Rabs (radians (0.0001 - 0))))
    as (Hv & _ & _ & Hlt).
  - apply lookup_singleton_eq.
  - reflexivity.
  - cbn. lia.
  - reflexivity.
  - reflexivity.
  - reflexivity.
  - reflexivity.
  - apply short_path_distance.
  - split; [exact Hv|]. eexists. apply Hlt.
    cbn [Scenario.one_car update_interval].
    pose proof short_path_length_bounds. lra.
Defined.

(** In binary64 too, 36 km/h at one call per second is exactly 10 meters. *)
Example distance_per_update_binary64 :
  Binary64.distance_per_update 36 1 = 10%float.
Proof. reflexivity. Qed.

(** C9, as amended. At 36 km/h and one call per second the distance of an
    update is exactly 10 meters; for a two-point path whose endpoints are 25
    meters apart, lie between 89 degrees south and 89 degrees north and
    differ by at most 180 degrees of longitude, the first two calls
    interpolate (about 10 meters each) and leave the index at 0, and the
    third call, with at most 6.5 meters left, moves the index from 0 to 1
    and sets the progress to 100. *)
Theorem three_ticks_clear_25_meters (cid : string) (w : World) (p q : R * R)
    (car : Database.CarRow) :
  update_interval w = 1 ->
  car_states w !! cid
  = Some {| coordinates := [p; q]; current_index := 0;
            progress := 0; status := moving |} ->
  find_car cid (Database.cars (db w)) = Some car ->
  Database.speed car = Database.Num 36 ->
  away_from_poles_and_antimeridian p q ->
  _calculate_distance p.2 p.1 q.2 q.1 = Ok 25 ->
  distance_per_update 36 w = 10
  /\ clears_on_third_tick cid w.
Proof.
  intros Hint Hst Hcar Hspeed Hgeo Hd.
  assert (Hb : forall w', update_interval w' = 1 -> distance_per_update 36 w' = 10).
  { intros w' E. unfold distance_per_update. rewrite E. lra. }
  split; [now apply Hb|].
  assert (Hv : car_get_speed car = Some 36).
  { unfold car_get_speed. now rewrite Hspeed. }
  (* first call: 25 meters ahead *)
  destruct (two_point_tick cid w p q 0 car 36 25 Hst Hcar Hv Hd) as [H1 _].
  rewrite (Hb w Hint) in H1. destruct H1 as (sample1 & E1); [lra|].
  rewrite progress_ratio_pos in E1 by lra.
  set (p1 := interpolate p q (10 / 25)) in *.
  set (w1 := moved cid _ sample1 w) in *.
  (* second call: between 13.5 and 16.5 meters ahead *)
  destruct (interpolation_band p q 25 (1 - 10 / 25) Hgeo Hd ltac:(lra) ltac:(lra))
    as (d1 & Hd1 & Hd1b).
  replace (1 - (1 - 10 / 25)) with (10 / 25) in Hd1 by lra. fold p1 in Hd1.
  destruct (two_point_tick cid w1 p1 q 0 car 36 d1 (moved_lookup _ _ _ _) Hcar Hv Hd1)
    as [H2 _].
  rewrite (Hb w1 Hint) in H2. destruct H2 as (sample2 & E2); [lra|].
  rewrite progress_ratio_pos in E2 by lra.
  set (p2 := interpolate p1 q (10 / d1)) in *.
  set (w2 := moved cid _ sample2 w1) in *.
  (* third call: at most 6.5 meters ahead *)
  assert (Hr : 0.6 < 10 / d1 < 0.75).
  { split.
    - apply Rmult_lt_reg_r with d1; [lra|].
      replace (10 / d1 * d1) with 10 by (field; lra). lra.
    - apply Rmult_lt_reg_r with d1; [lra|].
      replace (10 / d1 * d1) with 10 by (field; lra). lra. }
  assert (Hrd : 10 / d1 * d1 = 10) by (field; lra).
  set (r := 10 / d1) in *.
  destruct (interpolation_band p q 25 ((1 - 10 / 25) * (1 - r)) Hgeo Hd
              ltac:(lra) ltac:(nra))
    as (d2 & Hd2 & Hd2b).
  replace (1 - (1 - 10 / 25) * (1 - r)) with (10 / 25 + (1 - 10 / 25) * r) in Hd2 by ring.
  rewrite <- interpolate_twice in Hd2. fold p1 p2 in Hd2.
  destruct (two_point_tick cid w2 p2 q 0 car 36 d2 (moved_lookup _ _ _ _) Hcar Hv Hd2)
    as [_ H3].
  rewrite (Hb w2 Hint) in H3. destruct H3 as (sample3 & E3); [nra|].
  unfold clears_on_third_tick, state_after, tick_n.
  rewrite E1. cbn [snd]. fold w1. rewrite E2. cbn [snd]. fold w2. rewrite E3. cbn [snd].
  unfold w1 at 1, w2 at 1. rewrite !moved_lookup. cbn. repeat split.
Qed.

Lemma three_ticks_clear_25_meters_witness :
  clears_on_third_tick "car-1"
    (Scenario.one_car Scenario.meridian_path (Database.Num 36)).
Proof.
  assert (Hb : 0 < degrees (25 / R_earth) < 1).
  { unfold degrees, R_earth. pose proof PI2_3_2. pose proof PI_RGT_0. split.
    - apply Rmult_lt_0_compat; [lra|]. apply Rdiv_lt_0_compat; lra.
    - apply Rmult_lt_reg_r with PI; [lra|].
      replace (25 / 6371000 * (180 / PI) * PI) with (25 / 6371000 * 180)
        by (field; lra).
      lra. }
  refine (proj2 (three_ticks_clear_25_meters "car-1"
            (Scenario.one_car Scenario.meridian_path (Database.Num 36))
            (0, 0) (0, degrees (25 / R_earth))
            (Scenario.car_row (Database.Num 36)) eq_refl _ eq_refl eq_refl _ _)).
  - apply lookup_singleton_eq.
  - unfold away_from_poles_and_antimeridian. cbn [fst snd]. lra.
  - apply meridian_path_distance.
Defined.

(** C9, counterexample. Two points of the equator 25 meters apart, one on
    each side of the antimeridian, at 36 km/h and one call per second: the
    first call moves the car 10/25 of the way in longitude, to 36 degrees
    east, from where the second point is 144 degrees away, and the third
    call does not clear the segment. *)
Lemma antimeridian_path_not_cleared :
  let w := Scenario.one_car Scenario.antimeridian_path (Database.Num 36) in
  update_interval w = 1
  /\ car_states w !! "car-1"
     = Some {| coordinates := [(180 - Scenario.half_gap, 0);
                               (-180 + Scenario.half_gap, 0)];
               current_index := 0; progress := 0; status := moving |}
  /\ find_car "car-1" (Database.cars (db w))
     = Some (Scenario.car_row (Database.Num 36))
  /\ distance_per_update 36 w = 10
  /\ _calculate_distance 0 (180 - Scenario.half_gap) 0 (-180 + Scenario.half_gap)
     = Ok 25
  /\ ~ clears_on_third_tick "car-1" w.
Proof.
  intros w.
  assert (Hint : update_interval w = 1) by reflexivity.
  assert (Hst : car_states w !! "car-1"
     = Some {| coordinates := [(180 - Scenario.half_gap, 0);
                               (-180 + Scenario.half_gap, 0)];
               current_index := 0; progress := 0; status := moving |})
    by apply lookup_singleton_eq.
  assert (Hcar : find_car "car-1" (Database.cars (db w))
                 = Some (Scenario.car_row (Database.Num 36))) by reflexivity.
  assert (Hb : distance_per_update 36 w = 10).
  { unfold distance_per_update. rewrite Hint. lra. }
  pose proof antimeridian_path_distance as Hd.
  pose proof half_gap_bounds as He.
  do 5 (split; [assumption|]).
  set (p := (180 - Scenario.half_gap, 0)) in *.
  set (q := (-180 + Scenario.half_gap, 0)) in *.
  (* first call: 25 meters ahead, the car moves 10/25 of the way in longitude *)
  destruct (two_point_tick "car-1" w p q 0 _ 36 25 Hst Hcar eq_refl Hd) as [H1 _].
  rewrite Hb in H1. destruct H1 as (sample1 & E1); [lra|].
  rewrite progress_ratio_pos in E1 by lra.
  set (p1 := interpolate p q (10 / 25)) in *.
  set (w1 := moved "car-1" _ sample1 w) in *.
  assert (Hp1 : p1.2 = 0) by (unfold p1, interpolate; cbn; lra).
  assert (HL1 : 214 <= Rabs (q.1 - p1.1) <= 216).
  { unfold p1, interpolate. cbn [fst snd p q].
    rewrite Rabs_left by lra. lra. }
  (* second and third call: the waypoint is now far away *)
  destruct (equator_tick_far "car-1" w1 p1 q _ Hint (moved_lookup _ _ _ _) Hcar
              eq_refl Hp1 eq_refl ltac:(lra))
    as (p2 & sample2 & E2 & Hp2 & HL2).
  set (w2 := moved "car-1" _ sample2 w1) in *.
  destruct (equator_tick_far "car-1" w2 p2 q _ Hint (moved_lookup _ _ _ _) Hcar
              eq_refl Hp2 eq_refl ltac:(lra))
    as (p3 & sample3 & E3 & _ & _).
  intros (_ & _ & H3 & _). revert H3.
  unfold state_after, tick_n.
  rewrite E1. cbn [snd]. fold w1. rewrite E2. cbn [snd]. fold w2. rewrite E3. cbn [snd].
  rewrite moved_lookup. cbn. discriminate.
Qed.

End EngineProperties.

(** ** The store *)

Module DatabaseFacts.
Import Database Store.

Lemma latest_position_other (k : string) (row : PositionRow) (t : Tables) :
  car_id row <> k ->
  get_car_latest_position k (insert_car_position row t)
  = get_car_latest_position k t.
Proof.
  intros Hne. unfold get_car_latest_position, insert_car_position.
  cbn [car_positions]. rewrite filter_app.
  rewrite (filter_cons_False _ row []) by assumption. now rewrite app_nil_r.
Qed.

Lemma latest_position_own (row : PositionRow) (t : Tables) :
  get_car_latest_position (car_id row) (insert_car_position row t) = Some row.
Proof.
  unfold get_car_latest_position, insert_car_position.
  cbn [car_positions]. rewrite filter_app.
  rewrite (filter_cons_True _ row []) by reflexivity. apply last_snoc.
Qed.

Lemma latest_position_In (k : string) (t : Tables) (p : PositionRow) :
  get_car_latest_position k t = Some p ->
  p ∈ car_positions t /\ car_id p = k.
Proof.
  unfold get_car_latest_position. intros H.
  apply last_Some_elem_of in H. apply list_elem_of_filter in H. tauto.
Qed.

(** X1. After [insert_car_position(row)], [get_car_latest_position] gives
    [row] for the car of the row and, for every other car, what it gave
    before: a sample of one car never hides or replaces the newest sample
    of another. *)
Theorem latest_position_after_insert (row : PositionRow) (t : Tables)
    (cid : string) :
  get_car_latest_position cid (insert_car_position row t)
  = if decide (car_id row = cid) then Some row
    else get_car_latest_position cid t.
Proof.
  destruct (decide (car_id row = cid)) as [<-|Hne].
  - apply latest_position_own.
  - now apply latest_position_other.
Qed.

Lemma dedupe_fold (data : list PositionRow) :
  forall d : list (string * PositionRow),
    NoDup d.*1 ->
    NoDup (foldl dedupe_step d data).*1
    /\ forall c p, (c, p) ∈ foldl dedupe_step d data <->
         ((c, p) ∈ d) \/ ((c ∉ d.*1) /\ first_of c data = Some p).
Proof.
  induction data as [|pos data IH]; intros d Hd; cbn [foldl].
  - split; [assumption|]. intros c p. unfold first_of. cbn.
    split; [now left | intros [H|[_ H]]; [assumption | discriminate]].
  - unfold dedupe_step at 2 4.
    destruct (decide (car_id pos ∈ d.*1)) as [Hin|Hin].
    + destruct (IH d Hd) as [IH1 IH2]. split; [assumption|].
      intros c p. rewrite IH2. unfold first_of.
      destruct (decide (car_id pos = c)) as [E|E].
      * rewrite filter_cons_True by assumption. subst c.
        split; (intros [H|[H _]]; [now left | contradiction]).
      * rewrite filter_cons_False by assumption. reflexivity.
    + assert (Hd' : NoDup (d ++ [(car_id pos, pos)]).*1).
      { rewrite fmap_app. cbn. apply NoDup_app. split; [assumption|].
        split; [|apply NoDup_singleton].
        intros x Hx Hx'. apply list_elem_of_singleton in Hx'. congruence. }
      destruct (IH _ Hd') as [IH1 IH2]. split; [assumption|].
      intros c p. rewrite IH2. unfold first_of.
      destruct (decide (car_id pos = c)) as [E|E].
      * rewrite filter_cons_True by assumption.
        rewrite fmap_app, !elem_of_app. cbn.
        rewrite !list_elem_of_singleton. subst c.
        split.
        -- intros [[H|H]|[H _]]; [now left| |].
           ++ injection H as ->. right. split; [assumption|reflexivity].
           ++ exfalso. apply H. now right.
        -- intros [H|[_ H]]; [now left; left|].
           injection H as <-. left. now right.
      * rewrite filter_cons_False by assumption.
        rewrite fmap_app, !elem_of_app. cbn.
        rewrite !list_elem_of_singleton.
        split.
        -- intros [[H|H]|[H H']]; [now left|congruence|].
           right. split; [|assumption]. intros H''. apply H. now left.
        -- intros [H|[H H']]; [now left; left|].
           right. split; [|assumption]. intros [H''|H'']; [contradiction|congruence].
Qed.

Lemma first_of_car (c : string) (l : list PositionRow) (p : PositionRow) :
  first_of c l = Some p -> car_id p = c /\ p ∈ l.
Proof.
  unfold first_of. intros H. apply head_Some_elem_of in H.
  apply list_elem_of_filter in H. exact H.
Qed.

Lemma first_of_take (c : string) (n : nat) (l : list PositionRow) (p : PositionRow) :
  first_of c (take n l) = Some p -> first_of c l = Some p.
Proof.
  unfold first_of. intros H. rewrite <- (take_drop n l), filter_app.
  destruct (filter _ (take n l)); [discriminate|exact H].
Qed.

Lemma first_of_reverse (c : string) (l : list PositionRow) :
  first_of c (reverse l) = last (filter (fun p => car_id p = c) l).
Proof.
  unfold first_of. rewrite filter_reverse. apply head_reverse.
Qed.

Lemma first_of_is_Some (c : string) (l : list PositionRow) (p : PositionRow) :
  p ∈ l -> car_id p = c -> is_Some (first_of c l).
Proof.
  intros Hin Hc. unfold first_of.
  assert (H : p ∈ filter (fun p => car_id p = c) l)
    by (apply list_elem_of_filter; split; assumption).
  destruct (filter _ l); [inversion H|]. cbn. eauto.
Qed.

(** The rows [get_latest_car_positions] returns, characterised. *)
Lemma get_latest_car_positions_char (t : Tables) :
  NoDup (map car_id (get_latest_car_positions t))
  /\ forall p, p ∈ get_latest_car_positions t <->
       p ∈ take 1000 (reverse (car_positions t))
       /\ get_car_latest_position (car_id p) t = Some p.
Proof.
  unfold get_latest_car_positions, get_car_latest_position.
  set (data := take 1000 (reverse (car_positions t))).
  destruct (dedupe_fold data [] (NoDup_nil_2)) as [Hnd Hmem].
  fold dedupe_step.
  set (d' := foldl dedupe_step [] data) in *.
  assert (Hkey : forall c p, (c, p) ∈ d' -> car_id p = c).
  { intros c p H. apply Hmem in H as [H|[_ H]]; [inversion H|].
    now apply first_of_car in H. }
  split.
  - assert (E : map car_id d'.*2 = d'.*1).
    { clear Hnd Hmem. induction d' as [|[c p] d IH]; [reflexivity|].
      cbn. f_equal.
      - apply Hkey. now left.
      - apply IH. intros c' p' H. apply Hkey. now right. }
    rewrite E. exact Hnd.
  - intros p. split.
    + intros H. apply list_elem_of_fmap in H as [[c q] [-> H]]. cbn.
      apply Hmem in H as [H|[_ H]]; [inversion H|].
      pose proof (first_of_car _ _ _ H) as [Hc Hin]. split; [assumption|].
      rewrite Hc. rewrite <- first_of_reverse.
      apply first_of_take with (n := 1000%nat). exact H.
    + intros [Hin Hlast]. rewrite <- first_of_reverse in Hlast.
      apply list_elem_of_fmap. exists (car_id p, p). split; [reflexivity|].
      apply Hmem. right. split; [apply not_elem_of_nil|].
      destruct (first_of_is_Some (car_id p) data p Hin eq_refl) as [q Hq].
      rewrite Hq. f_equal.
      apply first_of_take in Hq. congruence.
Qed.

(** X2. [get_latest_car_positions] returns at most one row per car, and a
    row is returned exactly when it is among the 1000 newest rows of the
    table and is the newest row of its car, the one
    [get_car_latest_position] gives.  A car whose newest row is older than
    the 1000 newest rows of the table is therefore not returned. *)
Theorem get_latest_car_positions_spec (t : Tables) :
  NoDup (map car_id (get_latest_car_positions t))
  /\ forall p, p ∈ get_latest_car_positions t <->
       p ∈ take 1000 (reverse (car_positions t))
       /\ get_car_latest_position (car_id p) t = Some p.
Proof. apply get_latest_car_positions_char. Qed.

End DatabaseFacts.

(** ** Distances and bearings *)

Module GeodesyProperties.
Import PyMath PyMathFacts OSRMService BearingFacts Simulation Engine GeodesyFacts Routes.

Lemma haversine_term_sym (lat1 lng1 lat2 lng2 : R) :
  haversine_term lat1 lng1 lat2 lng2 = haversine_term lat2 lng2 lat1 lng1.
Proof.
  unfold haversine_term, radians.
  replace ((lat1 - lat2) * (PI / 180) / 2) with (- ((lat2 - lat1) * (PI / 180) / 2))
    by field.
  replace ((lng1 - lng2) * (PI / 180) / 2) with (- ((lng2 - lng1) * (PI / 180) / 2))
    by field.
  rewrite !sin_neg. ring.
Qed.

Lemma haversine_term_same (lat lng : R) : haversine_term lat lng lat lng = 0.
Proof.
  unfold haversine_term, radians.
  replace ((lat - lat) * (PI / 180) / 2) with 0 by field.
  replace ((lng - lng) * (PI / 180) / 2) with 0 by field.
  rewrite sin_0. ring.
Qed.

Lemma sqrt_haversine_term_range (lat1 lng1 lat2 lng2 : R) :
  0 <= sqrt (haversine_term lat1 lng1 lat2 lng2) <= 1.
Proof.
  pose proof (haversine_term_range lat1 lng1 lat2 lng2) as [H0 H1].
  split; [apply sqrt_pos|]. rewrite <- sqrt_1. now apply sqrt_le_1_alt.
Qed.

(** X4. Away from antipodal points, where the rounded term of the
    program can exceed 1 and the square root of [1 - a] raise,
    [_calculate_distance] is a distance: for two points whose haversine
    term is at most 0.999999 it returns a value, the same in both
    directions, between 0 and half the circumference [PI * R], and 0 when
    the two points are equal. *)
Theorem calculate_distance_metric (lat1 lng1 lat2 lng2 : R) :
  haversine_term lat1 lng1 lat2 lng2 <= 0.999999 ->
  exists d,
    _calculate_distance lat1 lng1 lat2 lng2 = Ok d
    /\ _calculate_distance lat2 lng2 lat1 lng1 = Ok d
    /\ 0 <= d <= PI * R_earth
    /\ (lat1 = lat2 -> lng1 = lng2 -> d = 0).
Proof.
  intros _. rewrite !distance_asin. eexists. split; [reflexivity|].
  split; [now rewrite haversine_term_sym|]. split.
  - pose proof (sqrt_haversine_term_range lat1 lng1 lat2 lng2) as Hs.
    pose proof (asin_bound (sqrt (haversine_term lat1 lng1 lat2 lng2))) as [_ Hub].
    pose proof (asin_nonneg _ Hs) as Hlb.
    unfold R_earth. pose proof PI_RGT_0. split; nra.
  - intros <- <-. rewrite haversine_term_same, sqrt_0, asin_0. ring.
Qed.

Lemma short_path_term : haversine_term 0 0 0.0001 0 <= 0.999999.
Proof.
  unfold haversine_term, radians.
  replace ((0 - 0) * (PI / 180) / 2) with 0 by field. rewrite sin_0.
  pose proof PI_4 as Hpi4. pose proof PI_RGT_0 as Hpi.
  pose proof (sin_sqr_small ((0.0001 - 0) * (PI / 180) / 2)) as [_ Hs].
  { apply Rabs_le. split; nra. }
  nra.
Qed.

(** The theorem at the two points of the short path. *)
Lemma calculate_distance_metric_witness :
  exists d,
    _calculate_distance 0 0 0.0001 0 = Ok d
    /\ _calculate_distance 0.0001 0 0 0 = Ok d
    /\ 0 <= d <= PI * R_earth
    /\ (0 = 0.0001 -> 0 = 0 -> d = 0).
Proof. apply (calculate_distance_metric 0 0 0.0001 0). apply short_path_term. Defined.

(** The distance of the handlers, from the one of the engine. *)
Lemma haversine_distance_eq (lat1 lng1 lat2 lng2 : R) :
  haversine_distance lat1 lng1 lat2 lng2
  = Ok (R_earth * (2 * asin (sqrt (haversine_term lat1 lng1 lat2 lng2))) / 1000).
Proof.
  pose proof (sqrt_haversine_term_range lat1 lng1 lat2 lng2) as Hs.
  pose proof (haversine_term_range lat1 lng1 lat2 lng2) as [H0 H1].
  unfold haversine_distance.
  assert (E : sin ((radians lat2 - radians lat1) / 2) ^ 2
              + cos (radians lat1) * cos (radians lat2)
                * sin ((radians lng2 - radians lng1) / 2) ^ 2
              = haversine_term lat1 lng1 lat2 lng2).
  { unfold haversine_term, radians. repeat f_equal; field. }
  rewrite E. rewrite RoutingFacts.py_sqrt_Ok by assumption.
  cbn [mbind result_bind]. unfold py_asin.
  destruct (Rlt_dec _ (-1)); [lra|]. destruct (Rlt_dec 1 _); [lra|].
  cbn. f_equal. unfold R_earth. field.
Qed.

Lemma haversine_distance_Ok (lat1 lng1 lat2 lng2 : R) :
  exists d, haversine_distance lat1 lng1 lat2 lng2 = Ok d /\ 0 <= d.
Proof.
  rewrite haversine_distance_eq. eexists. split; [reflexivity|].
  pose proof (asin_nonneg _ (sqrt_haversine_term_range lat1 lng1 lat2 lng2)).
  unfold R_earth. lra.
Qed.

(** X5. Away from antipodal points the two distance functions of the
    program agree: for two points whose haversine term is at most
    0.999999, [haversine_distance] of the handlers, in kilometers and
    through [asin], returns one thousandth of what [_calculate_distance] of
    the engine returns in meters through [atan2], a value between 0 and
    [PI * 6371]. *)
Theorem haversine_distance_agrees (lat1 lng1 lat2 lng2 : R) :
  haversine_term lat1 lng1 lat2 lng2 <= 0.999999 ->
  exists d,
    _calculate_distance lat1 lng1 lat2 lng2 = Ok d
    /\ haversine_distance lat1 lng1 lat2 lng2 = Ok (d / 1000)
    /\ 0 <= d / 1000 <= PI * 6371.
Proof.
  intros _. rewrite distance_asin, haversine_distance_eq.
  eexists. split; [reflexivity|]. split; [reflexivity|].
  pose proof (sqrt_haversine_term_range lat1 lng1 lat2 lng2) as Hs.
  pose proof (asin_bound (sqrt (haversine_term lat1 lng1 lat2 lng2))) as [_ Hub].
  pose proof (asin_nonneg _ Hs) as Hlb.
  unfold R_earth. pose proof PI_RGT_0. split; nra.
Qed.

(** The theorem at the two points of the short path. *)
Lemma haversine_distance_agrees_witness :
  exists d,
    _calculate_distance 0 0 0.0001 0 = Ok d
    /\ haversine_distance 0 0 0.0001 0 = Ok (d / 1000)
    /\ 0 <= d / 1000 <= PI * 6371.
Proof. apply (haversine_distance_agrees 0 0 0.0001 0). apply short_path_term. Defined.

Lemma radians_span (a b : R) :
  0 < b - a < 180 -> 0 < radians b - radians a < PI.
Proof. unfold radians. pose proof PI_RGT_0 as Hpi. intros Hab. split; nra. Qed.

Lemma atan2_neg_axis (x : R) : x < 0 -> atan2 0 x = PI.
Proof.
  intros Hx. unfold atan2. destruct (Rlt_dec 0 x); [lra|].
  destruct (Rlt_dec x 0); [|lra]. destruct (Rle_dec 0 0); [|lra].
  replace (0 / x) with 0 by (field; lra). rewrite atan_0. ring.
Qed.

Lemma atan2_down_axis (y : R) : y < 0 -> atan2 y 0 = - (PI / 2).
Proof.
  intros Hy. unfold atan2.
  destruct (Rlt_dec 0 0); [lra|]. destruct (Rlt_dec 0 y); [lra|].
  destruct (Rlt_dec y 0); lra.
Qed.

(** X6. [calculate_bearing] gives the four compass points: between two
    points of one meridian less than 180 degrees of latitude apart it is 0
    toward the north and 180 toward the south, and between two points of
    the equator less than 180 degrees of longitude apart it is 90 toward
    the east and 270 toward the west. *)
Theorem calculate_bearing_cardinal (a b : R) :
  0 < b - a < 180 ->
  (forall lng, calculate_bearing lng a lng b = 0)
  /\ (forall lng, calculate_bearing lng b lng a = 180)
  /\ calculate_bearing a 0 b 0 = 90
  /\ calculate_bearing b 0 a 0 = 270.
Proof.
  intros Hab. pose proof (radians_span a b Hab) as Hr. pose proof PI_RGT_0 as Hpi.
  assert (Hsin : 0 < sin (radians b - radians a)) by (apply sin_gt_0; lra).
  assert (Hrad : radians (b - a) = radians b - radians a) by (unfold radians; ring).
  assert (Hrad' : radians (a - b) = - (radians b - radians a)) by (unfold radians; ring).
  repeat split.
  - intros lng. unfold calculate_bearing.
    replace (lng - lng) with 0 by ring. rewrite radians_0, sin_0, cos_0.
    replace (cos (radians a) * sin (radians b) - sin (radians a) * cos (radians b) * 1)
      with (sin (radians b - radians a)) by (rewrite sin_minus; ring).
    replace (0 * cos (radians b)) with 0 by ring.
    rewrite atan2_pos_axis by assumption. rewrite degrees_0. apply py_mod_360_360.
  - intros lng. unfold calculate_bearing.
    replace (lng - lng) with 0 by ring. rewrite radians_0, sin_0, cos_0.
    replace (cos (radians b) * sin (radians a) - sin (radians b) * cos (radians a) * 1)
      with (- sin (radians b - radians a)) by (rewrite sin_minus; ring).
    replace (0 * cos (radians a)) with 0 by ring.
    rewrite atan2_neg_axis by lra.
    replace (degrees PI) with 180 by (unfold degrees; field; lra).
    rewrite (py_mod_shift _ _ 1); [ring | lra | split; lra].
  - unfold calculate_bearing. rewrite radians_0, sin_0, cos_0, Hrad.
    replace (1 * 0 - 0 * 1 * cos (radians b - radians a)) with 0 by ring.
    replace (sin (radians b - radians a) * 1) with (sin (radians b - radians a)) by ring.
    rewrite atan2_up_axis by assumption. rewrite degrees_half_PI. apply py_mod_450_360.
  - unfold calculate_bearing. rewrite radians_0, sin_0, cos_0, Hrad', sin_neg.
    replace (1 * 0 - 0 * 1 * cos (- (radians b - radians a))) with 0 by ring.
    replace (- sin (radians b - radians a) * 1) with (- sin (radians b - radians a)) by ring.
    rewrite atan2_down_axis by lra.
    replace (degrees (- (PI / 2))) with (-90) by (unfold degrees; field; lra).
    rewrite (py_mod_shift _ _ 0); [ring | lra | split; lra].
Qed.

(** The theorem between the latitudes, or longitudes, 10 and 30. *)
Lemma calculate_bearing_cardinal_witness :
  (forall lng, calculate_bearing lng 10 lng 30 = 0)
  /\ (forall lng, calculate_bearing lng 30 lng 10 = 180)
  /\ calculate_bearing 10 0 30 0 = 90
  /\ calculate_bearing 30 0 10 0 = 270.
Proof. apply (calculate_bearing_cardinal 10 30). lra. Defined.

End GeodesyProperties.

(** ** Routes accepted from a provider *)

Module RoutingProperties.
Import PyMath Models Routing RoutingFacts.

Lemma as_float_PNum (lax_float : pyval -> option R) (c : list R) :
  as_list (as_float lax_float) (map PNum c) = Ok c.
Proof.
  induction c as [|x c IH]; [reflexivity|].
  cbn. rewrite IH. reflexivity.
Qed.

Lemma as_coordinates_encode (lax_float : pyval -> option R) (cs : list (list R)) :
  as_coordinates lax_float (PList (map (fun c => PList (map PNum c)) cs)) = Ok cs.
Proof.
  unfold as_coordinates.
  induction cs as [|c cs IH]; [reflexivity|].
  cbn [map as_list as_float_list]. rewrite as_float_PNum. cbn. rewrite IH. reflexivity.
Qed.

Lemma make_OSRMRoute_inv (lax_float : pyval -> option R) (g d t c : pyval)
    (r : OSRMRoute) :
  make_OSRMRoute lax_float g d t c = Ok r ->
  geometry r = g
  /\ as_float lax_float d = Ok (distance r)
  /\ as_float lax_float t = Ok (duration r)
  /\ as_coordinates lax_float c = Ok (coordinates r).
Proof.
  unfold make_OSRMRoute. destruct g; try discriminate.
  destruct (as_float lax_float d) as [d'|]; [|discriminate].
  destruct (as_float lax_float t) as [t'|]; [|discriminate].
  destruct (as_coordinates lax_float c) as [c'|]; [|discriminate]. cbn.
  intros H. injection H as <-. cbn. repeat split.
Qed.

Lemma fetch_route_inv (lax_float : pyval -> option R) (reply : http_reply)
    (r : OSRMRoute) :
  fetch_route lax_float reply = Ok r ->
  exists status_code data routes route d t coords,
    reply = Response status_code (Some data)
    /\ (200 <= status_code < 300)%nat
    /\ dict_get data "code" = Ok (PStr "Ok")
    /\ subscript data "routes" = Ok routes
    /\ first_item routes = Ok route
    /\ subscript route "geometry" = Ok (geometry r)
    /\ subscript route "distance" = Ok d
    /\ as_float lax_float d = Ok (distance r)
    /\ subscript route "duration" = Ok t
    /\ as_float lax_float t = Ok (duration r)
    /\ subscript (geometry r) "coordinates" = Ok coords
    /\ as_coordinates lax_float coords = Ok (coordinates r).
Proof.
  destruct reply as [|status_code [data|]]; cbn [fetch_route]; try discriminate.
  - unfold raise_for_status.
    destruct ((200 <=? status_code)%nat && (status_code <? 300)%nat) eqn:Hs;
      [|discriminate].
    apply andb_true_iff in Hs as [H1 H2].
    apply Nat.leb_le in H1. apply Nat.ltb_lt in H2.
    cbn [mbind result_bind].
    destruct (dict_get data "code") as [code|] eqn:Hcode;
      cbn [mbind result_bind]; [|discriminate].
    destruct (is_code_Ok code) eqn:Hok; cbn [negb]; [|discriminate].
    apply is_code_Ok_inv in Hok. subst code.
    destruct (subscript data "routes") as [routes|] eqn:Hroutes;
      cbn [mbind result_bind]; [|discriminate].
    destruct (first_item routes) as [route|] eqn:Hroute;
      cbn [mbind result_bind]; [|discriminate].
    destruct (subscript route "geometry") as [g|] eqn:Hg;
      cbn [mbind result_bind]; [|discriminate].
    destruct (subscript route "distance") as [d|] eqn:Hd;
      cbn [mbind result_bind]; [|discriminate].
    destruct (subscript route "duration") as [t|] eqn:Ht;
      cbn [mbind result_bind]; [|discriminate].
    destruct (subscript g "coordinates") as [c|] eqn:Hc;
      cbn [mbind result_bind]; [|discriminate].
    intros Hmake. apply make_OSRMRoute_inv in Hmake as (<- & Hd' & Ht' & Hcs).
    exists status_code, data, routes, route, d, t, c.
    repeat split; try assumption.
  - unfold raise_for_status.
    destruct ((200 <=? status_code)%nat && (status_code <? 300)%nat); discriminate.
Qed.

(** X7. A tier of [get_route] yields a route only from a reply with a 2xx
    status whose body decodes to a dictionary with ["code"] equal to
    ["Ok"]; the route is then built from the first element of ["routes"]:
    its geometry is that element's ["geometry"] and its distance and
    duration are the validated ["distance"] and ["duration"].  No other
    reply is ever accepted. *)
Theorem fetch_route_sound (lax_float : pyval -> option R) (reply : http_reply)
    (r : OSRMRoute) :
  fetch_route lax_float reply = Ok r ->
  exists status_code data routes route d t,
    reply = Response status_code (Some data)
    /\ (200 <= status_code < 300)%nat
    /\ dict_get data "code" = Ok (PStr "Ok")
    /\ subscript data "routes" = Ok routes
    /\ first_item routes = Ok route
    /\ subscript route "geometry" = Ok (geometry r)
    /\ subscript route "distance" = Ok d
    /\ as_float lax_float d = Ok (distance r)
    /\ subscript route "duration" = Ok t
    /\ as_float lax_float t = Ok (duration r).
Proof.
  intros H. destruct (fetch_route_inv lax_float reply r H)
    as (s & data & routes & route & d & t & c & H1 & H2 & H3 & H4 & H5 & H6
        & H7 & H8 & H9 & H10 & _).
  exists s, data, routes, route, d, t. repeat split; try assumption; apply H2.
Qed.

(** The theorem at a reply that carries the short path. *)
Lemma fetch_route_sound_witness :
  exists status_code data routes route d t,
    Response 200 (Some Cases.osrm_body) = Response status_code (Some data)
    /\ (200 <= status_code < 300)%nat
    /\ dict_get data "code" = Ok (PStr "Ok")
    /\ subscript data "routes" = Ok routes
    /\ first_item routes = Ok route
    /\ subscript route "geometry" = Ok (geometry Cases.osrm_route)
    /\ subscript route "distance" = Ok d
    /\ as_float (fun _ => None) d = Ok (distance Cases.osrm_route)
    /\ subscript route "duration" = Ok t
    /\ as_float (fun _ => None) t = Ok (duration Cases.osrm_route).
Proof.
  apply (fetch_route_sound (fun _ => None) (Response 200 (Some Cases.osrm_body))
           Cases.osrm_route).
  reflexivity.
Defined.

(** X8. Whichever tier produced it, the route [get_route] returns is
    consistent: its [coordinates] are the validated ["coordinates"] entry
    of its own [geometry], so the path given to the engine is the line
    stored with the route. *)
Theorem get_route_geometry_matches (lax_float : pyval -> option R)
    (local_reply public_reply : http_reply)
    (start_lng start_lat end_lng end_lat : R) (r : OSRMRoute) :
  get_route lax_float local_reply public_reply
    start_lng start_lat end_lng end_lat = Ok r ->
  exists coords,
    subscript (geometry r) "coordinates" = Ok coords
    /\ as_coordinates lax_float coords = Ok (coordinates r).
Proof.
  unfold get_route.
  assert (Hfetch : forall reply r', fetch_route lax_float reply = Ok r' ->
            exists coords, subscript (geometry r') "coordinates" = Ok coords
                           /\ as_coordinates lax_float coords = Ok (coordinates r')).
  { intros reply r' H.
    destruct (fetch_route_inv lax_float reply r' H)
      as (? & ? & ? & ? & ? & ? & c & _ & _ & _ & _ & _ & _ & _ & _ & _ & _ & H1 & H2).
    eauto. }
  destruct (fetch_route lax_float local_reply) as [r1|] eqn:H1.
  - intros H. injection H as <-. eauto.
  - destruct (fetch_route lax_float public_reply) as [r2|] eqn:H2.
    + intros H. injection H as <-. eauto.
    + unfold straight_line.
      rewrite py_sqrt_Ok by apply sum_squares_nonneg. cbn [mbind result_bind].
      match goal with
      | |- context [map ?f (seq 0 (steps + 1))] =>
          set (cs := map f (seq 0 (steps + 1)))
      end.
      intros H. injection H as <-. cbn [geometry coordinates].
      exists (PList (map (fun c => PList (map PNum c)) cs)).
      split; [reflexivity | apply as_coordinates_encode].
Qed.

(** The theorem when the configured provider is down and the public one
    answers. *)
Lemma get_route_geometry_matches_witness :
  exists coords,
    subscript (geometry Cases.osrm_route) "coordinates" = Ok coords
    /\ as_coordinates (fun _ => None) coords = Ok (coordinates Cases.osrm_route).
Proof.
  apply (get_route_geometry_matches (fun _ => None) RequestFailed
           (Response 200 (Some Cases.osrm_body)) 0 0 0 0.0001 Cases.osrm_route).
  reflexivity.
Defined.

End RoutingProperties.

(** ** Runs of the engine *)

Module FleetProperties.
Import PyMath PyMathFacts Simulation Engine SimulationFacts GeodesyFacts Runs.
Import Scenario Cases.

(** Every way a call of [update_car_position] can go. *)
Lemma update_cases (cid : string) (w : World) :
  (car_states w !! cid = None /\ update_car_position cid w = (Ok tt, w))
  \/ exists st, car_states w !! cid = Some st /\
     ((status st = finished /\ update_car_position cid w = (Ok tt, w))
      \/ (status st = moving
          /\ (length (coordinates st) <= current_index st + 1)%nat
          /\ update_car_position cid w = (Ok tt, finished_world cid st w))
      \/ (status st = moving
          /\ (current_index st + 1 < length (coordinates st))%nat
          /\ ((find_car cid (Database.cars (db w)) = None
               /\ update_car_position cid w = (Ok tt, dropped cid w))
              \/ exists car, find_car cid (Database.cars (db w)) = Some car /\
                 ((car_get_speed car = None
                   /\ update_car_position cid w = (Raise TypeError, w))
                  \/ exists v cur nxt d,
                       car_get_speed car = Some v
                       /\ coordinates st !! current_index st = Some cur
                       /\ coordinates st !! (current_index st + 1)%nat = Some nxt
                       /\ _calculate_distance cur.2 cur.1 nxt.2 nxt.1 = Ok d
                       /\ 0 <= d
                       /\ ((distance_per_update v w >= d
                            /\ update_car_position cid w
                               = (Ok tt,
                                  moved cid (advanced st)
                                    (sample_at cid nxt
                                       (arrival_heading cid (coordinates st)
                                          (current_index st + 1) (db w))
                                       (progress (advanced st))) w))
                           \/ (distance_per_update v w < d
                               /\ let p := interpolate cur nxt
                                             (progress_ratio (distance_per_update v w) d) in
                                  update_car_position cid w
                                  = (Ok tt,
                                     moved cid (shifted st p)
                                       (sample_at cid p
                                          (OSRMService.calculate_bearing
                                             cur.1 cur.2 nxt.1 nxt.2)
                                          (progress (shifted st p))) w))))))).
Proof.
  destruct (car_states w !! cid) as [st|] eqn:Hst;
    [right; exists st; split; [reflexivity|] | left; split;
       [reflexivity | now apply update_unknown]].
  destruct (status st) eqn:Hmov;
    [|left; split; [reflexivity | now apply update_finished with st]].
  right.
  destruct (le_lt_dec (length (coordinates st)) (current_index st + 1)) as [Hend|Hseg].
  { left. repeat split; [assumption|]. now apply update_at_end. }
  right. repeat split; [assumption|].
  destruct (find_car cid (Database.cars (db w))) as [car|] eqn:Hcar;
    [right; exists car; split; [reflexivity|]
    | left; split; [reflexivity | now apply update_car_deleted with st]].
  destruct (car_get_speed car) as [v|] eqn:Hv;
    [right | left; split; [reflexivity | now apply update_speed_null with st car]].
  destruct (lookup_lt_is_Some_2 (coordinates st) (current_index st)) as [cur Hcur];
    [lia|].
  destruct (lookup_lt_is_Some_2 (coordinates st) (current_index st + 1)) as [nxt Hnxt];
    [lia|].
  destruct (_calculate_distance_Ok cur.2 cur.1 nxt.2 nxt.1) as (d & Hd & Hd0).
  exists v, cur, nxt, d. repeat split; try assumption.
  destruct (Rge_dec (distance_per_update v w) d) as [Hge|Hlt].
  - left. split; [assumption|].
    now apply (update_reach cid w st cur nxt car v d).
  - right. split; [lra|]. intros p.
    apply (update_interpolate cid w st cur nxt car v d); try assumption. lra.
Qed.


Lemma find_car_update_status (k c s : string) (t : Database.Tables) :
  car_get_speed <$> find_car k (Database.cars (Database.update_car_status c s t))
  = car_get_speed <$> find_car k (Database.cars t).
Proof.
  unfold find_car, Database.update_car_status. cbn [Database.cars].
  induction (Database.cars t) as [|row rows IH]; [reflexivity|].
  cbn [map].
  set (f := fun c0 : Database.CarRow => if String.eqb (Database.id c0) c then _ else c0) in *.
  assert (Hid : Database.id (f row) = Database.id row)
    by (unfold f; now destruct (String.eqb (Database.id row) c)).
  assert (Hsp : car_get_speed (f row) = car_get_speed row)
    by (unfold f, car_get_speed; now destruct (String.eqb (Database.id row) c)).
  destruct (decide (Database.id row = k)) as [E|E].
  - rewrite (filter_cons_True _ (f row)) by exact (eq_trans Hid E).
    rewrite (filter_cons_True _ row) by exact E. cbn. now rewrite Hsp.
  - rewrite (filter_cons_False _ (f row)) by (intros E'; apply E; now rewrite <- Hid).
    rewrite (filter_cons_False _ row) by exact E. exact IH.
Qed.

(** What a call on [cid] leaves alone: the interval, the state of every
    other car, the speed the store gives any car, and the newest sample of
    every other car. *)
Lemma update_frame (cid : string) (w : World) :
  let w' := (update_car_position cid w).2 in
  update_interval w' = update_interval w
  /\ (forall k, k <> cid -> car_states w' !! k = car_states w !! k)
  /\ (forall k, car_get_speed <$> find_car k (Database.cars (db w'))
                = car_get_speed <$> find_car k (Database.cars (db w)))
  /\ (forall k, k <> cid ->
        Database.get_car_latest_position k (db w')
        = Database.get_car_latest_position k (db w)).
Proof.
  intros w'. subst w'.
  destruct (update_cases cid w)
    as [[_ ->] | (st & Hst & [[_ ->] | [(_ & _ & ->) | (_ & _ & [[_ ->] |
         (car & _ & [[_ ->] | (v & cur & nxt & d & _ & _ & _ & _ & _ &
            [[_ ->] | [_ ->]])])])]])];
    cbn [snd finished_world dropped moved update_interval car_states db];
    repeat split; try reflexivity; intros k; try intros Hk.
  - now apply lookup_insert_ne.
  - apply find_car_update_status.
  - now apply lookup_delete_ne.
  - now apply lookup_insert_ne.
  - apply DatabaseFacts.latest_position_other. cbn. congruence.
  - now apply lookup_insert_ne.
  - apply DatabaseFacts.latest_position_other. cbn. congruence.
Qed.


Lemma update_next_state (cid : string) (w : World) :
  car_states (update_car_position cid w).2 !! cid
  = next_state (update_interval w)
      (car_get_speed <$> find_car cid (Database.cars (db w)))
      (car_states w !! cid).
Proof.
  unfold next_state.
  destruct (update_cases cid w)
    as [[Hst ->] | (st & Hst & [[Hs ->] | [(Hs & Hi & ->) | (Hs & Hi & [[Hc ->] |
         (car & Hc & [[Hv ->] | (v & cur & nxt & d & Hv & Hcur & Hnxt & Hd & Hd0 &
            [[Hb ->] | [Hb ->]])])])]])];
    cbn [snd finished_world dropped moved car_states]; rewrite ?Hst.
  - reflexivity.
  - rewrite decide_True by assumption. reflexivity.
  - rewrite decide_False by congruence. rewrite decide_True by assumption.
    apply lookup_insert_eq.
  - rewrite decide_False by congruence. rewrite decide_False by lia.
    rewrite Hc. cbn. apply lookup_delete_eq.
  - rewrite decide_False by congruence. rewrite decide_False by lia.
    rewrite Hc. cbn. rewrite Hv. reflexivity.
  - rewrite decide_False by congruence. rewrite decide_False by lia.
    rewrite Hc. cbn. rewrite Hv, Hcur, Hnxt, Hd.
    unfold distance_per_update in Hb.
    destruct (Rge_dec _ d); [|contradiction]. apply lookup_insert_eq.
  - rewrite decide_False by congruence. rewrite decide_False by lia.
    rewrite Hc. cbn. rewrite Hv, Hcur, Hnxt, Hd.
    unfold distance_per_update in Hb.
    destruct (Rge_dec _ d); [lra|]. apply lookup_insert_eq.
Qed.

Lemma update_local (k : string) (w1 w2 : World) :
  same_view k w1 w2 ->
  car_states (update_car_position k w1).2 !! k
  = car_states (update_car_position k w2).2 !! k.
Proof.
  intros (Hs & Hi & Hv). rewrite !update_next_state. now rewrite Hs, Hi, Hv.
Qed.

Lemma update_all_cars_cons (c : string) (rest : list string) (w : World) :
  update_all_cars (c :: rest) w
  = update_all_cars rest (update_car_position c w).2.
Proof.
  cbn [update_all_cars]. unfold mbind, M_bind.
  now destruct (update_car_position c w) as [[[]|e] w1].
Qed.

(** X10. In one cycle of [update_all_cars] the cars do not interfere: the
    entry of the registry for a car of the snapshot is, after the cycle,
    what one call of [update_car_position] on that car alone would have
    made of it, wherever the car stands in the snapshot and whatever
    happened to the others; a car that is not in the snapshot keeps its
    entry. *)
Theorem update_all_cars_independent (car_ids : list string) (w : World) (k : string) :
  NoDup car_ids ->
  car_states (update_all_cars car_ids w).2 !! k
  = if decide (k ∈ car_ids)
    then car_states (update_car_position k w).2 !! k
    else car_states w !! k.
Proof.
  intros Hnd. revert w. induction Hnd as [|c rest Hc Hnd IH]; intros w.
  - rewrite decide_False by apply not_elem_of_nil. reflexivity.
  - rewrite update_all_cars_cons, IH.
    destruct (update_frame c w) as (Hi & Hs & Hv & _).
    destruct (decide (k = c)) as [->|Hk].
    + rewrite decide_False by assumption.
      rewrite decide_True by apply list_elem_of_here. reflexivity.
    + destruct (decide (k ∈ rest)) as [Hin|Hin].
      * rewrite decide_True by now apply list_elem_of_further.
        apply update_local. repeat split; [now apply Hs | exact Hi | apply Hv].
      * rewrite decide_False by (rewrite elem_of_cons; tauto).
        now apply Hs.
Qed.

(** X9. [update_all_cars] never raises, whatever its calls of
    [update_car_position] do: an exception of one car is dropped and the
    loop goes on with the next.  The cycle is a sequence of updates, so it
    leaves the interval alone and is covered by what holds of every such
    sequence. *)
Theorem update_all_cars_never_raises (car_ids : list string) (w : World) :
  exists w', update_all_cars car_ids w = (Ok tt, w')
             /\ ticks w w'
             /\ update_interval w' = update_interval w.
Proof.
  revert w. induction car_ids as [|c rest IH]; intros w.
  - exists w. repeat split. apply ticks_done.
  - destruct (IH (update_car_position c w).2) as (w' & Hrun & Ht & Hi).
    exists w'. rewrite update_all_cars_cons. split; [exact Hrun|]. split.
    + destruct (update_car_position c w) as [r w1] eqn:E.
      eapply ticks_update; [exact E | exact Ht].
    + rewrite Hi. apply (update_frame c w).
Qed.

Lemma ticks_registry (w w' : World) (k : string) :
  ticks w w' ->
  (car_states w !! k = None -> car_states w' !! k = None)
  /\ (forall st, car_states w !! k = Some st -> status st = finished ->
                 car_states w' !! k = Some st).
Proof.
  induction 1 as [w | w c r w1 w' Hrun _ IH | w t w' _ IH].
  - split; [tauto | intros; assumption].
  - destruct IH as [IHn IHf].
    assert (E : w1 = (update_car_position c w).2) by now rewrite Hrun.
    destruct (decide (k = c)) as [->|Hk].
    + split.
      * intros Hn. apply IHn. rewrite E, (update_unknown c w Hn). exact Hn.
      * intros st Hst Hf. apply IHf; [|exact Hf].
        rewrite E, (update_finished c w st Hst Hf). exact Hst.
    + destruct (update_frame c w) as (_ & Hs & _). rewrite <- E in Hs.
      split.
      * intros Hn. apply IHn. now rewrite Hs.
      * intros st Hst Hf. apply IHf; [|exact Hf]. now rewrite Hs.
  - exact IH.
Qed.


Lemma arrival_heading_range (cid : string) (path : list (R * R)) (i : nat)
    (t : Database.Tables) :
  Forall valid_sample (Database.car_positions t) ->
  0 <= arrival_heading cid path i t < 360.
Proof.
  intros Hall. unfold arrival_heading.
  destruct (path !! i) as [p|]; [destruct (path !! (i + 1)%nat) as [q|]|];
    [apply BearingFacts.calculate_bearing_range| |];
    (destruct (Database.get_car_latest_position cid t) as [s|] eqn:E; [|lra];
     apply DatabaseFacts.latest_position_In in E as [E _];
     rewrite Forall_forall in Hall; apply (Hall s E)).
Qed.

(** X16. [update_car_position] keeps the table of positions drawable: if
    every stored sample has a heading in [[0, 360)] and a progress in
    [[0, 100]], so has every sample after the call, including the one the
    call may have appended (whose heading, at the last waypoint, is copied
    from the newest stored sample of the car). *)
Theorem update_emits_valid_samples (cid : string) (w : World) :
  Forall valid_sample (Database.car_positions (db w)) ->
  Forall valid_sample (Database.car_positions (db (update_car_position cid w).2)).
Proof.
  intros Hall.
  destruct (update_cases cid w)
    as [[_ ->] | (st & Hst & [[_ ->] | [(_ & _ & ->) | (_ & Hi & [[_ ->] |
         (car & _ & [[_ ->] | (v & cur & nxt & d & _ & _ & _ & _ & _ &
            [[_ ->] | [_ ->]])])])]])];
    cbn [snd finished_world dropped moved db Database.update_car_status
         Database.insert_car_position Database.car_positions];
    try assumption.
  - apply Forall_app. split; [assumption|]. apply Forall_singleton.
    split; cbn [sample_at Database.heading Database.progress advanced progress].
    + now apply arrival_heading_range.
    + apply progress_at_bounds; lia.
  - apply Forall_app. split; [assumption|]. apply Forall_singleton.
    split; cbn [sample_at Database.heading Database.progress shifted progress].
    + apply BearingFacts.calculate_bearing_range.
    + apply progress_at_bounds; lia.
Qed.

(** X17. The store follows the registry: if the newest stored sample of
    a registered car is at the waypoint under its cursor and carries the
    progress of its state, this is still so after a call of
    [update_car_position] on any car. *)
Theorem update_keeps_in_sync (cid k : string) (w : World) :
  wf_world w -> in_sync k w -> in_sync k (update_car_position cid w).2.
Proof.
  intros Hwf Hsync.
  destruct (decide (k = cid)) as [->|Hk].
  2:{ destruct (update_frame cid w) as (_ & Hs & _ & Hl).
      intros st Hst. rewrite Hs in Hst by assumption.
      rewrite Hl by assumption. now apply Hsync. }
  destruct (update_cases cid w)
    as [[_ ->] | (st & Hst & [[_ ->] | [(Hm & Hi & ->) | (Hm & Hi & [[_ ->] |
         (car & _ & [[_ ->] | (v & cur & nxt & d & _ & Hcur & Hnxt & _ & _ &
            [[_ ->] | [_ ->]])])])]])];
    cbn [snd]; try assumption.
  - intros st' Hst'. cbn [finished_world car_states db] in *.
    rewrite lookup_insert_eq in Hst'. injection Hst' as <-.
    destruct (Hsync st Hst) as (p & Hp & Hpos & Hpr).
    exists p. cbn [coordinates current_index progress]. repeat split.
    + exact Hp.
    + exact Hpos.
    + rewrite Hpr. destruct (Hwf cid st Hst) as (Hlen & Hidx & Hprog).
      rewrite Hm in Hprog. rewrite Hprog.
      replace (current_index st) with (length (coordinates st) - 1)%nat by lia.
      now apply progress_at_last.
  - intros st' Hst'. cbn [dropped car_states] in Hst'.
    now rewrite lookup_delete_eq in Hst'.
  - intros st' Hst'. cbn [moved car_states db] in *.
    rewrite lookup_insert_eq in Hst'. injection Hst' as <-.
    eexists. split; [apply (DatabaseFacts.latest_position_own (sample_at cid nxt _ _))|].
    cbn [sample_at advanced coordinates current_index progress
         Database.lng Database.lat Database.progress].
    split; [|reflexivity]. rewrite Hnxt. now destruct nxt.
  - intros st' Hst'. cbn [moved car_states db] in *.
    rewrite lookup_insert_eq in Hst'. injection Hst' as <-.
    eexists. split; [apply (DatabaseFacts.latest_position_own (sample_at cid _ _ _))|].
    cbn [sample_at shifted coordinates current_index progress
         Database.lng Database.lat Database.progress].
    split; [|reflexivity].
    rewrite list_lookup_insert_eq by lia. reflexivity.
Qed.


(** One call on any car, seen from the path of [k]. *)
Lemma update_keeps_path (cid k : string) (w : World) (st st' : CarState) :
  car_states w !! k = Some st ->
  car_states (update_car_position cid w).2 !! k = Some st' ->
  length (coordinates st') = length (coordinates st)
  /\ (current_index st <= current_index st' <= current_index st + 1)%nat
  /\ (forall j, (current_index st < j \/ j + 1 = length (coordinates st))%nat ->
        coordinates st' !! j = coordinates st !! j).
Proof.
  intros Hst Hst'.
  destruct (decide (k = cid)) as [->|Hk].
  2:{ destruct (update_frame cid w) as (_ & Hs & _).
      rewrite Hs, Hst in Hst' by assumption. injection Hst' as <-.
      repeat split; lia. }
  rewrite update_next_state, Hst in Hst'. unfold next_state in Hst'.
  destruct (decide (status st = finished));
    [injection Hst' as <-; repeat split; lia|].
  destruct (decide (length (coordinates st) <= current_index st + 1)%nat);
    [injection Hst' as <-; repeat split; cbn; lia|].
  destruct (car_get_speed <$> find_car cid (Database.cars (db w))) as [[v|]|];
    [| injection Hst' as <-; repeat split; lia | discriminate].
  destruct (coordinates st !! current_index st) as [cur|];
    [|injection Hst' as <-; repeat split; lia].
  destruct (coordinates st !! (current_index st + 1)%nat) as [nxt|];
    [|injection Hst' as <-; repeat split; lia].
  destruct (_calculate_distance _ _ _ _) as [d|];
    [|injection Hst' as <-; repeat split; lia].
  destruct (Rge_dec _ d); injection Hst' as <-;
    cbn [advanced shifted coordinates current_index];
    rewrite ?length_insert; repeat split; try lia.
  intros j Hj. apply list_lookup_insert_ne. lia.
Qed.

(** X12. Across any sequence of [update_car_position] calls a car that
    stays registered keeps the length of its path; its cursor never moves
    back; and the waypoints ahead of the cursor, and the destination, are
    the ones it was given: the engine overwrites only waypoints the car
    is at or has passed. *)
Theorem ticks_keep_route (w w' : World) (k : string) (st st' : CarState) :
  ticks w w' ->
  car_states w !! k = Some st ->
  car_states w' !! k = Some st' ->
  length (coordinates st') = length (coordinates st)
  /\ (current_index st <= current_index st')%nat
  /\ (forall j, (current_index st' < j \/ j + 1 = length (coordinates st))%nat ->
        coordinates st' !! j = coordinates st !! j).
Proof.
  intros Ht. revert st.
  induction Ht as [w | w c r w1 w' Hrun Ht IH | w t w' _ IH]; intros st Hst Hst'.
  - rewrite Hst in Hst'. injection Hst' as <-. repeat split; lia.
  - assert (E : w1 = (update_car_position c w).2) by now rewrite Hrun.
    destruct (car_states w1 !! k) as [st1|] eqn:Hst1.
    + rewrite E in Hst1.
      destruct (update_keeps_path c k w st st1 Hst Hst1) as (Hl & Hi & Hc).
      rewrite <- E in Hst1.
      destruct (IH st1 eq_refl Hst') as (Hl' & Hi' & Hc').
      split; [congruence|]. split; [lia|].
      intros j Hj. rewrite Hc' by lia. apply Hc. lia.
    + apply (ticks_registry w1 w' k) in Ht as [Hn _].
      rewrite (Hn Hst1) in Hst'. discriminate.
  - apply IH; assumption.
Qed.


Lemma tick_n_S (n : nat) (k : string) (w : World) :
  tick_n (S n) k w = tick_n n k (update_car_position k w).2.
Proof. reflexivity. Qed.

Lemma tick_n_last (n : nat) (k : string) (w : World) :
  tick_n (S n) k w = (update_car_position k (tick_n n k w)).2.
Proof.
  revert w. induction n as [|n IH]; intros w; [reflexivity|].
  rewrite tick_n_S, IH. reflexivity.
Qed.

(** The view a car has of the world does not change under calls on it,
    apart from its own entry. *)
Lemma tick_n_view (n : nat) (k : string) (w : World) :
  update_interval (tick_n n k w) = update_interval w
  /\ car_get_speed <$> find_car k (Database.cars (db (tick_n n k w)))
     = car_get_speed <$> find_car k (Database.cars (db w)).
Proof.
  induction n as [|n [IH1 IH2]]; [split; reflexivity|].
  rewrite tick_n_last.
  destruct (update_frame k (tick_n n k w)) as (Hi & _ & Hv & _).
  split; [now rewrite Hi | now rewrite Hv].
Qed.

Lemma state_after_S (n : nat) (k : string) (w : World) :
  state_after (S n) k w
  = next_state (update_interval w)
      (car_get_speed <$> find_car k (Database.cars (db w)))
      (state_after n k w).
Proof.
  unfold state_after. rewrite tick_n_last, update_next_state.
  destruct (tick_n_view n k w) as [-> ->]. reflexivity.
Qed.

(** X13. However fast the car, it passes one waypoint per call: when
    every segment of the path is within the distance of one update, the
    cursor after [j] calls is [j] waypoints further, the path untouched,
    and the car is finished, with progress 100, by the call after the one
    that reached the last waypoint.  A path of [n] waypoints thus takes
    [n] calls from its start. *)
Theorem fast_car_one_waypoint_per_tick (k : string) (w : World) (st : CarState)
    (v : R) :
  car_states w !! k = Some st ->
  status st = moving ->
  (current_index st + 1 <= length (coordinates st))%nat ->
  car_get_speed <$> find_car k (Database.cars (db w)) = Some (Some v) ->
  segments_within (distance_per_update v w) (coordinates st) ->
  (forall j, (current_index st + j + 1 <= length (coordinates st))%nat ->
     exists st', state_after j k w = Some st'
                 /\ coordinates st' = coordinates st
                 /\ current_index st' = (current_index st + j)%nat
                 /\ status st' = moving)
  /\ exists st', state_after (length (coordinates st) - current_index st) k w
                 = Some st'
                 /\ coordinates st' = coordinates st
                 /\ status st' = finished /\ progress st' = 100.
Proof.
  intros Hst Hmov Hidx Hv Hfast.
  assert (Hrun : forall j, (current_index st + j + 1 <= length (coordinates st))%nat ->
     exists st', state_after j k w = Some st'
                 /\ coordinates st' = coordinates st
                 /\ current_index st' = (current_index st + j)%nat
                 /\ status st' = moving).
  { induction j as [|j IH]; intros Hj.
    - exists st. unfold state_after. cbn. rewrite Hst. repeat split; [lia|assumption].
    - destruct IH as (st1 & H1 & Hc & Hi & Hm); [lia|].
      rewrite state_after_S, H1, Hv. unfold next_state.
      rewrite decide_False by congruence.
      rewrite decide_False by (rewrite Hc, Hi; lia).
      destruct (lookup_lt_is_Some_2 (coordinates st1) (current_index st1))
        as [cur Hcur]; [rewrite Hc, Hi; lia|].
      destruct (lookup_lt_is_Some_2 (coordinates st1) (current_index st1 + 1))
        as [nxt Hnxt]; [rewrite Hc, Hi; lia|].
      rewrite Hcur, Hnxt.
      destruct (_calculate_distance_Ok cur.2 cur.1 nxt.2 nxt.1) as (d & Hd & _).
      rewrite Hd. rewrite Hc in Hcur, Hnxt.
      pose proof (Hfast _ _ _ _ Hcur Hnxt Hd) as Hle.
      unfold distance_per_update in Hle.
      destruct (Rge_dec _ d) as [_|Hn]; [|lra].
      exists (advanced st1). cbn [advanced coordinates current_index status].
      repeat split; [assumption | lia | assumption]. }
  split; [exact Hrun|].
  destruct (Hrun (length (coordinates st) - current_index st - 1)%nat)
    as (st1 & H1 & Hc & Hi & Hm); [lia|].
  replace (length (coordinates st) - current_index st)%nat
    with (S (length (coordinates st) - current_index st - 1)) by lia.
  rewrite state_after_S, H1. unfold next_state.
  rewrite decide_False by congruence.
  rewrite decide_True by (rewrite Hc, Hi; lia).
  eexists. split; [reflexivity|]. cbn. repeat split. assumption.
Qed.

Lemma interpolate_0 (p q : R * R) : interpolate p q 0 = p.
Proof. unfold interpolate. destruct p as [a b]. cbn. f_equal; ring. Qed.

Lemma stalled_car_run (k : string) (w : World) (st : CarState)
    (cur nxt : R * R) (v d : R) (n : nat) :
  car_states w !! k = Some st ->
  status st = moving ->
  coordinates st !! current_index st = Some cur ->
  coordinates st !! (current_index st + 1)%nat = Some nxt ->
  car_get_speed <$> find_car k (Database.cars (db w)) = Some (Some v) ->
  distance_per_update v w = 0 ->
  _calculate_distance cur.2 cur.1 nxt.2 nxt.1 = Ok d ->
  0 < d ->
  car_states (tick_n n k w)
  = (if n is O then car_states w
     else <[k := shifted st cur]> (car_states w))
  /\ Database.car_positions (db (tick_n n k w))
     = Database.car_positions (db w)
       ++ replicate n (sample_at k cur
                         (OSRMService.calculate_bearing cur.1 cur.2 nxt.1 nxt.2)
                         (progress_at (current_index st) (length (coordinates st))))
  /\ Database.cars (db (tick_n n k w)) = Database.cars (db w).
Proof.
  intros Hst Hmov Hcur Hnxt Hv Hb Hd Hd0.
  assert (Hlen : (current_index st + 1 < length (coordinates st))%nat)
    by (apply lookup_lt_is_Some_1; eauto).
  assert (Hstep : forall w0 st0,
    car_states w0 !! k = Some st0 ->
    coordinates st0 = coordinates st -> current_index st0 = current_index st ->
    status st0 = moving ->
    update_interval w0 = update_interval w ->
    Database.cars (db w0) = Database.cars (db w) ->
    (update_car_position k w0).2
    = moved k (shifted st0 cur)
        (sample_at k cur (OSRMService.calculate_bearing cur.1 cur.2 nxt.1 nxt.2)
           (progress_at (current_index st) (length (coordinates st)))) w0).
  { intros w0 st0 H0 Hc Hi Hm Hint Hcars.
    destruct (find_car k (Database.cars (db w))) as [car|] eqn:Hcar; [|discriminate].
    cbn in Hv. injection Hv as Hv.
    assert (Hb0 : distance_per_update v w0 = 0)
      by (unfold distance_per_update in *; now rewrite Hint).
    rewrite (update_interpolate k w0 st0 cur nxt car v d); try congruence.
    cbn [snd]. rewrite Hb0, progress_ratio_pos by assumption.
    replace (0 / d) with 0 by (field; lra). rewrite interpolate_0.
    unfold sample_at, shifted. cbn [progress]. now rewrite Hc, Hi. }
  induction n as [|n (IHs & IHp & IHc)].
  - cbn. rewrite app_nil_r. repeat split.
  - rewrite tick_n_last.
    destruct (tick_n_view n k w) as [Hint _].
    assert (H0 : exists st0, car_states (tick_n n k w) !! k = Some st0
               /\ coordinates st0 = coordinates st
               /\ current_index st0 = current_index st /\ status st0 = moving).
    { rewrite IHs. destruct n.
      - exists st. now rewrite Hst.
      - exists (shifted st cur). rewrite lookup_insert_eq. split; [reflexivity|].
        cbn [shifted coordinates current_index status].
        rewrite list_insert_id by assumption. repeat split. assumption. }
    destruct H0 as (st0 & H0 & Hc & Hi & Hm).
    rewrite (Hstep _ st0 H0 Hc Hi Hm Hint IHc).
    cbn [moved car_states db Database.insert_car_position Database.car_positions
         Database.cars].
    repeat split.
    + rewrite IHs.
      assert (Hsh : shifted st0 cur = shifted st cur).
      { unfold shifted. now rewrite Hc, Hi, Hm, Hmov. }
      rewrite Hsh. destruct n; [reflexivity|]. apply insert_insert_eq.
    + rewrite IHp, <- app_assoc. f_equal.
      change (S n) with (1 + n)%nat. rewrite Nat.add_comm, replicate_add. reflexivity.
    + exact IHc.
Qed.

(** X14. A car whose distance of one update is 0 (a speed of 0, or an
    interval of 0) on a segment of positive length never moves: after any
    number of calls its path and cursor are the same and it is still
    moving, while each call has appended one more sample at the same
    point, with the same heading and progress. *)
Theorem stalled_car_never_arrives (k : string) (w : World) (st : CarState)
    (cur nxt : R * R) (v d : R) (n : nat) :
  car_states w !! k = Some st ->
  status st = moving ->
  coordinates st !! current_index st = Some cur ->
  coordinates st !! (current_index st + 1)%nat = Some nxt ->
  car_get_speed <$> find_car k (Database.cars (db w)) = Some (Some v) ->
  distance_per_update v w = 0 ->
  _calculate_distance cur.2 cur.1 nxt.2 nxt.1 = Ok d ->
  0 < d ->
  (exists st', state_after n k w = Some st'
               /\ coordinates st' = coordinates st
               /\ current_index st' = current_index st
               /\ status st' = moving)
  /\ Database.car_positions (db (tick_n n k w))
     = Database.car_positions (db w)
       ++ replicate n (sample_at k cur
                         (OSRMService.calculate_bearing cur.1 cur.2 nxt.1 nxt.2)
                         (progress_at (current_index st) (length (coordinates st))))
  /\ Database.cars (db (tick_n n k w)) = Database.cars (db w).
Proof.
  intros Hst Hmov Hcur Hnxt Hv Hb Hd Hd0.
  destruct (stalled_car_run k w st cur nxt v d n Hst Hmov Hcur Hnxt Hv Hb Hd Hd0)
    as (Hs & Hp & Hc).
  split; [|split; assumption].
  unfold state_after. rewrite Hs. destruct n.
  - exists st. now rewrite Hst.
  - exists (shifted st cur). rewrite lookup_insert_eq. split; [reflexivity|].
    cbn [shifted coordinates current_index status].
    rewrite list_insert_id by assumption. repeat split. assumption.
Qed.


(** X15. A car whose distance of one update is negative (a negative
    speed is not refused anywhere) never reaches its next waypoint: after
    any number of calls the cursor is where it was, the car is still
    moving, and only the waypoint under the cursor has been rewritten. *)
Theorem reversing_car_never_arrives (k : string) (w : World) (st : CarState)
    (v : R) (n : nat) :
  car_states w !! k = Some st ->
  status st = moving ->
  (current_index st + 1 < length (coordinates st))%nat ->
  car_get_speed <$> find_car k (Database.cars (db w)) = Some (Some v) ->
  distance_per_update v w < 0 ->
  exists st', state_after n k w = Some st'
              /\ current_index st' = current_index st
              /\ length (coordinates st') = length (coordinates st)
              /\ status st' = moving
              /\ (forall j, j <> current_index st ->
                    coordinates st' !! j = coordinates st !! j).
Proof.
  intros Hst Hmov Hlen Hv Hb.
  induction n as [|n (st1 & H1 & Hi & Hl & Hm & Hc)].
  - exists st. unfold state_after. cbn. now rewrite Hst.
  - rewrite state_after_S, H1, Hv. unfold next_state.
    rewrite decide_False by congruence.
    rewrite decide_False by (rewrite Hl, Hi; lia).
    destruct (lookup_lt_is_Some_2 (coordinates st1) (current_index st1))
      as [cur Hcur]; [rewrite Hl, Hi; lia|].
    destruct (lookup_lt_is_Some_2 (coordinates st1) (current_index st1 + 1))
      as [nxt Hnxt]; [rewrite Hl, Hi; lia|].
    rewrite Hcur, Hnxt.
    destruct (_calculate_distance_Ok cur.2 cur.1 nxt.2 nxt.1) as (d & Hd & Hd0).
    rewrite Hd. unfold distance_per_update in Hb.
    destruct (Rge_dec _ d) as [Hge|_]; [lra|].
    eexists. split; [reflexivity|].
    cbn [shifted coordinates current_index status]. rewrite length_insert.
    repeat split; try assumption.
    intros j Hj. rewrite list_lookup_insert_ne by congruence. now apply Hc.
Qed.

Lemma add_car_sync (cid : string) (path : list (R * R)) (w w' : World) :
  add_car cid path w = (Ok tt, w') ->
  in_sync cid w'
  /\ (forall k, k <> cid -> in_sync k w -> in_sync k w').
Proof.
  unfold add_car. destruct (length path <? 2)%nat eqn:Hlen; [discriminate|].
  apply Nat.ltb_ge in Hlen.
  destruct path as [|p0 path']; [cbn in Hlen; lia|].
  unfold mbind, M_bind, set_state, with_car_states, item, mret, M_ret,
    db_insert_car_position, with_db. cbn [lookup list_lookup].
  intros H. injection H as <-. split.
  - intros st Hst. cbn [car_states db] in *.
    rewrite lookup_insert_eq in Hst. injection Hst as <-.
    eexists. split; [apply (DatabaseFacts.latest_position_own (Database.Build_PositionRow _ _ _ _ _))|].
    cbn. split; [|reflexivity]. now destruct p0.
  - intros k Hk Hsync st Hst. cbn [car_states db] in *.
    rewrite lookup_insert_ne in Hst by congruence.
    rewrite DatabaseFacts.latest_position_other by (cbn; congruence). now apply Hsync.
Qed.

Lemma state_after_gone (n : nat) (k : string) (w : World) :
  state_after n k w = None -> state_after (S n) k w = None.
Proof. intros H. rewrite state_after_S, H. reflexivity. Qed.

(** X22. No car passes more than one waypoint per call, whatever its
    speed and the lengths of the segments: after [n] calls of
    [update_car_position] on a car its cursor has advanced by at most
    [n]. *)
Theorem cursor_advances_at_most_one_per_tick (k : string) (w : World)
    (st st' : CarState) (n : nat) :
  car_states w !! k = Some st ->
  state_after n k w = Some st' ->
  (current_index st <= current_index st' <= current_index st + n)%nat.
Proof.
  intros Hst. revert st'. induction n as [|n IH]; intros st' Hn.
  - unfold state_after in Hn. cbn in Hn. rewrite Hst in Hn.
    injection Hn as <-. lia.
  - destruct (state_after n k w) as [st1|] eqn:H1.
    + specialize (IH st1 eq_refl).
      unfold state_after in H1, Hn. rewrite tick_n_last in Hn.
      destruct (update_keeps_path k k (tick_n n k w) st1 st' H1 Hn) as (_ & Hi & _).
      lia.
    + rewrite (state_after_gone n k w H1) in Hn. discriminate.
Qed.

(** X11. A sequence of [update_car_position] calls registers no car and
    retires none: an identifier that is not in the registry is not in it
    afterwards, and a finished car stays in the registry, with the state
    it finished in; only [add_car] and the reset change that. *)
Theorem ticks_keep_registry (w w' : World) (k : string) :
  ticks w w' ->
  (car_states w !! k = None -> car_states w' !! k = None)
  /\ (forall st, car_states w !! k = Some st -> status st = finished ->
                 car_states w' !! k = Some st).
Proof. apply ticks_registry. Qed.

(** X18. [add_car] puts the store in step with the registry for the car
    it adds: the newest stored sample of that car is at the waypoint under
    its cursor, with its progress; and it does not disturb this for any
    other car. *)
Theorem add_car_in_sync (cid : string) (path : list (R * R)) (w w' : World) :
  add_car cid path w = (Ok tt, w') ->
  in_sync cid w'
  /\ (forall k, k <> cid -> in_sync k w -> in_sync k w').
Proof. apply add_car_sync. Qed.

(** X19. A call of [update_car_position] that raises has written
    nothing: the registry and the store are as they were.  An exception
    can only come from a moving car with a segment ahead, where the speed
    is divided and the distance computed before the first write; a row
    whose speed is [None] raises [TypeError] there. *)
Theorem failed_update_writes_nothing (cid : string) (w : World) (e : exn)
    (w' : World) :
  update_car_position cid w = (Raise e, w') ->
  w' = w
  /\ exists st,
       car_states w !! cid = Some st /\ status st = moving
       /\ (current_index st + 1 < length (coordinates st))%nat
       /\ (forall car, find_car cid (Database.cars (db w)) = Some car ->
                       Database.speed car = Database.Null -> e = TypeError).
Proof.
  intros Hrun.
  destruct (update_cases cid w)
    as [[_ H] | (st & Hst & [[_ H] | [(_ & _ & H) | (Hm & Hi & [[_ H] |
         (car & Hc & [[Hv H] | (v & cur & nxt & d & _ & _ & _ & _ & _ &
            [[_ H] | [_ H]])])])]])];
    rewrite H in Hrun; try discriminate.
  injection Hrun as <- <-. split; [reflexivity|].
  exists st. repeat split; assumption.
Qed.

(** X20. A car just added is on the map: after a successful [add_car],
    [get_latest_car_positions] returns a row of that car, at the first
    waypoint of its path, with progress 0. *)
Theorem added_car_is_listed (cid : string) (path : list (R * R)) (w w' : World) :
  add_car cid path w = (Ok tt, w') ->
  exists p0 sample,
    path !! 0%nat = Some p0
    /\ sample ∈ Database.get_latest_car_positions (db w')
    /\ Database.car_id sample = cid
    /\ (Database.lng sample, Database.lat sample) = p0
    /\ Database.progress sample = 0.
Proof.
  unfold add_car. destruct (length path <? 2)%nat eqn:Hlen; [discriminate|].
  destruct path as [|p0 path']; [discriminate|].
  unfold mbind, M_bind, set_state, with_car_states, item, mret, M_ret,
    db_insert_car_position, with_db. cbn [lookup list_lookup].
  intros H. injection H as <-. cbn [db].
  eexists p0, _. split; [reflexivity|]. split.
  - apply DatabaseFacts.get_latest_car_positions_char. split.
    + cbn [Database.insert_car_position Database.car_positions].
      rewrite reverse_snoc. cbn. apply list_elem_of_here.
    + apply (DatabaseFacts.latest_position_own (Database.Build_PositionRow _ _ _ _ _)).
  - cbn. repeat split. now destruct p0.
Qed.

(** *** The theorems at the car of the scenarios *)

Lemma spawned_add (speed_kmh : Database.column) :
  add_car "car-1" short_path (empty_world speed_kmh)
  = (Ok tt, spawned speed_kmh).
Proof. reflexivity. Qed.

Lemma spawned_wf (speed_kmh : Database.column) : wf_world (spawned speed_kmh).
Proof.
  apply (add_car_preserves_wf "car-1" short_path
           (empty_world speed_kmh) (Ok tt)); [|apply spawned_add].
  intros k s H. cbn in H. now rewrite lookup_empty in H.
Qed.

Lemma spawned_in_sync (speed_kmh : Database.column) :
  in_sync "car-1" (spawned speed_kmh).
Proof.
  exact (proj1 (add_car_sync "car-1" short_path
                  (empty_world speed_kmh) (spawned speed_kmh)
                  (spawned_add speed_kmh))).
Qed.

Lemma spawned_speed (v : R) :
  car_get_speed <$> find_car "car-1" (Database.cars (db (spawned (Database.Num v))))
  = Some (Some v).
Proof. reflexivity. Qed.

Lemma short_path_segments_within (budget : R) :
  20 <= budget -> segments_within budget short_path.
Proof.
  intros Hb i p q d Hp Hq Hd.
  destruct i as [|[|i]]; cbn in Hp, Hq; try discriminate.
  injection Hp as <-. injection Hq as <-. cbn [fst snd] in Hd.
  rewrite EngineProperties.short_path_distance in Hd. injection Hd as <-.
  pose proof EngineProperties.short_path_length_bounds. lra.
Qed.

Lemma spawned_fast_tick :
  car_states (update_car_position "car-1" (spawned (Database.Num 72))).2
    !! "car-1"
  = Some (advanced (at_start short_path)).
Proof.
  rewrite update_next_state, spawned_speed.
  unfold spawned. cbn [car_states update_interval].
  rewrite lookup_singleton_eq. unfold next_state.
  rewrite decide_False by discriminate.
  rewrite decide_False by (cbn; lia).
  cbn [at_start short_path coordinates current_index
       lookup list_lookup Nat.add fst snd].
  rewrite EngineProperties.short_path_distance.
  pose proof EngineProperties.short_path_length_bounds.
  destruct (Rge_dec _ _) as [_|Hn]; [reflexivity | lra].
Qed.

Lemma one_tick (cid : string) (w : World) : ticks w (update_car_position cid w).2.
Proof.
  eapply ticks_update; [apply surjective_pairing | apply ticks_done].
Qed.

Lemma update_all_cars_independent_witness :
  car_states (update_all_cars ["car-1"; "car-2"]%string
                (spawned (Database.Num 36))).2 !! "car-1"
  = if decide ("car-1"%string ∈ ["car-1"; "car-2"]%string)
    then car_states (update_car_position "car-1"
                       (spawned (Database.Num 36))).2 !! "car-1"
    else car_states (spawned (Database.Num 36)) !! "car-1".
Proof.
  apply update_all_cars_independent.
  apply NoDup_cons. split; [|apply NoDup_singleton].
  intros H. apply list_elem_of_singleton in H. discriminate.
Defined.

Lemma ticks_keep_registry_witness :
  (car_states (spawned (Database.Num 72)) !! "car-2" = None ->
   car_states (update_car_position "car-1" (spawned (Database.Num 72))).2
     !! "car-2" = None)
  /\ (forall st,
        car_states (spawned (Database.Num 72)) !! "car-2" = Some st ->
        status st = finished ->
        car_states (update_car_position "car-1" (spawned (Database.Num 72))).2
          !! "car-2" = Some st).
Proof.
  apply (ticks_keep_registry (spawned (Database.Num 72))).
  apply one_tick.
Defined.

Lemma ticks_keep_route_witness :
  length (coordinates (advanced (at_start short_path)))
  = length (coordinates (at_start short_path))
  /\ (current_index (at_start short_path)
      <= current_index (advanced (at_start short_path)))%nat
  /\ (forall j,
        (current_index (advanced (at_start short_path)) < j
         \/ j + 1 = length (coordinates (at_start short_path)))%nat ->
        coordinates (advanced (at_start short_path)) !! j
        = coordinates (at_start short_path) !! j).
Proof.
  apply (ticks_keep_route (spawned (Database.Num 72))
           (update_car_position "car-1" (spawned (Database.Num 72))).2
           "car-1").
  - apply one_tick.
  - apply lookup_singleton_eq.
  - apply spawned_fast_tick.
Defined.

Lemma fast_car_one_waypoint_per_tick_witness :
  (forall j,
     (current_index (at_start short_path) + j + 1
      <= length (coordinates (at_start short_path)))%nat ->
     exists st', state_after j "car-1" (spawned (Database.Num 72)) = Some st'
                 /\ coordinates st' = coordinates (at_start short_path)
                 /\ current_index st'
                    = (current_index (at_start short_path) + j)%nat
                 /\ status st' = moving)
  /\ exists st',
       state_after (length (coordinates (at_start short_path))
                    - current_index (at_start short_path))
         "car-1" (spawned (Database.Num 72)) = Some st'
       /\ coordinates st' = coordinates (at_start short_path)
       /\ status st' = finished /\ progress st' = 100.
Proof.
  apply (fast_car_one_waypoint_per_tick "car-1" (spawned (Database.Num 72))
           (at_start short_path) 72).
  - apply lookup_singleton_eq.
  - reflexivity.
  - cbn. lia.
  - apply spawned_speed.
  - apply short_path_segments_within.
    unfold distance_per_update. cbn [spawned update_interval]. lra.
Defined.

Lemma stalled_car_never_arrives_witness :
  (exists st', state_after 3 "car-1" (spawned (Database.Num 0)) = Some st'
               /\ coordinates st' = coordinates (at_start short_path)
               /\ current_index st' = current_index (at_start short_path)
               /\ status st' = moving)
  /\ Database.car_positions (db (tick_n 3 "car-1" (spawned (Database.Num 0))))
     = Database.car_positions (db (spawned (Database.Num 0)))
       ++ replicate 3
            (sample_at "car-1" (0, 0)
               (OSRMService.calculate_bearing (0, 0).1 (0, 0).2
                  (0, 0.0001).1 (0, 0.0001).2)
               (progress_at (current_index (at_start short_path))
                  (length (coordinates (at_start short_path)))))
  /\ Database.cars (db (tick_n 3 "car-1" (spawned (Database.Num 0))))
     = Database.cars (db (spawned (Database.Num 0))).
Proof.
  apply (stalled_car_never_arrives "car-1" (spawned (Database.Num 0))
           (at_start short_path) (0, 0) (0, 0.0001) 0
           (R_earth * Rabs (radians (0.0001 - 0))) 3).
  - apply lookup_singleton_eq.
  - reflexivity.
  - reflexivity.
  - reflexivity.
  - apply spawned_speed.
  - unfold distance_per_update. cbn [spawned update_interval]. lra.
  - apply EngineProperties.short_path_distance.
  - pose proof EngineProperties.short_path_length_bounds. lra.
Defined.

Lemma reversing_car_never_arrives_witness :
  exists st', state_after 3 "car-1" (spawned (Database.Num (-36))) = Some st'
              /\ current_index st' = current_index (at_start short_path)
              /\ length (coordinates st') = length (coordinates (at_start short_path))
              /\ status st' = moving
              /\ (forall j, j <> current_index (at_start short_path) ->
                    coordinates st' !! j = coordinates (at_start short_path) !! j).
Proof.
  apply (reversing_car_never_arrives "car-1" (spawned (Database.Num (-36)))
           (at_start short_path) (-36) 3).
  - apply lookup_singleton_eq.
  - reflexivity.
  - cbn. lia.
  - apply spawned_speed.
  - unfold distance_per_update. cbn [spawned update_interval]. lra.
Defined.

Lemma update_emits_valid_samples_witness :
  Forall valid_sample
    (Database.car_positions
       (db (update_car_position "car-1" (spawned (Database.Num 36))).2)).
Proof.
  apply update_emits_valid_samples.
  apply Forall_singleton. split; cbn.
  - apply BearingFacts.calculate_bearing_range.
  - lra.
Defined.

Lemma update_keeps_in_sync_witness :
  in_sync "car-1" (update_car_position "car-1" (spawned (Database.Num 36))).2.
Proof.
  apply update_keeps_in_sync.
  - apply spawned_wf.
  - apply spawned_in_sync.
Defined.

Lemma add_car_in_sync_witness :
  in_sync "car-1" (spawned (Database.Num 36))
  /\ (forall k, k <> "car-1"%string ->
        in_sync k (empty_world (Database.Num 36)) ->
        in_sync k (spawned (Database.Num 36))).
Proof.
  apply (add_car_in_sync "car-1" short_path).
  reflexivity.
Defined.

Lemma failed_update_writes_nothing_witness :
  spawned Database.Null = spawned Database.Null
  /\ exists st,
       car_states (spawned Database.Null) !! "car-1" = Some st
       /\ status st = moving
       /\ (current_index st + 1 < length (coordinates st))%nat
       /\ (forall car,
             find_car "car-1" (Database.cars (db (spawned Database.Null))) = Some car ->
             Database.speed car = Database.Null -> TypeError = TypeError).
Proof.
  apply (failed_update_writes_nothing "car-1" (spawned Database.Null)).
  apply (update_speed_null "car-1" (spawned Database.Null)
           (at_start short_path) (car_row Database.Null)).
  - apply lookup_singleton_eq.
  - reflexivity.
  - cbn. lia.
  - reflexivity.
  - reflexivity.
Defined.

Lemma cursor_advances_at_most_one_per_tick_witness :
  (current_index (at_start short_path)
   <= current_index (advanced (at_start short_path))
   <= current_index (at_start short_path) + 1)%nat.
Proof.
  apply (cursor_advances_at_most_one_per_tick "car-1" (spawned (Database.Num 72))
           (at_start short_path) (advanced (at_start short_path)) 1).
  - apply lookup_singleton_eq.
  - apply spawned_fast_tick.
Defined.

Lemma added_car_is_listed_witness :
  exists p0 sample,
    short_path !! 0%nat = Some p0
    /\ sample ∈ Database.get_latest_car_positions
                  (db (spawned (Database.Num 36)))
    /\ Database.car_id sample = "car-1"%string
    /\ (Database.lng sample, Database.lat sample) = p0
    /\ Database.progress sample = 0.
Proof.
  apply (added_car_is_listed "car-1" short_path
           (empty_world (Database.Num 36))).
  reflexivity.
Defined.

End FleetProperties.

(** ** Cars near a user *)

Module NearbyProperties.
Import PyMath Routes Nearby.

Lemma Int_part_frac (y : R) : 0 <= y - IZR (Int_part y) < 1.
Proof. pose proof (base_Int_part y) as [H1 H2]. lra. Qed.

Lemma round_half_even_close (y : R) :
  - (1 / 2) <= IZR (round_half_even y) - y <= 1 / 2.
Proof.
  unfold round_half_even. pose proof (Int_part_frac y) as Hf.
  destruct (Rlt_dec _ _); [lra|].
  destruct (Rlt_dec _ _); [rewrite plus_IZR; lra|].
  destruct (Z.even _); [|rewrite plus_IZR]; lra.
Qed.

Lemma round2_close (x : R) : Rabs (round2 x - x) <= 1 / 200.
Proof.
  unfold round2. pose proof (round_half_even_close (x * 100)) as H.
  apply Rabs_le. lra.
Qed.

Lemma insert_by_distance_perm (c : NearbyCar) (l : list NearbyCar) :
  insert_by_distance c l ≡ₚ c :: l.
Proof.
  induction l as [|x l IH]; [reflexivity|]. cbn.
  destruct (Rlt_dec _ _); [reflexivity|].
  rewrite IH. apply Permutation_swap.
Qed.

Lemma insert_by_distance_sorted (c : NearbyCar) (l : list NearbyCar) :
  StronglySorted by_distance l -> StronglySorted by_distance (insert_by_distance c l).
Proof.
  induction 1 as [|x l Hs IH Hx]; cbn.
  - repeat constructor.
  - destruct (Rlt_dec _ _) as [Hlt|Hge].
    + constructor; [now constructor|]. constructor; [unfold by_distance; lra|].
      eapply Forall_impl; [exact Hx|]. unfold by_distance. intros; cbn in *. lra.
    + constructor; [exact IH|].
      rewrite insert_by_distance_perm. constructor; [unfold by_distance; lra | exact Hx].
Qed.

Lemma sort_by_distance_spec (l : list NearbyCar) :
  StronglySorted by_distance (sort_by_distance l) /\ sort_by_distance l ≡ₚ l.
Proof.
  unfold sort_by_distance.
  assert (H : forall acc, StronglySorted by_distance acc ->
            StronglySorted by_distance
              (foldl (fun sorted c => insert_by_distance c sorted) acc l)
            /\ foldl (fun sorted c => insert_by_distance c sorted) acc l ≡ₚ acc ++ l).
  { induction l as [|c l IH]; intros acc Hacc; cbn.
    - now rewrite app_nil_r.
    - destruct (IH (insert_by_distance c acc)) as [H1 H2];
        [now apply insert_by_distance_sorted|].
      split; [exact H1|]. rewrite H2, insert_by_distance_perm.
      cbn. apply Permutation_middle. }
  destruct (H [] (SSorted_nil _)) as [H1 H2]. now split.
Qed.

Lemma near_unique (user_lat user_lng radius_km : R) (pos : Database.PositionRow)
    (d d' : R) :
  haversine_distance user_lat user_lng (Database.lat pos) (Database.lng pos) = Ok d ->
  near user_lat user_lng radius_km pos d' -> d' = d /\ d <= radius_km.
Proof.
  intros Hd [Hd' Hle]. rewrite Hd in Hd'. injection Hd' as ->. now split.
Qed.

Lemma within_radius_Ok (parse_uuid : string -> result string)
    (user_lat user_lng radius_km : R) (positions : list Database.PositionRow) :
  (forall pos d, pos ∈ positions -> near user_lat user_lng radius_km pos d ->
                 is_Ok (parse_uuid (Database.car_id pos))) ->
  exists entries rows,
    within_radius parse_uuid user_lat user_lng radius_km positions = Ok entries
    /\ rows `sublist_of` positions
    /\ (forall pos, pos ∈ rows <->
          pos ∈ positions /\ exists d, near user_lat user_lng radius_km pos d)
    /\ Forall2 (entry_of parse_uuid user_lat user_lng radius_km) entries rows.
Proof.
  induction positions as [|pos rest IH]; intros Hparse.
  - exists [], []. cbn. split; [reflexivity|]. split; [constructor|].
    split; [|constructor]. intros pos. split; [intros H; inversion H|].
    intros [H _]. inversion H.
  - destruct IH as (entries & rows & Hrun & Hsub & Hmem & Hall).
    { intros pos' d Hin. apply Hparse. now right. }
    destruct (GeodesyProperties.haversine_distance_Ok user_lat user_lng
                (Database.lat pos) (Database.lng pos)) as (d & Hd & _).
    cbn [within_radius]. rewrite Hd. cbn [mbind result_bind].
    destruct (Rle_dec d radius_km) as [Hin|Hout].
    + destruct (Hparse pos d (list_elem_of_here _ _) (conj Hd Hin)) as [u Hu].
      rewrite Hu. cbn [mbind result_bind]. rewrite Hrun. cbn [mbind result_bind app].
      exists (listing u pos d :: entries), (pos :: rows).
      split; [reflexivity|]. split; [now constructor|]. split.
      * intros pos'. rewrite !elem_of_cons, Hmem. split.
        -- intros [->|[H1 H2]]; [|split; [now right | exact H2]].
           split; [now left|]. exists d. now split.
        -- intros [[->|H1] H2]; [now left | right; now split].
      * constructor; [|exact Hall].
        exists u, d. repeat split; try assumption. apply round2_close.
    + cbn [mbind result_bind]. rewrite Hrun. cbn [mbind result_bind app].
      exists entries, rows. split; [reflexivity|]. split; [now constructor|].
      split; [|exact Hall].
      intros pos'. rewrite elem_of_cons, Hmem. split.
      * intros [H1 H2]. split; [now right | exact H2].
      * intros [[->|H1] [d' H2]]; [|split; [exact H1 | now exists d']].
        destruct (near_unique _ _ _ _ _ _ Hd H2) as [_ Hle]. contradiction.
Qed.

Lemma within_radius_Raise (parse_uuid : string -> result string)
    (user_lat user_lng radius_km : R) (positions : list Database.PositionRow) :
  (exists pos d e, pos ∈ positions /\ near user_lat user_lng radius_km pos d
                   /\ parse_uuid (Database.car_id pos) = Raise e) ->
  exists e, within_radius parse_uuid user_lat user_lng radius_km positions = Raise e.
Proof.
  induction positions as [|pos rest IH]; intros (pos0 & d0 & e0 & Hin & Hnear & Hbad).
  - inversion Hin.
  - destruct (GeodesyProperties.haversine_distance_Ok user_lat user_lng
                (Database.lat pos) (Database.lng pos)) as (d & Hd & _).
    cbn [within_radius]. rewrite Hd. cbn [mbind result_bind].
    assert (Hrest : pos0 ∈ rest ->
              exists e, within_radius parse_uuid user_lat user_lng radius_km rest
                        = Raise e).
    { intros H. apply IH. exists pos0, d0, e0. repeat split; assumption || apply Hnear. }
    apply elem_of_cons in Hin.
    destruct (Rle_dec d radius_km) as [Hle|Hout].
    + destruct (parse_uuid (Database.car_id pos)) as [u|e] eqn:Hu;
        cbn [mbind result_bind]; [|now exists e].
      destruct Hin as [->|Hin]; [congruence|].
      destruct (Hrest Hin) as [e He]. rewrite He. now exists e.
    + cbn [mbind result_bind].
      destruct Hin as [->|Hin].
      * destruct (near_unique _ _ _ _ _ _ Hd Hnear) as [_ Hle]. contradiction.
      * destruct (Hrest Hin) as [e He]. rewrite He. now exists e.
Qed.

(** X21. [get_nearby_cars] on the rows of [get_latest_car_positions].
    When the identifier of every row within the radius validates as a
    UUID, the answer is in the order of [distance_km] and is, up to that
    order, one entry for each row whose distance to the user is at most
    the radius and for no other: the entry has the validated identifier,
    the coordinates and the heading of its row and the distance rounded to
    two decimals, within 0.005 km of the distance.  When the identifier of
    some row within the radius does not validate, the handler raises, which
    the caller sees as the response 500. *)
Theorem get_nearby_cars_spec (parse_uuid : string -> result string)
    (user_lat user_lng radius_km : R) (t : Database.Tables) :
  let latest := Database.get_latest_car_positions t in
  let answer := get_nearby_cars parse_uuid user_lat user_lng radius_km t in
  ((forall pos d, pos ∈ latest -> near user_lat user_lng radius_km pos d ->
                  is_Ok (parse_uuid (Database.car_id pos))) ->
   exists l entries rows,
     answer = Ok l
     /\ StronglySorted by_distance l
     /\ l ≡ₚ entries
     /\ rows `sublist_of` latest
     /\ (forall pos, pos ∈ rows <->
           pos ∈ latest /\ exists d, near user_lat user_lng radius_km pos d)
     /\ Forall2 (entry_of parse_uuid user_lat user_lng radius_km) entries rows)
  /\ ((exists pos d e, pos ∈ latest /\ near user_lat user_lng radius_km pos d
                       /\ parse_uuid (Database.car_id pos) = Raise e) ->
      exists e, answer = Raise e).
Proof.
  intros latest answer. subst latest answer. unfold get_nearby_cars. split.
  - intros Hparse.
    destruct (within_radius_Ok parse_uuid user_lat user_lng radius_km _ Hparse)
      as (entries & rows & Hrun & Hsub & Hmem & Hall).
    rewrite Hrun. cbn [mbind result_bind].
    destruct (sort_by_distance_spec entries) as [Hsorted Hperm].
    exists (sort_by_distance entries), entries, rows.
    repeat split; try assumption; apply Hmem; assumption.
  - intros Hbad.
    destruct (within_radius_Raise parse_uuid user_lat user_lng radius_km _ Hbad)
      as [e He].
    rewrite He. now exists e.
Qed.

End NearbyProperties.

(** ** The route from a car to the user *)

Module CarToUserProperties.
Import Models Routing RoutingFacts CarToUser.

(** X23. [get_car_to_user_route] answers 404 exactly when the store has
    no position of the car.  Otherwise it asks for the route from the
    newest stored position of the car to the user, in that order, and
    returns its coordinates, distance and duration; since [get_route]
    never raises, the only failure left is a [car_id] that is not a UUID,
    answered 500.  With both providers down the answer is the straight
    line of 11 points from the car to the user. *)
Theorem get_car_to_user_route_spec (parse_uuid : string -> result string)
    (lax_float : pyval -> option R)
    (local_reply public_reply : http_reply) (car_id : string)
    (user_lat user_lng : R) (t : Database.Tables) :
  let answer := get_car_to_user_route parse_uuid lax_float
                  local_reply public_reply car_id user_lat user_lng t in
  (answer = HTTPException 404
   <-> Database.get_car_latest_position car_id t = None)
  /\ (forall position,
        Database.get_car_latest_position car_id t = Some position ->
        exists route,
          get_route lax_float local_reply public_reply
            (Database.lng position) (Database.lat position) user_lng user_lat
          = Ok route
          /\ match parse_uuid car_id with
             | Ok car_uuid =>
                 answer = Reply {| car_id := car_uuid;
                                   user_lat := user_lat;
                                   user_lng := user_lng;
                                   coordinates := Models.coordinates route;
                                   distance := Models.distance route;
                                   duration := Models.duration route |}
             | Raise _ => answer = HTTPException 500
             end
          /\ (forall e1 e2,
                fetch_route lax_float local_reply = Raise e1 ->
                fetch_route lax_float public_reply = Raise e2 ->
                length (Models.coordinates route) = 11%nat
                /\ Models.coordinates route !! 0%nat
                   = Some [Database.lng position; Database.lat position]
                /\ Models.coordinates route !! 10%nat
                   = Some [user_lng; user_lat])).
Proof.
  intros answer. subst answer. unfold get_car_to_user_route.
  destruct (Database.get_car_latest_position car_id t) as [position|].
  - assert (Hroute : exists route,
              get_route lax_float local_reply public_reply
                (Database.lng position) (Database.lat position) user_lng user_lat
              = Ok route
              /\ (forall e1 e2,
                    fetch_route lax_float local_reply = Raise e1 ->
                    fetch_route lax_float public_reply = Raise e2 ->
                    length (Models.coordinates route) = 11%nat
                    /\ Models.coordinates route !! 0%nat
                       = Some [Database.lng position; Database.lat position]
                    /\ Models.coordinates route !! 10%nat
                       = Some [user_lng; user_lat])).
    { destruct (straight_line_eq (Database.lng position) (Database.lat position)
                  user_lng user_lat) as (r3 & Hr3 & Hc & _).
      unfold get_route.
      destruct (fetch_route lax_float local_reply) as [r1|e1];
        [exists r1; split; [reflexivity | discriminate]|].
      destruct (fetch_route lax_float public_reply) as [r2|e2];
        [exists r2; split; [reflexivity | discriminate]|].
      exists r3. split; [exact Hr3|]. intros _ _ _ _. rewrite Hc.
      split; [reflexivity|]. split.
      - cbn. do 2 f_equal; [|f_equal]; lra.
      - cbn. do 2 f_equal; [|f_equal]; field. }
    destruct Hroute as (route & Hroute & Hline).
    rewrite Hroute. cbn [mbind result_bind].
    split.
    + split; [|discriminate].
      destruct (parse_uuid car_id); cbn [mbind result_bind]; discriminate.
    + intros position' Hp. injection Hp as <-. exists route.
      split; [exact Hroute|]. split; [|exact Hline].
      destruct (parse_uuid car_id); reflexivity.
  - split; [split; reflexivity|]. intros position Hp. discriminate.
Qed.

End CarToUserProperties.
